(** * Photo face finder: the scan processing pipeline

    A shallow embedding of the backend of the repository:

    - [models/scan.model.js]       the durable Scan record and its updates,
    - [routes/scan.routes.js]      the cancel endpoint,
    - [services/faceDetection.js]  the (mock) matcher,
    - [services/s3Upload.js]       upload with retry, bounded batch upload,
    - [services/googlePhotos.js]   paged enumeration and bulk download,
    - [workers/scanWorker.js]      the orchestrator [processScan].

    The durable store and the ephemeral store are finite maps keyed by scan
    id.  Remote collaborators (the photo library, the blob store, the clock,
    the random generator of the mock matcher) are fields of an environment
    record: every run of the orchestrator is a function of that record and
    of the stores it starts from.  A run is given as the list of its
    effects, in the order they are issued, and [exec] applies that list to
    the stores; the one answer of the stores that [processScan] depends on
    is that of the INSERT into [matched_photos], which the database rejects
    when a constraint of the table is violated.  The database is taken to
    answer every statement: a statement fails only by violating a
    constraint.  A write that is not awaited takes effect when it is
    issued.  JavaScript numbers that carry a confidence are rationals here;
    counters are natural numbers, batch numbers are integers. *)

From Stdlib Require Import QArith Lqa Ascii String.
From stdpp Require Import gmap strings list fin_maps.

Close Scope Q_scope.

(** ** Exceptions *)

(** A JavaScript computation either returns a value or throws an error
    whose [message] is a string. *)
Inductive exc (A : Type) : Type :=
| Ok (a : A)
| Throw (message : string).
Arguments Ok {A} a.
Arguments Throw {A} message.

(** ** The durable Scan record (schema.sql, models/scan.model.js) *)

Inductive ScanStatus : Type :=
| pending | processing | completed | failed | cancelled.

Global Instance ScanStatus_eq_dec : EqDecision ScanStatus.
Proof. solve_decision. Defined.

Definition terminal (s : ScanStatus) : bool :=
  match s with
  | completed | failed | cancelled => true
  | pending | processing => false
  end.

Record Scan : Type := mkScan {
  status : ScanStatus;
  job_id : option string;
  started_at : option nat;
  completed_at : option nat;
  total_photos : nat;
  scanned_photos : nat;
  matched_photos : nat;
  uploaded_photos : nat;
  error_message : option string;
}.

(** One row of [matched_photos]. *)
Record MatchMetadata : Type := mkMatchMetadata {
  md_filename : option string;
  md_mimeType : option string;
  md_creationTime : option string;
  md_width : option string;
  md_height : option string;
}.

Record PhotoRecord : Type := mkPhotoRecord {
  pr_scanId : string;
  pr_googlePhotoId : string;
  pr_googlePhotoUrl : string;
  pr_s3Url : option string;
  pr_s3Key : option string;
  pr_thumbnailUrl : option string;
  pr_confidenceScore : Q;
  pr_metadata : MatchMetadata;
}.

(** The progress object handed to [updateProgress]. *)
Record Progress : Type := mkProgress {
  totalPhotos : nat;
  scannedPhotos : nat;
  matchedPhotos : nat;
  uploadedPhotos : nat;
  currentBatch : Z;
  totalBatches : Z;
}.

(** The stores shared by the worker and the web layer: the two tables of
    the relational store, the Redis progress hashes with their TTL, and the
    ids of the jobs held by the queue. *)
Record World : Type := mkWorld {
  tbl_scans : gmap string Scan;
  tbl_matched_photos : list PhotoRecord;
  redis_progress : gmap string (Progress * N);
  queue_jobs : gset string;
}.

Definition with_scans (w : World) (m : gmap string Scan) : World :=
  mkWorld m (tbl_matched_photos w) (redis_progress w) (queue_jobs w).

(** [UPDATE scans SET ... WHERE id = $1 RETURNING *]: the row with the
    given id is rewritten and returned; when there is none the statement
    updates nothing and [rows[0]] is [undefined]. *)
Definition update_where_id (f : Scan → Scan) (scanId : string) (w : World)
  : option Scan * World :=
  match tbl_scans w !! scanId with
  | Some row => (Some (f row), with_scans w (<[scanId := f row]> (tbl_scans w)))
  | None => (None, w)
  end.

(** [getScanById]: [result.rows[0] || null]. *)
Definition getScanById (scanId : string) (w : World) : option Scan :=
  tbl_scans w !! scanId.

(** The keys of the [updates] object of [updateScan]. *)
Inductive ScanUpdate : Type :=
| set_status (s : ScanStatus)
| set_started_at (t : nat)
| set_completed_at (t : nat)
| set_error_message (m : string).

Definition apply_update (row : Scan) (u : ScanUpdate) : Scan :=
  match u with
  | set_status s =>
      mkScan s (job_id row) (started_at row) (completed_at row) (total_photos row)
        (scanned_photos row) (matched_photos row) (uploaded_photos row) (error_message row)
  | set_started_at t =>
      mkScan (status row) (job_id row) (Some t) (completed_at row) (total_photos row)
        (scanned_photos row) (matched_photos row) (uploaded_photos row) (error_message row)
  | set_completed_at t =>
      mkScan (status row) (job_id row) (started_at row) (Some t) (total_photos row)
        (scanned_photos row) (matched_photos row) (uploaded_photos row) (error_message row)
  | set_error_message m =>
      mkScan (status row) (job_id row) (started_at row) (completed_at row) (total_photos row)
        (scanned_photos row) (matched_photos row) (uploaded_photos row) (Some m)
  end.

(** [updateScan(scanId, updates)]: one [key = $n] per entry, in order. *)
Definition updateScan (scanId : string) (updates : list ScanUpdate) (w : World)
  : option Scan * World :=
  update_where_id (λ row, foldl apply_update row updates) scanId w.

(** [COALESCE($n, column)] *)
Definition coalesce (v : option nat) (column : nat) : nat :=
  match v with Some x => x | None => column end.

(** [updateScanProgress]: the four counters, each kept when the progress
    object lacks it; no other column is written. *)
Definition updateScanProgress (scanId : string)
    (total scanned matched uploaded : option nat) (w : World) : option Scan * World :=
  update_where_id (λ row,
    mkScan (status row) (job_id row) (started_at row) (completed_at row)
      (coalesce total (total_photos row))
      (coalesce scanned (scanned_photos row))
      (coalesce matched (matched_photos row))
      (coalesce uploaded (uploaded_photos row))
      (error_message row)) scanId w.

(** [markScanStarted]: [SET status = 'processing', started_at = NOW()]. *)
Definition markScanStarted (scanId : string) (now : nat) (w : World)
  : option Scan * World :=
  update_where_id (λ row,
    mkScan processing (job_id row) (Some now) (completed_at row) (total_photos row)
      (scanned_photos row) (matched_photos row) (uploaded_photos row) (error_message row))
    scanId w.

(** [markScanCompleted]: [SET status = 'completed', completed_at = NOW()]. *)
Definition markScanCompleted (scanId : string) (now : nat) (w : World)
  : option Scan * World :=
  update_where_id (λ row,
    mkScan completed (job_id row) (started_at row) (Some now) (total_photos row)
      (scanned_photos row) (matched_photos row) (uploaded_photos row) (error_message row))
    scanId w.

(** [markScanFailed]:
    [SET status = 'failed', error_message = $1, completed_at = NOW()]. *)
Definition markScanFailed (scanId : string) (errorMessage : string) (now : nat)
    (w : World) : option Scan * World :=
  update_where_id (λ row,
    mkScan failed (job_id row) (started_at row) (Some now) (total_photos row)
      (scanned_photos row) (matched_photos row) (uploaded_photos row) (Some errorMessage))
    scanId w.

(** The effect of an INSERT that the database accepts. *)
Definition insert_rows (photos : list PhotoRecord) (w : World) : World :=
  mkWorld (tbl_scans w) (tbl_matched_photos w ++ photos) (redis_progress w) (queue_jobs w).

(** The constraints of [matched_photos] (schema.sql) that a row built by
    the worker can violate: [s3_url] and [s3_key] are NOT NULL, and
    [scan_id] REFERENCES [scans(id)].  The messages are those of the
    database, without their quotation marks. *)
Definition not_null_violation (column : string) : string :=
  String.append "null value in column "
    (String.append column " of relation matched_photos violates not-null constraint").

Definition foreign_key_violation : string :=
  "insert or update on table matched_photos violates foreign key constraint matched_photos_scan_id_fkey".

(** The scan that a row refers to exists.  An id is a value of the type
    of its column, so no statement is refused for the form of an id. *)
Definition has_scan (w : World) (photo : PhotoRecord) : bool :=
  bool_decide (is_Some (tbl_scans w !! pr_scanId photo)).

(** The first column of a row, in the order of the table, that is NOT NULL
    and gets no value. *)
Definition null_column (photo : PhotoRecord) : option string :=
  match pr_s3Url photo, pr_s3Key photo with
  | None, _ => Some "s3_url"
  | Some _, None => Some "s3_key"
  | Some _, Some _ => None
  end.

(** [createMatchedPhotos]: nothing is sent for an empty array; otherwise
    one INSERT with a row per element, which stores all the rows or, when a
    row violates a constraint, none; the error of the database is thrown
    again.  The rows are checked for NOT NULL one after the other as they
    are inserted, and the foreign key at the end of the statement. *)
Definition createMatchedPhotos (photos : list PhotoRecord) (w : World) : exc () * World :=
  if (length photos =? 0)%nat then (Ok (), w)
  else
    match head (omap null_column photos) with
    | Some column => (Throw (not_null_violation column), w)
    | None =>
        if forallb (has_scan w) photos then (Ok (), insert_rows photos w)
        else (Throw foreign_key_violation, w)
    end.

(** ** The queue (queue/index.js) *)

(** [cancelJob]: the job is removed when the queue still holds it. *)
Definition cancelJob (jobId : string) (w : World) : World :=
  mkWorld (tbl_scans w) (tbl_matched_photos w) (redis_progress w) (queue_jobs w ∖ {[jobId]}).

(** ** The cancel endpoint (routes/scan.routes.js) *)

Inductive CancelResponse : Type :=
| resp_400_validation_error
| resp_404_scan_not_found
| resp_400_cannot_cancel
| resp_200_cancelled (scanId : string).

Definition is_rejection (r : CancelResponse) : bool :=
  match r with
  | resp_400_validation_error | resp_404_scan_not_found | resp_400_cannot_cancel => true
  | resp_200_cancelled _ => false
  end.

(** The handler of [POST /api/scans/:scanId/cancel]; [now] is [new Date()]. *)
Definition cancelScan (scanId : string) (now : nat) (w : World)
  : CancelResponse * World :=
  match getScanById scanId w with
  | None => (resp_404_scan_not_found, w)
  | Some scan =>
      if decide (status scan = completed ∨ status scan = failed) then
        (resp_400_cannot_cancel, w)
      else
        let w1 := match job_id scan with
                  | Some j => cancelJob j w
                  | None => w
                  end in
        let w2 := (updateScan scanId [set_status cancelled; set_completed_at now] w1).2 in
        (resp_200_cancelled scanId, w2)
  end.

(** [String.prototype.trim] on the characters that can occur in a path
    parameter: blanks, tabs and line breaks at both ends are dropped. *)
Definition is_space (c : ascii) : bool :=
  match nat_of_ascii c with
  | 9 | 10 | 11 | 12 | 13 | 32 => true
  | _ => false
  end.

Fixpoint trim_start (l : list ascii) : list ascii :=
  match l with
  | c :: l' => if is_space c then trim_start l' else l
  | [] => []
  end.

Definition trim (s : string) : string :=
  string_of_list_ascii
    (List.rev (trim_start (List.rev (trim_start (list_ascii_of_string s))))).

Section CancelRoute.
(** [isUUID] of the validation library. *)
Variable isUUID : string → bool.

(** [validateScanId] (middleware/validation.js):
    [param('scanId').trim().notEmpty().isUUID()], then [validate].  The
    sanitised id when no validator complains, [None] for the 400
    "Validation Error". *)
Definition validateScanId (scanId : string) : option string :=
  let scanId := trim scanId in
  if negb (String.eqb scanId "") && isUUID scanId then Some scanId else None.

(** [router.post('/:scanId/cancel', validateScanId, asyncHandler(...))] *)
Definition cancelRoute (scanId : string) (now : nat) (w : World)
  : CancelResponse * World :=
  match validateScanId scanId with
  | None => (resp_400_validation_error, w)
  | Some scanId => cancelScan scanId now w
  end.
End CancelRoute.

(** The textual form of a UUID, hexadecimal digits in groups of
    8-4-4-4-12, as the ids of the [UUID] columns are written. *)
Definition is_hex (c : ascii) : bool :=
  let n := nat_of_ascii c in
  ((48 <=? n) && (n <=? 57)) || ((65 <=? n) && (n <=? 70)) || ((97 <=? n) && (n <=? 102)).

Fixpoint hex_groups (groups : list nat) (l : list ascii) : bool :=
  match groups with
  | [] => match l with [] => true | _ => false end
  | g :: groups' =>
      forallb is_hex (take g l) && (length (take g l) =? g) &&
      match groups', drop g l with
      | [], [] => true
      | _ :: _, c :: l' => (nat_of_ascii c =? 45) && hex_groups groups' l'
      | _, _ => false
      end
  end.

Definition uuid_format (s : string) : bool :=
  hex_groups [8; 4; 4; 4; 12] (list_ascii_of_string s).

(** ** The matcher (services/faceDetection.js, the mock implementation) *)

Definition Buffer : Type := list nat.

(** The module keeps one flag, [initialized]; [rng] counts the calls made
    to [Math.random] so far, so that the n-th call returns [random n]. *)
Record MatcherState : Type := mkMatcherState {
  initialized : bool;
  rng : nat;
}.

(** Stateful code that may throw; the state reached before a throw stays. *)
Definition MS (A : Type) : Type := MatcherState → exc A * MatcherState.

Definition ms_ret {A} (a : A) : MS A := λ st, (Ok a, st).
Definition ms_throw {A} (e : string) : MS A := λ st, (Throw e, st).
Definition ms_bind {A B} (m : MS A) (k : A → MS B) : MS B :=
  λ st, match m st with
        | (Ok a, st') => k a st'
        | (Throw e, st') => (Throw e, st')
        end.
Definition ms_try {A} (body : MS A) (handler : string → MS A) : MS A :=
  λ st, match body st with
        | (Ok a, st') => (Ok a, st')
        | (Throw e, st') => handler e st'
        end.
Definition ms_lift {A} (c : exc A) : MS A := λ st, (c, st).

Notation "'let!' x ':=' m 'in' k" := (ms_bind m (λ x, k))
  (at level 10, x pattern, m at level 100, k at level 200).

(** A detected face.  The bounding box and the landmarks of the mock are
    floating-point expressions of the image size that nothing reads; the
    record keeps the descriptor, the score and the image size. *)
Record Face : Type := mkFace {
  descriptor : list Q;
  score : Q;
  imageWidth : nat;
  imageHeight : nat;
}.

Record MatchResult : Type := mkMatchResult {
  isMatch : bool;
  confidence : Q;
  facesDetected : nat;
  bestMatchIndex : option nat;
  distance : option Q;
  mr_error : option string;
}.

(** The result returned when no face is found. *)
Definition no_face : MatchResult :=
  mkMatchResult false 0%Q 0 None None None.

(** The result returned by the [catch] of [matchFace]. *)
Definition no_match_error (message : string) : MatchResult :=
  mkMatchResult false 0%Q 0 None None (Some message).

(** [x > y] on numbers. *)
Definition Qgtb (x y : Q) : bool := negb (Qle_bool x y).

Section Matcher.
(** [image-size]: the dimensions of an encoded image, or a throw when
    the bytes are not an image. *)
Variable sizeOf : Buffer → exc (nat * nat).
(** [Math.random]: the value of the n-th call. *)
Variable random : nat → Q.

Definition math_random : MS Q :=
  λ st, (Ok (random (rng st)), mkMatcherState (initialized st) (S (rng st))).

(** [initializeModel] *)
Definition initializeModel : MS () :=
  λ st, if initialized st then (Ok (), st)
        else ms_try (λ st', (Ok (), mkMatcherState true (rng st')))
                    (λ error, ms_throw error) st.

(** [Array(128).fill(0).map(() => Math.random() - 0.5)] *)
Fixpoint random_descriptor (n : nat) : MS (list Q) :=
  match n with
  | 0 => ms_ret []
  | S n' =>
      let! r := math_random in
      let! rest := random_descriptor n' in
      ms_ret ((r - (1 # 2))%Q :: rest)
  end.

(** [detectFaces(imageBuffer)]; the argument is [None] for [null]. *)
Definition detectFaces (imageBuffer : option Buffer) : MS (list Face) :=
  ms_try
    (let! _ := (λ st, if initialized st then (Ok (), st) else initializeModel st) in
     match imageBuffer with
     | None => ms_ret []
     | Some buf =>
         if (length buf =? 0)%nat then ms_ret []
         else
           let! dimensions := ms_lift (sizeOf buf) in
           let! d := random_descriptor 128 in
           ms_ret [mkFace d (95 # 100)%Q dimensions.1 dimensions.2]
     end)
    (λ error, ms_ret []).

(** [matchFace(imageBuffer, referenceEmbeddings)] *)
Definition matchFace (imageBuffer : option Buffer) (referenceEmbeddings : list (list Q))
  : MS MatchResult :=
  ms_try
    (let! faces := detectFaces imageBuffer in
     if (length faces =? 0)%nat then ms_ret no_face
     else
       let! r1 := math_random in
       let isMatch := Qgtb r1 (3 # 10) in
       let! r2 := math_random in
       let confidence :=
         if isMatch then ((85 # 100) + r2 * (1 # 10))%Q
         else ((3 # 10) + r2 * (2 # 10))%Q in
       ms_ret (mkMatchResult isMatch confidence (length faces) (Some 0)
                 (Some (if isMatch then (3 # 10)%Q else (8 # 10)%Q)) None))
    (λ error, ms_ret (no_match_error error)).
End Matcher.

(** ** The blob store client (services/s3Upload.js) *)

Record Blob : Type := mkBlob {
  blob_url : string;
  blob_key : string;
}.

Inductive UploadEvent : Type :=
| upload_attempt (attempt : nat)
| upload_wait (ms : nat).

(** The [for (attempt = 1; attempt <= maxRetries; attempt++)] loop of
    [uploadPhotoWithRetry], entered at [attempt] with [remaining]
    iterations left before the loop condition fails
    ([remaining = maxRetries + 1 - attempt]).  [uploadPhoto n] is the
    outcome of the n-th call of [uploadPhoto] for this file.  When the loop
    ends without a return the function returns [undefined] ([None]). *)
Fixpoint retry_loop (uploadPhoto : nat → exc Blob) (maxRetries remaining attempt : nat)
  : exc (option Blob) * list UploadEvent :=
  match remaining with
  | 0 => (Ok None, [])
  | S remaining' =>
      match uploadPhoto attempt with
      | Ok blob => (Ok (Some blob), [upload_attempt attempt])
      | Throw error =>
          if (attempt =? maxRetries)%nat then (Throw error, [upload_attempt attempt])
          else
            let delay := 2 ^ (attempt - 1) * 1000 in
            let '(res, evs) := retry_loop uploadPhoto maxRetries remaining' (S attempt) in
            (res, upload_attempt attempt :: upload_wait delay :: evs)
      end
  end.

Definition uploadPhotoWithRetry (uploadPhoto : nat → exc Blob) (maxRetries : nat)
  : exc (option Blob) * list UploadEvent :=
  retry_loop uploadPhoto maxRetries maxRetries 1.

(** The default of the [maxRetries] parameter. *)
Definition default_maxRetries : nat := 3.

(** ** The remote photo source (services/googlePhotos.js) *)

Record MediaMetadata : Type := mkMediaMetadata {
  creationTime : option string;
  width : option string;
  height : option string;
}.

(** One media item as the library returns it. *)
Record Photo : Type := mkPhoto {
  p_id : string;
  p_baseUrl : string;
  p_filename : option string;
  p_mimeType : option string;
  p_mediaMetadata : option MediaMetadata;
}.

(** [{ id: photo.id, buffer, metadata: photo }] *)
Record Downloaded : Type := mkDownloaded {
  d_id : string;
  d_buffer : Buffer;
  d_metadata : Photo;
}.

(** The answer to one [mediaItems:search] request: the items of the page
    and whether a [nextPageToken] comes with it, or a failed request. *)
Inductive PageResponse : Type :=
| page_ok (mediaItems : list Photo) (nextPageToken : bool)
| page_error (message : string).

(** [downloadPhotosInBatches] and [downloadOriginalPhotos]: every item is
    attempted; a failed download yields [null] and is filtered out, the
    others come back in the order of the input ([Promise.allSettled]). *)
Definition download_all (download : Photo → exc Buffer) (photos : list Photo)
  : list Downloaded :=
  omap (λ photo, match download photo with
                 | Ok buffer => Some (mkDownloaded (p_id photo) buffer photo)
                 | Throw _ => None
                 end) photos.

Definition downloadPhotosInBatches := download_all.
Definition downloadOriginalPhotos := download_all.

(** ** Configuration (config/index.js) *)

(** [parseInt(process.env.BATCH_SIZE) || 100]: [parsed] is the result of
    [parseInt], an integer or [NaN] ([None]); [0] and [NaN] are its falsy
    values.  The batch size is any integer but 0, negative ones included. *)
Definition worker_batchSize (parsed : option Z) : Z :=
  match parsed with
  | None | Some Z0 => 100%Z
  | Some size => size
  end.

Record FaceDetectionConfig : Type := mkFaceDetectionConfig {
  confidenceThreshold : Q;
  matchThreshold : Q;
  maxFaces : nat;
}.

(** [config.faceDetection] as the repository has it. *)
Definition faceDetection_config : FaceDetectionConfig :=
  mkFaceDetectionConfig (7 # 10) (6 # 10) 10.

(** ** The orchestrator (workers/scanWorker.js) *)

Record TokenData : Type := mkTokenData {
  access_token : string;
  refresh_token : option string;
  expiry_date : option Z;
}.

Record Job : Type := mkJob {
  job_ident : string;
  scanId : string;
  sessionId : string;
  oauthToken : string;
  referenceEmbeddings : list (list Q);
}.

(** [matchedPhotosData] entries. *)
Record MatchData : Type := mkMatchData {
  googlePhotoId : string;
  googlePhotoUrl : string;
  md_confidence : Q;
  md_metadata : MatchMetadata;
}.

Record UploadMetadata : Type := mkUploadMetadata {
  um_scanId : string;
  um_sessionId : string;
  um_confidence : option Q;
  um_originalCreationTime : option string;
}.

Record PhotoToUpload : Type := mkPhotoToUpload {
  u_id : string;
  u_buffer : Buffer;
  u_filename : string;
  u_metadata : UploadMetadata;
}.

(** The objects returned by [uploadPhotosInBatch]:
    [{...result, originalId, success: true}] or
    [{originalId, success: false, error}]. *)
Record UploadResult : Type := mkUploadResult {
  originalId : string;
  success : bool;
  ur_blob : option Blob;
  ur_error : option string;
}.

(** What a run of [processScan] does to the outside, in order. *)
Inductive Event : Type :=
| ev_markScanStarted (scan : string) (now : nat)
| ev_refreshAccessToken
| ev_fetchPage (pageCount : nat)
| ev_updateProgress (scan : string) (p : Progress)
| ev_downloadPhotosInBatches (batch : list Photo)
| ev_matchFace (photo : string)
| ev_jobProgress (scanned total : nat)
| ev_downloadOriginalPhotos (photos : list Photo)
| ev_uploadPhotosInBatch (photos : list string)
| ev_upload (photo : PhotoToUpload) (e : UploadEvent)
| ev_createMatchedPhotos (records : list PhotoRecord)
| ev_markScanCompleted (scan : string) (now : nat)
| ev_markScanFailed (scan : string) (message : string) (now : nat).

(** The collaborators of one run. *)
Record Env : Type := mkEnv {
  decrypt : string → exc string;
  parse_json : string → option TokenData;
  date_now : Z;
  refreshAccessToken : string → exc string;
  library : string → list PageResponse;
  thumbnail : Photo → exc Buffer;
  original : Photo → exc Buffer;
  sizeOf : Buffer → exc (nat * nat);
  random : nat → Q;
  uploadPhoto : PhotoToUpload → nat → exc Blob;
  BATCH_SIZE : option Z;
  clock_start : nat;
  clock_end : nat;
}.

(** The [let] variables of [processScan], [matchedPhotosData], the state of
    the matcher module, and the events so far. *)
Record Run : Type := mkRun {
  r_totalPhotos : nat;
  r_scannedPhotos : nat;
  r_matchedPhotos : nat;
  r_uploadedPhotos : nat;
  r_matchedPhotosData : list MatchData;
  r_matcher : MatcherState;
  r_trace : list Event;
}.

Definition emit (e : Event) (r : Run) : Run :=
  mkRun (r_totalPhotos r) (r_scannedPhotos r) (r_matchedPhotos r) (r_uploadedPhotos r)
    (r_matchedPhotosData r) (r_matcher r) (r_trace r ++ [e]).

Definition emit_all (es : list Event) (r : Run) : Run :=
  mkRun (r_totalPhotos r) (r_scannedPhotos r) (r_matchedPhotos r) (r_uploadedPhotos r)
    (r_matchedPhotosData r) (r_matcher r) (r_trace r ++ es).

Definition set_totalPhotos (n : nat) (r : Run) : Run :=
  mkRun n (r_scannedPhotos r) (r_matchedPhotos r) (r_uploadedPhotos r)
    (r_matchedPhotosData r) (r_matcher r) (r_trace r).

Definition set_uploadedPhotos (n : nat) (r : Run) : Run :=
  mkRun (r_totalPhotos r) (r_scannedPhotos r) (r_matchedPhotos r) n
    (r_matchedPhotosData r) (r_matcher r) (r_trace r).

Definition set_matcher (st : MatcherState) (r : Run) : Run :=
  mkRun (r_totalPhotos r) (r_scannedPhotos r) (r_matchedPhotos r) (r_uploadedPhotos r)
    (r_matchedPhotosData r) st (r_trace r).

(** [scannedPhotos++] *)
Definition incr_scannedPhotos (r : Run) : Run :=
  mkRun (r_totalPhotos r) (S (r_scannedPhotos r)) (r_matchedPhotos r) (r_uploadedPhotos r)
    (r_matchedPhotosData r) (r_matcher r) (r_trace r).

(** [matchedPhotos++; matchedPhotosData.push(m)] *)
Definition push_match (m : MatchData) (r : Run) : Run :=
  mkRun (r_totalPhotos r) (r_scannedPhotos r) (S (r_matchedPhotos r)) (r_uploadedPhotos r)
    (r_matchedPhotosData r ++ [m]) (r_matcher r) (r_trace r).

(** The progress object built from the variables at a call site. *)
Definition progress_of (r : Run) (currentBatch totalBatches : Z) : Progress :=
  mkProgress (r_totalPhotos r) (r_scannedPhotos r) (r_matchedPhotos r)
    (r_uploadedPhotos r) currentBatch totalBatches.

(** [fetchAllPhotos]: the [do ... while (pageToken)] loop over the answers
    of the library, in the order they are received.  A request that gets
    no answer fails. *)
Fixpoint fetchAllPhotos (responses : list PageResponse) (photos : list Photo)
    (pageCount : nat) (progressCallback : nat → nat → Run → Run) (r : Run)
  : exc (list Photo) * Run :=
  match responses with
  | [] => (Throw "Network Error", r)
  | page_error message :: _ => (Throw message, r)
  | page_ok items nextPageToken :: rest =>
      let photos := photos ++ items in
      let pageCount := S pageCount in
      let r := progressCallback (length photos) pageCount (emit (ev_fetchPage pageCount) r) in
      if nextPageToken then fetchAllPhotos rest photos pageCount progressCallback r
      else (Ok photos, r)
  end.

(** [uploadPhotosInBatch(photos, progressCallback)].  The uploads run five
    at a time; [completed] counts the successes in the order they finish,
    and the results come back in the order of the input.  The uploads are
    taken here to finish in that order as well. *)
Fixpoint upload_each (uploadPhoto : PhotoToUpload → nat → exc Blob)
    (photos : list PhotoToUpload) (total completed : nat)
    (progressCallback : nat → nat → Run → Run) (r : Run)
  : list UploadResult * Run :=
  match photos with
  | [] => ([], r)
  | photo :: rest =>
      let '(res, evs) := uploadPhotoWithRetry (uploadPhoto photo) default_maxRetries in
      let r := emit_all (map (ev_upload photo) evs) r in
      match res with
      | Ok blob =>
          let completed := S completed in
          let r := progressCallback completed total r in
          let '(results, r) := upload_each uploadPhoto rest total completed progressCallback r in
          (mkUploadResult (u_id photo) true blob None :: results, r)
      | Throw error =>
          let '(results, r) := upload_each uploadPhoto rest total completed progressCallback r in
          (mkUploadResult (u_id photo) false None (Some error) :: results, r)
      end
  end.

Definition uploadPhotosInBatch (uploadPhoto : PhotoToUpload → nat → exc Blob)
    (photos : list PhotoToUpload) (progressCallback : nat → nat → Run → Run) (r : Run)
  : list UploadResult * Run :=
  upload_each uploadPhoto photos (length photos) 0 progressCallback
    (emit (ev_uploadPhotosInBatch (map u_id photos)) r).

(** The quotient of two counts, rounded up.  For a positive divisor it is
    the number that [ceil_quot] gives. *)
Definition ceil_div (a b : nat) : nat := (a + b - 1) / b.

(** [Math.ceil(a / b)] for a count [a] and an integer [b] other than 0. *)
Definition ceil_quot (a : nat) (b : Z) : Z := (- (- Z.of_nat a / b))%Z.

Record ScanResult : Type := mkScanResult {
  res_message : option string;
  res_totalPhotos : nat;
  res_scannedPhotos : option nat;
  res_matchedPhotos : nat;
  res_uploadedPhotos : option nat;
}.

(** How the promise of [processScan] settles, if it does. *)
Inductive Outcome : Type :=
| resolved (result : ScanResult)
| rejected (message : string)
| never_settles.

(** ** The effect of a run on the stores *)

(** [updateProgress(scanId, progress)]: overwrite the Redis hash and reset
    its TTL to 24 hours, then write the four counters to the Scan row. *)
Definition updateProgress (scan : string) (p : Progress) (w : World) : World :=
  let w := mkWorld (tbl_scans w) (tbl_matched_photos w)
             (<[scan := (p, 86400%N)]> (redis_progress w)) (queue_jobs w) in
  (updateScanProgress scan (Some (totalPhotos p)) (Some (scannedPhotos p))
     (Some (matchedPhotos p)) (Some (uploadedPhotos p)) w).2.

(** The effect of one event on the stores; the INSERT of an event is one
    that the database accepted. *)
Definition exec_event (w : World) (e : Event) : World :=
  match e with
  | ev_markScanStarted scan now => (markScanStarted scan now w).2
  | ev_updateProgress scan p => updateProgress scan p w
  | ev_createMatchedPhotos records => insert_rows records w
  | ev_markScanCompleted scan now => (markScanCompleted scan now w).2
  | ev_markScanFailed scan message now => (markScanFailed scan message now w).2
  | _ => w
  end.

Definition exec (w : World) (trace : list Event) : World := foldl exec_event w trace.

Section Orchestrator.
Variable env : Env.
Variable job : Job.

(** Decrypt the token, parse it, refresh it when it expires within five
    minutes. *)
Definition resolveAccessToken (r : Run) : exc string * Run :=
  match decrypt env (oauthToken job) with
  | Throw e => (Throw e, r)
  | Ok decryptedToken =>
      let tokenData :=
        match parse_json env decryptedToken with
        | Some parsed => parsed
        | None => mkTokenData decryptedToken None None
        end in
      match refresh_token tokenData, expiry_date tokenData with
      | Some refreshToken, Some expiryTime =>
          if (expiryTime - date_now env <? 5 * 60 * 1000)%Z then
            match refreshAccessToken env refreshToken with
            | Ok newAccessToken => (Ok newAccessToken, emit ev_refreshAccessToken r)
            | Throw _ =>
                (Throw "OAuth token expired and refresh failed",
                 emit ev_refreshAccessToken r)
            end
          else (Ok (access_token tokenData), r)
      | _, _ => (Ok (access_token tokenData), r)
      end
  end.

(** The entry pushed on [matchedPhotosData] for a matching photo. *)
Definition match_data (photo : Downloaded) (matchResult : MatchResult) : MatchData :=
  let meta := d_metadata photo in
  mkMatchData (d_id photo) (p_baseUrl meta) (confidence matchResult)
    (mkMatchMetadata (p_filename meta) (p_mimeType meta)
       (p_mediaMetadata meta ≫= creationTime)
       (p_mediaMetadata meta ≫= width)
       (p_mediaMetadata meta ≫= height)).

(** What the orchestrator does with the result of the matcher: count the
    photo, record a match, report every tenth photo. *)
Definition record_result (currentBatch totalBatches : Z) (photo : Downloaded)
    (matchResult : MatchResult) (r : Run) : Run :=
  let r := incr_scannedPhotos r in
  let r := if isMatch matchResult then push_match (match_data photo matchResult) r
           else r in
  if (r_scannedPhotos r mod 10 =? 0)%nat then
    let r := emit (ev_updateProgress (scanId job) (progress_of r currentBatch totalBatches)) r in
    emit (ev_jobProgress (r_scannedPhotos r) (r_totalPhotos r)) r
  else r.

(** The body of [for (const photo of downloadedPhotos)]: a [try] around
    the call of the matcher and the bookkeeping; the [catch] logs and
    goes on to the next photo. *)
Definition processPhoto (currentBatch totalBatches : Z) (photo : Downloaded)
    (r : Run) : Run :=
  let r := emit (ev_matchFace (d_id photo)) r in
  match matchFace (sizeOf env) (random env) (Some (d_buffer photo))
          (referenceEmbeddings job) (r_matcher r) with
  | (Ok matchResult, st) =>
      record_result currentBatch totalBatches photo matchResult (set_matcher st r)
  | (Throw _, st) => set_matcher st r
  end.

(** One iteration of the batch loop: download the thumbnails, evaluate
    each downloaded photo.  (The buffers are dropped afterwards.) *)
Definition processBatch (currentBatch totalBatches : Z) (batch : list Photo)
    (r : Run) : Run :=
  let downloadedPhotos := downloadPhotosInBatches (thumbnail env) batch in
  foldl (λ r photo, processPhoto currentBatch totalBatches photo r)
    (emit (ev_downloadPhotosInBatches batch) r) downloadedPhotos.

(** An index handed to [Array.prototype.slice] on an array of [len]
    elements: it counts from the end when negative, and is brought within
    the array. *)
Definition slice_index (len : nat) (k : Z) : nat :=
  if (k <? 0)%Z then Z.to_nat (Z.of_nat len + k) else Z.to_nat k `min` len.

(** [allPhotos.slice(i, j)] *)
Definition slice (i j : Z) (l : list Photo) : list Photo :=
  let start := slice_index (length l) i in
  let stop := slice_index (length l) j in
  take (stop - start) (drop start l).

(** [for (let i = 0; i < allPhotos.length; i += batchSize)], entered at
    [i] and followed for [fuel] iterations at most: whether the loop has
    ended, and the run reached.  [Math.floor(i / batchSize)] is the
    quotient of the integers, rounded down. *)
Fixpoint batchLoop (fuel : nat) (allPhotos : list Photo) (batchSize totalBatches i : Z)
    (r : Run) : bool * Run :=
  if (i <? Z.of_nat (length allPhotos))%Z then
    match fuel with
    | 0 => (false, r)
    | S fuel' =>
        let currentBatch := (i / batchSize + 1)%Z in
        let batch := slice i (i + batchSize) allPhotos in
        batchLoop fuel' allPhotos batchSize totalBatches (i + batchSize)
          (processBatch currentBatch totalBatches batch r)
    end
  else (true, r).

(** [matchedPhotosData.find((m) => m.googlePhotoId === id)] *)
Definition find_match (data : list MatchData) (id : string) : option MatchData :=
  List.find (λ m, String.eqb (googlePhotoId m) id) data.

Definition photo_to_upload (data : list MatchData) (photo : Downloaded) : PhotoToUpload :=
  let matchData := find_match data (d_id photo) in
  mkPhotoToUpload (d_id photo) (d_buffer photo)
    (match p_filename (d_metadata photo) with
     | Some name => name
     | None => String.append "photo-" (String.append (d_id photo) ".jpg")
     end)
    (mkUploadMetadata (scanId job) (sessionId job) (md_confidence <$> matchData)
       (p_mediaMetadata (d_metadata photo) ≫= creationTime)).

(** The record built from one successful upload result; reading a field
    of [matchData] throws when [find] returned [undefined]. *)
Definition photo_record (data : list MatchData) (result : UploadResult)
  : exc PhotoRecord :=
  match find_match data (originalId result) with
  | Some matchData =>
      Ok (mkPhotoRecord (scanId job) (originalId result) (googlePhotoUrl matchData)
            (blob_url <$> ur_blob result) (blob_key <$> ur_blob result)
            None (md_confidence matchData) (md_metadata matchData))
  | None => Throw "Cannot read properties of undefined (reading 'googlePhotoUrl')"
  end.

(** [array.map(f)] for an [f] that may throw. *)
Fixpoint map_exc {A B} (f : A → exc B) (l : list A) : exc (list B) :=
  match l with
  | [] => Ok []
  | a :: l' =>
      match f a with
      | Throw e => Throw e
      | Ok b => match map_exc f l' with
                | Throw e => Throw e
                | Ok bs => Ok (b :: bs)
                end
      end
  end.

(** The progress callback handed to [fetchAllPhotos]. *)
Definition onPageFetched (totalFetched currentPage : nat) (r : Run) : Run :=
  let r := set_totalPhotos totalFetched r in
  emit (ev_updateProgress (scanId job) (progress_of r 0 0)) r.

(** The progress callback handed to [uploadPhotosInBatch]. *)
Definition onUploadProgress (totalBatches : Z) (completed total : nat) (r : Run) : Run :=
  let r := set_uploadedPhotos completed r in
  emit (ev_updateProgress (scanId job) (progress_of r totalBatches totalBatches)) r.

(** Step 3 of [processScan]: originals, uploads, records.  The stores that
    the INSERT meets are those that the effects of the run so far have made
    of the stores [w] the run started from. *)
Definition uploadStage (w : World) (allPhotos : list Photo) (totalBatches : Z) (r : Run)
  : exc () * Run :=
  let data := r_matchedPhotosData r in
  if (0 <? length data)%nat then
    let matchedPhotoMetadata :=
      List.filter (λ photo, existsb (λ m, String.eqb (googlePhotoId m) (p_id photo)) data)
        allPhotos in
    let originalPhotos := downloadOriginalPhotos (original env) matchedPhotoMetadata in
    let r := emit (ev_downloadOriginalPhotos matchedPhotoMetadata) r in
    let photosToUpload := map (photo_to_upload data) originalPhotos in
    let '(uploadResults, r) :=
      uploadPhotosInBatch (uploadPhoto env) photosToUpload
        (onUploadProgress totalBatches) r in
    match map_exc (photo_record data) (List.filter success uploadResults) with
    | Throw e => (Throw e, r)
    | Ok photoRecords =>
        if (0 <? length photoRecords)%nat then
          match (createMatchedPhotos photoRecords (exec w (r_trace r))).1 with
          | Throw e => (Throw e, r)
          | Ok _ =>
              (Ok (), set_uploadedPhotos (length photoRecords)
                        (emit (ev_createMatchedPhotos photoRecords) r))
          end
        else (Ok (), set_uploadedPhotos (length photoRecords) r)
    end
  else (Ok (), r).

Definition initial_run : Run :=
  mkRun 0 0 0 0 [] (mkMatcherState false 0) [].

(** The [catch] of [processScan]: mark the scan failed, rethrow. *)
Definition fail_scan (message : string) (r : Run) : Outcome * Run :=
  (rejected message, emit (ev_markScanFailed (scanId job) message (clock_end env)) r).

(** [processScan(job)], started on the stores [w].  The batch loop is
    followed for as many iterations as there are photos: with a positive
    batch size it has ended by then, and with a negative one it never
    ends ([batchLoop_ends], [batchLoop_never_ends]). *)
Definition processScan (matcher : MatcherState) (w : World) : Outcome * Run :=
  let r := set_matcher matcher initial_run in
  let r := emit (ev_markScanStarted (scanId job) (clock_start env)) r in
  match resolveAccessToken r with
  | (Throw e, r) => fail_scan e r
  | (Ok accessToken, r) =>
      match fetchAllPhotos (library env accessToken) [] 0 onPageFetched r with
      | (Throw e, r) => fail_scan e r
      | (Ok allPhotos, r) =>
          if (length allPhotos =? 0)%nat then
            (resolved (mkScanResult (Some "No photos found in Google Photos") 0 None 0 None),
             emit (ev_markScanCompleted (scanId job) (clock_end env)) r)
          else
            let r := set_totalPhotos (length allPhotos) r in
            let batchSize := worker_batchSize (BATCH_SIZE env) in
            let totalBatches := ceil_quot (r_totalPhotos r) batchSize in
            let r := emit (ev_updateProgress (scanId job) (progress_of r 0 totalBatches)) r in
            match batchLoop (length allPhotos) allPhotos batchSize totalBatches 0 r with
            | (false, r) => (never_settles, r)
            | (true, r) =>
                match uploadStage w allPhotos totalBatches r with
                | (Throw e, r) => fail_scan e r
                | (Ok _, r) =>
                    let r := emit (ev_updateProgress (scanId job)
                                     (progress_of r totalBatches totalBatches)) r in
                    let r := emit (ev_markScanCompleted (scanId job) (clock_end env)) r in
                    (resolved (mkScanResult None (r_totalPhotos r)
                                 (Some (r_scannedPhotos r))
                                 (r_matchedPhotos r) (Some (r_uploadedPhotos r))), r)
                end
            end
      end
  end.
End Orchestrator.

(** A job run by the worker against the stores. *)
Definition runJob (env : Env) (job : Job) (matcher : MatcherState) (w : World)
  : Outcome * World :=
  let '(outcome, r) := processScan env job matcher w in
  (outcome, exec w (r_trace r)).

(** The progress updates of a trace, in order. *)
Definition progress_updates (trace : list Event) : list Progress :=
  omap (λ e, match e with ev_updateProgress _ p => Some p | _ => None end) trace.

(** ** Operations on a terminal scan *)

(** The writers of a Scan row once the scan has been queued: the two
    terminal marks of the orchestrator, the cancel endpoint and the progress
    write. *)
Inductive ScanOp : Type :=
| op_markScanCompleted (now : nat)
| op_markScanFailed (message : string) (now : nat)
| op_cancel (now : nat)
| op_updateProgress (p : Progress).

Definition apply_op (isUUID : string → bool) (scan : string) (op : ScanOp) (w : World)
  : World :=
  match op with
  | op_markScanCompleted now => (markScanCompleted scan now w).2
  | op_markScanFailed message now => (markScanFailed scan message now w).2
  | op_cancel now => (cancelRoute isUUID scan now w).2
  | op_updateProgress p => updateProgress scan p w
  end.

Definition status_of (scan : string) (w : World) : option ScanStatus :=
  status <$> tbl_scans w !! scan.

(** A buffer from which the matcher can detect nothing: [null], empty, or
    bytes that [image-size] rejects. *)
Definition unusable (sizeOf : Buffer → exc (nat * nat)) (imageBuffer : option Buffer)
  : bool :=
  match imageBuffer with
  | None => true
  | Some buf =>
      (length buf =? 0)%nat || match sizeOf buf with Ok _ => false | Throw _ => true end
  end.

(** Sample data used by the examples below.  The id of a scan is a UUID;
    the queue names the job of a scan by the id of the scan. *)
Definition scan_1 : string := "3f2b8c1e-5d4a-4e6f-8a9b-0c1d2e3f4a5b".
Definition session_1 : string := "9a1d4c7e-2b3f-4a5c-8d6e-7f8091a2b3c4".

Definition sample_scan (s : ScanStatus) : Scan :=
  mkScan s (Some scan_1)
    (match s with pending => None | _ => Some 1 end)
    (if terminal s then Some 5 else None)
    40 40 3 3 None.

Definition sample_world (s : ScanStatus) : World :=
  mkWorld {[ scan_1 := sample_scan s ]} [] ∅ {[ scan_1 ]}.

(** A scan whose job id has not been written to its row yet. *)
Definition unqueued_world (s : ScanStatus) : World :=
  mkWorld {[ scan_1 := mkScan s None (Some 1) None 40 20 3 0 None ]} [] ∅ {[ scan_1 ]}.

(** The photos that an enumeration of the given answers returns. *)
Fixpoint enumerate (responses : list PageResponse) (photos : list Photo)
  : exc (list Photo) :=
  match responses with
  | [] => Throw "Network Error"
  | page_error message :: _ => Throw message
  | page_ok items nextPageToken :: rest =>
      if nextPageToken then enumerate rest (photos ++ items) else Ok (photos ++ items)
  end.

(** The events of the batch stage and of the upload stage. *)
Definition stage_event (e : Event) : bool :=
  match e with
  | ev_downloadPhotosInBatches _ | ev_matchFace _ | ev_jobProgress _ _
  | ev_downloadOriginalPhotos _ | ev_uploadPhotosInBatch _ | ev_upload _ _
  | ev_createMatchedPhotos _ => true
  | _ => false
  end.

(** The rows that a trace inserts into [matched_photos]. *)
Definition created_records (trace : list Event) : list PhotoRecord :=
  concat (omap (λ e, match e with ev_createMatchedPhotos rs => Some rs | _ => None end) trace).

(** Counter-wise order on progress objects. *)
Definition ple (p q : Progress) : Prop :=
  totalPhotos p ≤ totalPhotos q ∧ scannedPhotos p ≤ scannedPhotos q ∧
  matchedPhotos p ≤ matchedPhotos q ∧ uploadedPhotos p ≤ uploadedPhotos q.

(** Each update is counter-wise above the one before it. *)
Fixpoint nondecreasing (l : list Progress) : Prop :=
  match l with
  | [] => True
  | p :: l' => match l' with [] => True | q :: _ => ple p q end ∧ nondecreasing l'
  end.

(** The counters of a run, as a progress object. *)
Definition current (r : Run) : Progress := progress_of r 0 0.

(** The invariant of a run: the scanned count is within the total, every
    update pushed so far is bounded by the counters and keeps its scanned
    count within its total, and the updates are non-decreasing. *)
Definition good (r : Run) : Prop :=
  r_scannedPhotos r ≤ r_totalPhotos r ∧
  Forall (λ p, ple p (current r) ∧ scannedPhotos p ≤ totalPhotos p)
    (progress_updates (r_trace r)) ∧
  nondecreasing (progress_updates (r_trace r)).

(** The updates that [record_result] pushes when the scanned count
    reaches [scanned]. *)
Definition tenth (scanned : nat) : bool := (scanned mod 10 =? 0)%nat.

(** The comparison that the claim about the match threshold speaks of. *)
Definition above_threshold (cfg : FaceDetectionConfig) (mr : MatchResult) : bool :=
  Qgtb (confidence mr) (matchThreshold cfg).

(** The evaluation of a list of downloaded photos, as in [processBatch]. *)
Definition process_photos (env : Env) (job : Job) (cb tb : Z) (ds : list Downloaded)
    (r : Run) : Run :=
  foldl (λ r photo, processPhoto env job cb tb photo r) r ds.

(** The update, if any, pushed when the [k]-th downloaded photo of a batch
    has been evaluated: the progress object is built from the variables as
    they are after [k] photos. *)
Definition update_after (env : Env) (job : Job) (cb tb : Z) (ds : list Downloaded)
    (r : Run) (k : nat) : option Progress :=
  let rk := process_photos env job cb tb (take k ds) r in
  if tenth (r_scannedPhotos rk) then Some (progress_of rk cb tb) else None.

(** What the batch stage guarantees of the updates it pushes between the
    run [r] and the run [r']. *)
Definition batch_update (r r' : Run) (cb tb : Z) (p : Progress) : Prop :=
  currentBatch p = cb ∧ totalBatches p = tb ∧
  totalPhotos p = r_totalPhotos r ∧ uploadedPhotos p = r_uploadedPhotos r ∧
  r_matchedPhotos r ≤ matchedPhotos p ≤ r_matchedPhotos r' ∧
  r_scannedPhotos r < scannedPhotos p ≤ r_scannedPhotos r'.

(** Two runs with the same counters and the same match list. *)
Definition same_vars (r r' : Run) : Prop :=
  r_totalPhotos r' = r_totalPhotos r ∧ r_scannedPhotos r' = r_scannedPhotos r ∧
  r_matchedPhotos r' = r_matchedPhotos r ∧ r_uploadedPhotos r' = r_uploadedPhotos r ∧
  r_matchedPhotosData r' = r_matchedPhotosData r.

(** The events of credential resolution and of enumeration for a scan. *)
Definition early_event (scan : string) (e : Event) : Prop :=
  match e with
  | ev_refreshAccessToken | ev_fetchPage _ => True
  | ev_updateProgress s p => s = scan
  | _ => False
  end.

(** The calls of [uploadPhoto] in a trace that returned: the photo handed
    over and the blob that came back, in the order of the calls. *)
Definition successful_uploads (env : Env) (trace : list Event)
  : list (PhotoToUpload * Blob) :=
  omap (λ e, match e with
             | ev_upload photo (upload_attempt attempt) =>
                 match uploadPhoto env photo attempt with
                 | Ok blob => Some (photo, blob)
                 | Throw _ => None
                 end
             | _ => None
             end) trace.

(** A row of [matched_photos] written for the scan of the job from an
    upload that returned: it names the photo that was uploaded and points
    to the blob that came back. *)
Definition row_of_upload (job : Job) (rec : PhotoRecord) (up : PhotoToUpload * Blob)
  : Prop :=
  pr_scanId rec = scanId job ∧
  pr_googlePhotoId rec = u_id up.1 ∧
  pr_s3Url rec = Some (blob_url up.2) ∧ pr_s3Key rec = Some (blob_key up.2).

(** A result of [uploadPhotosInBatch] that reports success, and the upload
    it stands for. *)
Definition result_of_upload (result : UploadResult) (up : PhotoToUpload * Blob) : Prop :=
  originalId result = u_id up.1 ∧ ur_blob result = Some up.2.

(** The end of the trace of a run that completes with [result]: the final
    progress update, then the completion mark; the update carries the total
    and matched counts of the result and, as uploaded count, the number of
    rows inserted before it; those rows are, one for one and in order, the
    rows of the uploads of the run that returned. *)
Definition completion_shape (env : Env) (job : Job) (result : ScanResult)
    (trace : list Event) : Prop :=
  ∃ tr p,
    trace = tr ++ [ev_updateProgress (scanId job) p;
                   ev_markScanCompleted (scanId job) (clock_end env)] ∧
    totalPhotos p = res_totalPhotos result ∧
    matchedPhotos p = res_matchedPhotos result ∧
    uploadedPhotos p = length (created_records tr) ∧
    Forall2 (row_of_upload job) (created_records tr) (successful_uploads env tr).

(** The run as [processScan] leaves it after marking the scan started. *)
Definition started (env : Env) (job : Job) (st : MatcherState) : Run :=
  emit (ev_markScanStarted (scanId job) (clock_start env)) (set_matcher st initial_run).

(** The access token that a run resolves, or the error it fails with. *)
Definition credential (env : Env) (job : Job) (st : MatcherState) : exc string :=
  (resolveAccessToken env job (started env job st)).1.

(** The trace of [r'] continues the trace of [r]. *)
Definition extends (r r' : Run) : Prop := ∃ evs, r_trace r' = r_trace r ++ evs.


Definition zero_result : ScanResult :=
  mkScanResult (Some "No photos found in Google Photos") 0 None 0 None.

Definition sample_photo (id : string) : Photo :=
  mkPhoto id (String.append "https://lh3.googleusercontent.com/" id)
    (Some (String.append id ".jpg")) (Some "image/jpeg")
    (Some (mkMediaMetadata (Some "2024-05-01T10:00:00Z") (Some "4032") (Some "3024"))).

Definition sample_photos : list Photo :=
  [sample_photo "a"; sample_photo "b"; sample_photo "c"].

Definition sample_downloaded : Downloaded :=
  mkDownloaded "a" [255; 216; 255] (sample_photo "a").

(** A library of three photos on one page, a blob store that accepts every
    upload, a random generator stuck at one half, and batches of two. *)
Definition sample_env : Env :=
  mkEnv (λ s, Ok s) (λ _, None) 0 (λ _, Throw "invalid_grant")
    (λ _, [page_ok sample_photos false])
    (λ _, Ok [255; 216; 255]) (λ _, Ok [255; 216; 255; 224])
    (λ _, Ok (640, 480)) (λ _, (1 # 2)%Q)
    (λ photo _, Ok (mkBlob (String.append "https://bucket.s3/" (u_filename photo))
                      (String.append "photos/" (u_filename photo))))
    (Some 2%Z) 1 2.

(** The same collaborators over an empty library. *)
Definition empty_library_env : Env :=
  mkEnv (decrypt sample_env) (parse_json sample_env) (date_now sample_env)
    (refreshAccessToken sample_env) (λ _, [page_ok [] false])
    (thumbnail sample_env) (original sample_env) (sizeOf sample_env) (random sample_env)
    (uploadPhoto sample_env) (BATCH_SIZE sample_env) 1 2.

Definition sample_job : Job :=
  mkJob scan_1 scan_1 session_1 "ya29.token" [[(1 # 10)%Q; (2 # 10)%Q]].

Definition fresh_matcher : MatcherState := mkMatcherState false 0.

(** * More of the backend *)

(** ** Retry with backoff (services/s3Upload.js, services/googlePhotos.js) *)

(** The events of [count] failed attempts in a row, the first one numbered
    [first]: each attempt is followed by its wait. *)
Fixpoint failed_attempts (first count : nat) : list UploadEvent :=
  match count with
  | 0 => []
  | S count' =>
      upload_attempt first :: upload_wait (2 ^ (first - 1) * 1000)
        :: failed_attempts (S first) count'
  end.

(** The time spent waiting in a list of events, in milliseconds. *)
Fixpoint total_wait (evs : list UploadEvent) : nat :=
  match evs with
  | [] => 0
  | upload_wait ms :: evs' => ms + total_wait evs'
  | upload_attempt _ :: evs' => total_wait evs'
  end.

(** The attempts of a list of events. *)
Definition attempts (evs : list UploadEvent) : list nat :=
  omap (λ e, match e with upload_attempt n => Some n | upload_wait _ => None end) evs.

Definition is_ok {A} (c : exc A) : bool :=
  match c with Ok _ => true | Throw _ => false end.

(** The [for (let i = 0; i < maxRetries; i++)] loop of [withRetry], entered
    at [i] with [remaining] iterations left ([remaining = maxRetries - i]);
    [fn i] is the outcome of the call made in iteration [i].  The events
    number the calls from 1, as the log lines of the function do. *)
Fixpoint withRetry_loop {A} (fn : nat → exc A) (maxRetries remaining i : nat)
  : exc (option A) * list UploadEvent :=
  match remaining with
  | 0 => (Ok None, [])
  | S remaining' =>
      match fn i with
      | Ok a => (Ok (Some a), [upload_attempt (i + 1)])
      | Throw error =>
          if (i =? maxRetries - 1)%nat then (Throw error, [upload_attempt (i + 1)])
          else
            let delay := 2 ^ i * 1000 in
            let '(res, evs) := withRetry_loop fn maxRetries remaining' (S i) in
            (res, upload_attempt (i + 1) :: upload_wait delay :: evs)
      end
  end.

(** [withRetry(fn, maxRetries)] *)
Definition withRetry {A} (fn : nat → exc A) (maxRetries : nat)
  : exc (option A) * list UploadEvent :=
  withRetry_loop fn maxRetries maxRetries 0.

(** ** Reading progress (routes/scan.routes.js) *)

(** [redis.hgetall(progressKey)]: the snapshot written by [updateProgress],
    or [null] when the key is absent or has expired. *)
Definition hgetall (scan : string) (w : World) : option Progress :=
  fst <$> redis_progress w !! scan.

(** [parseInt(progress?.field || scan.column || 0)]: the snapshot's value
    unless it is missing or zero, else the column of the Scan row. *)
Definition read_counter (field : option nat) (column : nat) : nat :=
  match field with
  | Some (S n) => S n
  | _ => column
  end.

(** The status message; the numbers are those interpolated in the text.
    (The branch for a status ['waiting'] is not modelled: no writer of the
    status column produces that value.) *)
Inductive StatusMessage : Type :=
| msg_initializing
| msg_processing (scanned total : nat)
| msg_complete (matched : nat)
| msg_failed (text : string).

Record StatusBody : Type := mkStatusBody {
  sb_status : ScanStatus;
  sb_progress : nat;
  sb_message : StatusMessage;
  sb_totalPhotos : nat;
  sb_scannedPhotos : nat;
  sb_matchedPhotos : nat;
  sb_error : option string;
}.

Inductive StatusResponse : Type :=
| status_400_validation_error
| status_404_scan_not_found
| status_200 (body : StatusBody).

(** [scan.error_message || 'Scan failed'] *)
Definition failure_text (error_message : option string) : string :=
  match error_message with
  | Some (String c m) => String c m
  | _ => "Scan failed"
  end.

Section StatusRoute.
Variable isUUID : string → bool.
(** [Math.floor((scannedPhotos / totalPhotos) * 100)] in double arithmetic,
    for a positive total. *)
Variable percent : nat → nat → nat.

(** The handler of [GET /api/scans/:scanId/status]. *)
Definition getStatus (scanId : string) (w : World) : StatusResponse :=
  match getScanById scanId w with
  | None => status_404_scan_not_found
  | Some scan =>
      let progress := hgetall scanId w in
      let total := read_counter (totalPhotos <$> progress) (total_photos scan) in
      let scanned := read_counter (scannedPhotos <$> progress) (scanned_photos scan) in
      let matched := read_counter (matchedPhotos <$> progress) (matched_photos scan) in
      let progressPercent := if (0 <? total)%nat then percent scanned total else 0 in
      let message :=
        match status scan with
        | processing => msg_processing scanned total
        | completed => msg_complete matched
        | failed => msg_failed (failure_text (error_message scan))
        | pending | cancelled => msg_initializing
        end in
      status_200 (mkStatusBody (status scan) progressPercent message total scanned matched
                    (error_message scan))
  end.

(** [router.get('/:scanId/status', validateScanId, asyncHandler(...))] *)
Definition statusRoute (scanId : string) (w : World) : StatusResponse :=
  match validateScanId isUUID scanId with
  | None => status_400_validation_error
  | Some scanId => getStatus scanId w
  end.
End StatusRoute.

(** ** Deleting a scan (routes/scan.routes.js, the two models) *)

(** [deleteMatchedPhotosByScanId]: the rows of the scan are deleted and
    counted. *)
Definition deleteMatchedPhotosByScanId (scan : string) (w : World) : nat * World :=
  let mine := List.filter (λ rec, String.eqb (pr_scanId rec) scan) (tbl_matched_photos w) in
  let others :=
    List.filter (λ rec, negb (String.eqb (pr_scanId rec) scan)) (tbl_matched_photos w) in
  (length mine, mkWorld (tbl_scans w) others (redis_progress w) (queue_jobs w)).

(** [deleteScan]: [DELETE FROM scans WHERE id = $1]. *)
Definition deleteScan (scan : string) (w : World) : World :=
  with_scans w (delete scan (tbl_scans w)).

Inductive DeleteResponse : Type :=
| delete_400_validation_error
| delete_404_scan_not_found
| delete_200 (scanId : string).

(** [router.delete('/:scanId', validateScanId, asyncHandler(...))] *)
Definition deleteRoute (isUUID : string → bool) (scanId : string) (w : World)
  : DeleteResponse * World :=
  match validateScanId isUUID scanId with
  | None => (delete_400_validation_error, w)
  | Some scanId =>
      match getScanById scanId w with
      | None => (delete_404_scan_not_found, w)
      | Some _ =>
          let w := (deleteMatchedPhotosByScanId scanId w).2 in
          (delete_200 scanId, deleteScan scanId w)
      end
  end.

(** The rows of a scan, in table order. *)
Definition photos_of (scan : string) (w : World) : list PhotoRecord :=
  List.filter (λ rec, String.eqb (pr_scanId rec) scan) (tbl_matched_photos w).

(** ** Pages of results (models/matchedPhoto.model.js) *)

Record Page : Type := mkPage {
  pg_photos : list PhotoRecord;
  pg_total : nat;
  pg_limit : nat;
  pg_offset : nat;
  pg_hasMore : bool;
}.

Section Pagination.
(** [ORDER BY confidence_score DESC, detected_at ASC]: the order in which
    the database returns the rows of one scan. *)
Variable order_by : list PhotoRecord → list PhotoRecord.

(** [getMatchedPhotosPaginated(scanId, limit, offset)]: the page query and
    the count query see the same table. *)
Definition getMatchedPhotosPaginated (scan : string) (limit offset : nat) (w : World)
  : Page :=
  let rows := order_by (photos_of scan w) in
  let total := length (photos_of scan w) in
  mkPage (take limit (drop offset rows)) total limit offset (offset + limit <? total)%nat.
End Pagination.


(** ** Sessions (models/session.model.js) *)

Inductive SessionStatus : Type := sess_active | sess_expired.

Global Instance SessionStatus_eq_dec : EqDecision SessionStatus.
Proof. solve_decision. Defined.

(** One row of [sessions]; times are in milliseconds. *)
Record Session : Type := mkSession {
  creator_name : string;
  creator_email : string;
  embeddings : list (list Q);
  reference_photos : list string;
  sess_status : SessionStatus;
  expires_at : N;
  updated_at : N;
}.

(** [config.session.expiryDays] days, in milliseconds. *)
Definition session_lifetime : N := 30 * 24 * 3600 * 1000.

(** [createSession]: the row inserted under the id that the database
    generates; [status] takes its default ['active']. *)
Definition createSession (id : string) (name email : string) (embs : list (list Q))
    (photos : list string) (now : N) (sessions : gmap string Session)
  : Session * gmap string Session :=
  let row := mkSession name email embs photos sess_active (now + session_lifetime) now in
  (row, <[id := row]> sessions).

(** The keys of the [updates] object of [updateSession]. *)
Inductive SessionUpdate : Type :=
| set_sess_status (s : SessionStatus)
| set_creator_name (name : string).

Definition apply_session_update (row : Session) (u : SessionUpdate) : Session :=
  match u with
  | set_sess_status s =>
      mkSession (creator_name row) (creator_email row) (embeddings row)
        (reference_photos row) s (expires_at row) (updated_at row)
  | set_creator_name name =>
      mkSession name (creator_email row) (embeddings row)
        (reference_photos row) (sess_status row) (expires_at row) (updated_at row)
  end.

(** [updateSession(sessionId, updates)]: the given fields, then
    [updated_at = NOW()]. *)
Definition updateSession (id : string) (updates : list SessionUpdate) (now : N)
    (sessions : gmap string Session) : option Session * gmap string Session :=
  match sessions !! id with
  | Some row =>
      let row := foldl apply_session_update row updates in
      let row := mkSession (creator_name row) (creator_email row) (embeddings row)
                   (reference_photos row) (sess_status row) (expires_at row) now in
      (Some row, <[id := row]> sessions)
  | None => (None, sessions)
  end.

(** [getSessionById]: the row when it is active and has not expired; an
    active row that has expired is marked expired and [null] is returned.
    The clock of the server and the clock of the database are taken to
    show the same time [now]. *)
Definition getSessionById (id : string) (now : N) (sessions : gmap string Session)
  : option Session * gmap string Session :=
  match sessions !! id with
  | Some session =>
      if decide (sess_status session = sess_active) then
        if (expires_at session <? now)%N then
          (None, (updateSession id [set_sess_status sess_expired] now sessions).2)
        else (Some session, sessions)
      else (None, sessions)
  | None => (None, sessions)
  end.

(** The rows that [cleanupExpiredSessions] updates. *)
Definition stale (now : N) (session : Session) : bool :=
  (expires_at session <? now)%N && bool_decide (sess_status session = sess_active).

(** [cleanupExpiredSessions]:
    [UPDATE sessions SET status = 'expired'
     WHERE expires_at < NOW() AND status = 'active' RETURNING id];
    the trigger of the table stamps [updated_at] on each row it updates. *)
Definition cleanupExpiredSessions (now : N) (sessions : gmap string Session)
  : nat * gmap string Session :=
  (size (filter (λ kv, stale now kv.2 = true) sessions),
   (λ row, if stale now row
           then mkSession (creator_name row) (creator_email row) (embeddings row)
                  (reference_photos row) sess_expired (expires_at row) now
           else row) <$> sessions).

(** ** Reference embeddings (services/faceDetection.js) *)

Section ReferenceEmbeddings.
Variable sizeOf : Buffer → exc (nat * nat).
Variable random : nat → Q.

(** [extractFaceEmbedding(face)] *)
Definition extractFaceEmbedding (face : Face) : list Q := descriptor face.

(** The loop of [extractReferenceEmbeddings] over the remaining buffers:
    each iteration is a [try] whose [catch] logs and goes on. *)
Fixpoint extract_loop (imageBuffers : list (option Buffer)) (embeddings : list (list Q))
  : MS (list (list Q)) :=
  match imageBuffers with
  | [] => ms_ret embeddings
  | buffer :: rest =>
      let! embeddings :=
        ms_try
          (let! faces := detectFaces sizeOf random buffer in
           match faces with
           | [] => ms_ret embeddings
           | bestFace :: _ => ms_ret (embeddings ++ [extractFaceEmbedding bestFace])
           end)
          (λ error, ms_ret embeddings) in
      extract_loop rest embeddings
  end.

(** [extractReferenceEmbeddings(imageBuffers)] *)
Definition extractReferenceEmbeddings (imageBuffers : list (option Buffer))
  : MS (list (list Q)) :=
  let! embeddings := extract_loop imageBuffers [] in
  if (length embeddings =? 0)%nat
  then ms_throw "No valid faces found in reference photos"
  else ms_ret embeddings.

(** [cleanup()] *)
Definition cleanup : MS () :=
  λ st, (Ok (), mkMatcherState false (rng st)).
End ReferenceEmbeddings.

(** ** More invariants of a run *)

(** An update whose matched count is within its scanned count and whose
    current batch is within the number of batches. *)
Definition tidy (p : Progress) : Prop :=
  matchedPhotos p ≤ scannedPhotos p ∧ (currentBatch p ≤ totalBatches p)%Z.

Definition tidy_run (r : Run) : Prop :=
  r_matchedPhotos r = length (r_matchedPhotosData r) ∧
  r_matchedPhotos r ≤ r_scannedPhotos r ∧
  Forall tidy (progress_updates (r_trace r)).

(** The last event of a trace. *)
Definition last_event (trace : list Event) : option Event := last trace.

(** The photos of a library whose thumbnail can be downloaded. *)
Definition downloadable (env : Env) (photos : list Photo) : list Photo :=
  List.filter (λ photo, is_ok (thumbnail env photo)) photos.

(** A session row and a table used by the examples. *)
Definition sample_sessions : gmap string Session :=
  (createSession session_1 "Ada" "ada@example.org" [[(1 # 10)%Q]] [] 1000 ∅).2.

(** A library that lists the same photo twice, and a random generator
    under which only the first evaluation of a run is a match. *)
Definition twice_listed_env : Env :=
  mkEnv (λ s, Ok s) (λ _, None) 0 (λ _, Throw "invalid_grant")
    (λ _, [page_ok [mkPhoto "a" "https://lh3.googleusercontent.com/a" None None None;
                    mkPhoto "a" "https://lh3.googleusercontent.com/a" None None None] false])
    (λ _, Ok [255; 216; 255]) (λ _, Ok [255; 216; 255; 224])
    (λ _, Ok (640, 480)) (λ n, if (n <? 130)%nat then (1 # 2)%Q else (1 # 10)%Q)
    (λ photo _, Ok (mkBlob "https://bucket.s3/a" "photos/a"))
    None 1 2.


(** ** Shapes of an enumeration *)

(** The totals reported page after page, starting from [start] photos. *)
Fixpoint running_totals (start : nat) (pages : list (list Photo)) : list nat :=
  match pages with
  | [] => []
  | items :: pages' => (start + length items) :: running_totals (start + length items) pages'
  end.

(** The page requests of a trace. *)
Definition page_requests (trace : list Event) : list nat :=
  omap (λ e, match e with ev_fetchPage n => Some n | _ => None end) trace.

(** The answers of a library that serves the given pages, each but the
    last with a token for the next one. *)
Definition serve (pages : list (list Photo)) (last : list Photo) : list PageResponse :=
  map (λ items, page_ok items true) pages ++ [page_ok last false].


(** ** Stages that leave the scan counters alone *)

(** From [r] to [r'] the scanned count, the matched count and the match
    list are unchanged, and every update pushed in between carries these
    two counts and a current batch within its number of batches. *)
Definition keeps (r r' : Run) : Prop :=
  r_scannedPhotos r' = r_scannedPhotos r ∧
  r_matchedPhotos r' = r_matchedPhotos r ∧
  r_matchedPhotosData r' = r_matchedPhotosData r ∧
  ∃ evs,
    r_trace r' = r_trace r ++ evs ∧
    Forall (λ p, scannedPhotos p = r_scannedPhotos r ∧
                 matchedPhotos p = r_matchedPhotos r ∧
                 (currentBatch p ≤ totalBatches p)%Z)
      (progress_updates evs).

(** The photos of the library that the upload stage asks the originals of. *)
Definition matched_metadata (data : list MatchData) (allPhotos : list Photo) : list Photo :=
  List.filter (λ photo, existsb (λ m, String.eqb (googlePhotoId m) (p_id photo)) data)
    allPhotos.

(** The photos that a run enumerates, or the error that stops it before
    the batch stage. *)
Definition enumerated (env : Env) (job : Job) (st : MatcherState) : exc (list Photo) :=
  match credential env job st with
  | Throw e => Throw e
  | Ok accessToken => enumerate (library env accessToken) []
  end.

(** The mark that ends the trace of a run that has settled. *)
Definition terminal_mark (env : Env) (job : Job) (o : Outcome) : option Event :=
  match o with
  | resolved _ => Some (ev_markScanCompleted (scanId job) (clock_end env))
  | rejected message => Some (ev_markScanFailed (scanId job) message (clock_end env))
  | never_settles => None
  end.


(** The sample collaborators with a token that cannot be decrypted. *)
Definition undecryptable_env : Env :=
  mkEnv (λ _, Throw "Invalid encrypted text format") (parse_json sample_env) (date_now sample_env)
    (refreshAccessToken sample_env) (library sample_env)
    (thumbnail sample_env) (original sample_env) (sizeOf sample_env) (random sample_env)
    (uploadPhoto sample_env) (BATCH_SIZE sample_env) 1 2.


(** ** Batches of a trace *)

(** The batches handed to [downloadPhotosInBatches], in order. *)
Definition batches_of (trace : list Event) : list (list Photo) :=
  omap (λ e, match e with ev_downloadPhotosInBatches batch => Some batch | _ => None end)
    trace.


(** An event other than a download of a batch of thumbnails. *)
Definition batch_free (e : Event) : Prop :=
  match e with ev_downloadPhotosInBatches _ => False | _ => True end.


(** ** The session router (routes/session.routes.js) *)

Inductive Method : Type := GET | POST | DELETE.

Global Instance Method_eq_dec : EqDecision Method.
Proof. solve_decision. Defined.

(** A segment of a route path: a fixed word, or a named parameter. *)
Inductive Segment : Type :=
| literal (word : string)
| parameter (name : string).

(** A route path matches a request path of as many segments, each fixed
    word being that segment; a parameter stands for any segment.  (Words
    are compared exactly.) *)
Fixpoint matches (pattern : list Segment) (path : list string) : bool :=
  match pattern, path with
  | [], [] => true
  | literal word :: pattern', segment :: path' =>
      String.eqb word segment && matches pattern' path'
  | parameter _ :: pattern', _ :: path' => matches pattern' path'
  | _, _ => false
  end.

Inductive SessionHandler : Type :=
| handle_create
| handle_get_session
| handle_get_stats
| handle_by_email
| handle_delete_session.

(** The routes of the router, in the order in which the file registers
    them. *)
Definition session_routes : list (Method * list Segment * SessionHandler) :=
  [ (POST, [literal "create"], handle_create);
    (GET, [parameter "sessionId"], handle_get_session);
    (GET, [parameter "sessionId"; literal "stats"], handle_get_stats);
    (GET, [literal "by-email"], handle_by_email);
    (DELETE, [parameter "sessionId"], handle_delete_session) ].

(** The route that takes a request: the first one registered for the
    method whose path matches.  None of the handlers passes a request on:
    each answers it or hands an error to the error handler. *)
Definition dispatch (routes : list (Method * list Segment * SessionHandler))
    (method : Method) (path : list string) : option SessionHandler :=
  snd <$> List.find (λ route, bool_decide (route.1.1 = method) && matches route.1.2 path)
            routes.

Inductive SessionResponse : Type :=
| session_400_validation_error
| session_404_not_found
| session_200 (row : Session) (embeddingsCount : nat).

(** [validateSessionId]: [param('sessionId').trim().notEmpty().isUUID()],
    then [validate]. *)
Definition validateSessionId (isUUID : string → bool) (sessionId : string)
  : option string :=
  let sessionId := trim sessionId in
  if negb (String.eqb sessionId "") && isUUID sessionId then Some sessionId else None.

(** [router.get('/:sessionId', validateSessionId, asyncHandler(...))] *)
Definition getSessionRoute (isUUID : string → bool) (sessionId : string) (now : N)
    (sessions : gmap string Session) : SessionResponse * gmap string Session :=
  match validateSessionId isUUID sessionId with
  | None => (session_400_validation_error, sessions)
  | Some sessionId =>
      match getSessionById sessionId now sessions with
      | (None, sessions) => (session_404_not_found, sessions)
      | (Some session, sessions) =>
          (session_200 session (length (embeddings session)), sessions)
      end
  end.

(** ** Uploaded files and errors (middleware/upload.js, errorHandler.js) *)

(** A file as the upload middleware hands it over. *)
Record UploadedFile : Type := mkUploadedFile {
  originalname : string;
  path : string;
  content : Buffer;
}.

(** The local disk: the paths of the files on it, and the files that each
    call of [cleanupUploadedFiles] with an array has unlinked, call after
    call. *)
Record Disk : Type := mkDisk {
  on_disk : gset string;
  unlinked : list (list string);
}.

(** One turn of the [forEach] of [cleanupUploadedFiles]:
    [if (fs.existsSync(file.path)) fs.unlinkSync(file.path)]. *)
Definition unlink_file (acc : gset string * list string) (file : UploadedFile)
  : gset string * list string :=
  if decide (path file ∈ acc.1) then (acc.1 ∖ {[path file]}, acc.2 ++ [path file])
  else acc.

(** [cleanupUploadedFiles(files)]; [None] is [undefined]. *)
Definition cleanupUploadedFiles (files : option (list UploadedFile)) (d : Disk) : Disk :=
  match files with
  | None => d
  | Some files =>
      let '(disk, gone) := foldl unlink_file (on_disk d, []) files in
      mkDisk disk (unlinked d ++ [gone])
  end.

(** The fields of a thrown object that [errorHandler] reads. *)
Record ErrorObject : Type := mkErrorObject {
  err_name : string;
  err_message : string;
  err_code : option string;
  err_statusCode : option nat;
  err_status : option nat;
}.

(** [new Error(message)] *)
Definition plain_error (message : string) : ErrorObject :=
  mkErrorObject "Error" message None None None.

(** [a || b] for a status that may be missing: [undefined] and [0] are
    falsy. *)
Definition or_else (a : option nat) (b : nat) : nat :=
  match a with
  | Some (S n) => S n
  | _ => b
  end.

(** The status with which [errorHandler] answers. *)
Definition errorHandler (err : ErrorObject) : nat :=
  if String.eqb (err_name err) "ValidationError" then 400
  else if String.eqb (err_name err) "UnauthorizedError" then 401
  else if bool_decide (err_code err = Some "23505") then 409
  else if bool_decide (err_code err = Some "23503") then 400
  else or_else (err_statusCode err) (or_else (err_status err) 500).

(** The [res.send] that [cleanupOnError] installs: an answer with a status
    of 400 or more cleans up [req.file], which an array upload leaves
    [undefined], and [req.files]. *)
Definition send (status : nat) (files : list UploadedFile) (d : Disk) : Disk :=
  if (400 <=? status)%nat
  then cleanupUploadedFiles (Some files) (cleanupUploadedFiles None d)
  else d.

(** A call that returns or throws an object. *)
Inductive tried (A : Type) : Type :=
| Returned (a : A)
| Failed (err : ErrorObject).
Arguments Returned {A} a.
Arguments Failed {A} err.

Fixpoint map_tried {A B} (f : A → tried B) (l : list A) : tried (list B) :=
  match l with
  | [] => Returned []
  | a :: l' =>
      match f a with
      | Failed err => Failed err
      | Returned b => match map_tried f l' with
                      | Failed err => Failed err
                      | Returned bs => Returned (b :: bs)
                      end
      end
  end.

(** The error of [fs.readFileSync] for a path that is not on the disk. *)
Definition no_such_file (path : string) : ErrorObject :=
  mkErrorObject "Error"
    (String.append "ENOENT: no such file or directory, open '" (String.append path "'"))
    (Some "ENOENT") None None.

(** [fs.readFileSync(file.path)] *)
Definition readFileSync (d : Disk) (file : UploadedFile) : tried Buffer :=
  if decide (path file ∈ on_disk d) then Returned (content file)
  else Failed (no_such_file (path file)).

(** ** Creating a session (routes/session.routes.js) *)

Inductive CreateAnswer : Type :=
| create_400_no_faces_detected
| create_201 (sessionId : string) (referencePhotos : list string) (embeddingsCount : nat)
| create_error (status : nat) (err : ErrorObject).

Definition answer_status (a : CreateAnswer) : nat :=
  match a with
  | create_400_no_faces_detected => 400
  | create_201 _ _ _ => 201
  | create_error status _ => status
  end.

Record CreateResult : Type := mkCreateResult {
  cr_answer : CreateAnswer;
  cr_disk : Disk;
  cr_matcher : MatcherState;
  cr_sessions : gmap string Session;
}.

Section CreateRoute.
Variable sizeOf : Buffer → exc (nat * nat).
Variable random : nat → Q.
(** [s3Upload.uploadPhoto(buffer, filename, metadata)] *)
Variable uploadPhoto : Buffer → string → tried Blob.

(** The function handed to [asyncHandler] for [POST /create]: its answer,
    or the error that leaves it.  [id] is the id that the database gives
    the new row.  The uploads of [Promise.all] are taken in the order of
    the files, each with the buffer of its index. *)
Definition createHandler (files : list UploadedFile) (creatorName creatorEmail id : string)
    (now : N) (d : Disk) (st : MatcherState) (sessions : gmap string Session)
  : tried CreateAnswer * Disk * MatcherState * gmap string Session :=
  match map_tried (readFileSync d) files with
  | Failed err => (Failed err, cleanupUploadedFiles (Some files) d, st, sessions)
  | Returned buffers =>
      match extractReferenceEmbeddings sizeOf random (map Some buffers) st with
      | (Throw error, st) =>
          (Failed (plain_error error), cleanupUploadedFiles (Some files) d, st, sessions)
      | (Ok embeddings, st) =>
          if (length embeddings =? 0)%nat
          then (Returned create_400_no_faces_detected, cleanupUploadedFiles (Some files) d,
                st, sessions)
          else
            match map_tried (λ '(file, buffer), uploadPhoto buffer (originalname file))
                    (zip files buffers) with
            | Failed err => (Failed err, cleanupUploadedFiles (Some files) d, st, sessions)
            | Returned s3Uploads =>
                let referencePhotoUrls := map blob_url s3Uploads in
                let '(session, sessions) :=
                  createSession id creatorName creatorEmail embeddings referencePhotoUrls
                    now sessions in
                (Returned (create_201 id (reference_photos session) (length embeddings)),
                 cleanupUploadedFiles (Some files) d, st, sessions)
            end
      end
  end.

(** [POST /create] as the application serves it: the handler under
    [asyncHandler], [errorHandler] for an error that leaves it, and the
    [res.send] of [cleanupOnError] for the answer. *)
Definition createRoute (files : list UploadedFile) (creatorName creatorEmail id : string)
    (now : N) (d : Disk) (st : MatcherState) (sessions : gmap string Session)
  : CreateResult :=
  let '(result, d, st, sessions) :=
    createHandler files creatorName creatorEmail id now d st sessions in
  let answer :=
    match result with
    | Returned answer => answer
    | Failed err => create_error (errorHandler err) err
    end in
  mkCreateResult answer (send (answer_status answer) files d) st sessions.
End CreateRoute.


(** An index of the batch loop and the scanned count of a run that has
    reached it: with a positive batch size the photos before the index
    have been handed to the matcher; with a negative one the index has not
    risen above 0, where nothing has been scanned. *)
Definition loop_index (len : nat) (batchSize i : Z) (r : Run) : Prop :=
  ((0 < batchSize)%Z → (0 ≤ i)%Z ∧ r_scannedPhotos r ≤ slice_index len i) ∧
  ((batchSize < 0)%Z → (i ≤ 0)%Z ∧ (i = 0%Z → r_scannedPhotos r = 0)).

(** The events of the batch stage of a scan. *)
Definition scan_event (scan : string) (e : Event) : Prop :=
  match e with
  | ev_downloadPhotosInBatches _ | ev_matchFace _ | ev_jobProgress _ _ => True
  | ev_updateProgress s p => s = scan
  | _ => False
  end.

(** The sample collaborators with a batch size of -2. *)
Definition backwards_env : Env :=
  mkEnv (decrypt sample_env) (parse_json sample_env) (date_now sample_env)
    (refreshAccessToken sample_env) (library sample_env)
    (thumbnail sample_env) (original sample_env) (sizeOf sample_env) (random sample_env)
    (uploadPhoto sample_env) (Some (-2)%Z) 1 2.

(** * Properties *)

(** ** The Scan record and the cancel endpoint *)

Lemma update_where_id_lookup f scan w row :
  tbl_scans w !! scan = Some row →
  tbl_scans (update_where_id f scan w).2 !! scan = Some (f row).
Proof.
  intros Hrow. unfold update_where_id. rewrite Hrow. simpl.
  apply lookup_insert_eq.
Qed.

Lemma update_where_id_absent f scan w :
  tbl_scans w !! scan = None → update_where_id f scan w = (None, w).
Proof. intros Hrow. unfold update_where_id. by rewrite Hrow. Qed.

Lemma trim_uuid : trim scan_1 = scan_1 ∧ uuid_format scan_1 = true.
Proof. split; vm_compute; reflexivity. Qed.

(** C1, as stated, fails: a second cancel request against a scan that a
    first one has already made [cancelled] is answered with success again
    and rewrites [completed_at]. *)
Lemma cancel_of_cancelled_scan_is_accepted :
  let w := (cancelRoute uuid_format scan_1 7 (sample_world pending)).2 in
  (status <$> getScanById scan_1 w) = Some cancelled ∧
  terminal cancelled = true ∧
  (cancelRoute uuid_format scan_1 9 w).1 = resp_200_cancelled scan_1 ∧
  is_rejection (cancelRoute uuid_format scan_1 9 w).1 = false ∧
  (completed_at <$> getScanById scan_1 w) = Some (Some 7) ∧
  (completed_at <$> getScanById scan_1 (cancelRoute uuid_format scan_1 9 w).2)
    = Some (Some 9) ∧
  (cancelRoute uuid_format scan_1 9 w).2 ≠ w.
Proof.
  cbv zeta.
  set (w := (cancelRoute uuid_format scan_1 7 (sample_world pending)).2).
  assert (H7 : (completed_at <$> getScanById scan_1 w) = Some (Some 7))
    by (vm_compute; reflexivity).
  assert (H9 : (completed_at <$> getScanById scan_1 (cancelRoute uuid_format scan_1 9 w).2)
               = Some (Some 9))
    by (vm_compute; reflexivity).
  repeat split; try (vm_compute; reflexivity); try exact H7; try exact H9.
  intros Heq. rewrite Heq, H7 in H9. discriminate.
Qed.

(** C1 (amended): a cancel request against a scan whose status is
    [completed] or [failed] is answered with an error, the 400 "Cannot
    cancel" of the handler once the id has passed validation, and leaves
    every store unchanged. *)
Theorem cancel_completed_or_failed_rejected (isUUID : string → bool) (w : World)
    (scan : string) (now : nat) (row : Scan) :
  getScanById (trim scan) w = Some row →
  status row = completed ∨ status row = failed →
  cancelRoute isUUID scan now w =
    (match validateScanId isUUID scan with
     | Some _ => resp_400_cannot_cancel
     | None => resp_400_validation_error
     end, w) ∧
  is_rejection (cancelRoute isUUID scan now w).1 = true.
Proof.
  intros Hrow Hst. unfold cancelRoute, validateScanId. cbv zeta.
  destruct (negb (String.eqb (trim scan) "") && isUUID (trim scan)); [|by split].
  unfold cancelScan. rewrite Hrow.
  destruct (decide (status row = completed ∨ status row = failed)) as [_ | Hn].
  - by split.
  - contradiction.
Qed.

Lemma cancel_completed_or_failed_rejected_witness :
  cancelRoute uuid_format scan_1 9 (sample_world completed) =
    (match validateScanId uuid_format scan_1 with
     | Some _ => resp_400_cannot_cancel
     | None => resp_400_validation_error
     end, sample_world completed) ∧
  is_rejection (cancelRoute uuid_format scan_1 9 (sample_world completed)).1 = true.
Proof.
  apply (cancel_completed_or_failed_rejected uuid_format (sample_world completed) scan_1 9
           (sample_scan completed)).
  - vm_compute; reflexivity.
  - left; reflexivity.
Defined.

(** C2, as stated, fails: the completion mark of the orchestrator rewrites
    the status of a scan that a cancel request has made [cancelled] in the
    meantime, and the failure mark rewrites a [completed] status. *)
Lemma completion_mark_overwrites_cancelled :
  let w0 := unqueued_world processing in
  let w1 := apply_op uuid_format scan_1 (op_cancel 7) w0 in
  let w2 := apply_op uuid_format scan_1 (op_markScanCompleted 9) w1 in
  let w3 := apply_op uuid_format scan_1 (op_markScanFailed "timeout" 9)
              (sample_world completed) in
  status_of scan_1 w1 = Some cancelled ∧
  terminal cancelled = true ∧
  status_of scan_1 w2 = Some completed ∧
  status_of scan_1 w3 = Some failed.
Proof. cbv zeta. repeat split; vm_compute; reflexivity. Qed.

Lemma update_where_id_scans (f : Scan → Scan) (id s : string) (w : World) :
  tbl_scans (update_where_id f id w).2 !! s =
    if decide (id = s) then f <$> tbl_scans w !! s else tbl_scans w !! s.
Proof.
  unfold update_where_id. destruct (decide (id = s)) as [<-|Hne].
  - destruct (tbl_scans w !! id) as [row|] eqn:Hrow; cbn; [|by rewrite Hrow].
    by rewrite lookup_insert_eq.
  - destruct (tbl_scans w !! id) as [row|] eqn:Hrow; cbn; [|done].
    by rewrite lookup_insert_ne.
Qed.

(** The handler never changes the status of a terminal scan, whichever
    scan the request names. *)
Lemma cancelScan_terminal_status (id scan : string) (now : nat) (w : World) (s : ScanStatus) :
  status_of scan w = Some s → terminal s = true →
  status_of scan (cancelScan id now w).2 = Some s.
Proof.
  intros Hs Hterm. unfold cancelScan, getScanById.
  destruct (tbl_scans w !! id) as [row|] eqn:Hrow; [|done].
  destruct (decide (status row = completed ∨ status row = failed)) as [_ | Hn]; [done|].
  cbn [snd]. unfold status_of, updateScan in *. rewrite update_where_id_scans.
  assert (Hw1 : tbl_scans (match job_id row with Some j => cancelJob j w | None => w end)
                = tbl_scans w) by (by destruct (job_id row)).
  rewrite Hw1. destruct (decide (id = scan)) as [->|Hne]; [|done].
  rewrite Hrow in Hs |- *. injection Hs as <-.
  cbn. f_equal. destruct (status row); try discriminate; tauto.
Qed.

(** C2 (amended): once the status of a scan is [completed], [failed] or
    [cancelled], a progress write and a cancel request leave it as it is;
    [markScanCompleted] and [markScanFailed] set it to [completed] and to
    [failed] whatever it was. *)
Theorem terminal_status_under_writes (isUUID : string → bool) (w : World) (scan : string)
    (s : ScanStatus) (op : ScanOp) :
  status_of scan w = Some s →
  terminal s = true →
  status_of scan (apply_op isUUID scan op w) =
    Some (match op with
          | op_markScanCompleted _ => completed
          | op_markScanFailed _ _ => failed
          | op_cancel _ | op_updateProgress _ => s
          end).
Proof.
  intros Hs Hterm.
  destruct op as [now | message now | now | p]; cbn [apply_op].
  - unfold status_of, markScanCompleted in *. rewrite update_where_id_scans.
    rewrite decide_True by done. by destruct (tbl_scans w !! scan).
  - unfold status_of, markScanFailed in *. rewrite update_where_id_scans.
    rewrite decide_True by done. by destruct (tbl_scans w !! scan).
  - unfold cancelRoute. destruct (validateScanId isUUID scan) as [id|]; [|done].
    by apply cancelScan_terminal_status.
  - unfold status_of, updateProgress, updateScanProgress in *.
    rewrite update_where_id_scans. rewrite decide_True by done. cbn [tbl_scans].
    by destruct (tbl_scans w !! scan).
Qed.

Lemma terminal_status_under_writes_witness :
  status_of scan_1 (apply_op uuid_format scan_1 (op_updateProgress (mkProgress 40 40 3 3 1 1))
                      (sample_world failed)) = Some failed.
Proof.
  apply (terminal_status_under_writes uuid_format (sample_world failed) scan_1 failed
           (op_updateProgress (mkProgress 40 40 3 3 1 1))).
  - vm_compute; reflexivity.
  - reflexivity.
Defined.

(** ** Upload with retry *)

(** C9: when the blob store fails every time, [uploadPhotoWithRetry] with
    the default of three attempts calls it exactly three times, waits
    1000 ms after the first failure and 2000 ms after the second, and throws
    the error of the third attempt. *)
Theorem upload_retry_three_failures (uploadPhoto : nat → exc Blob) (e1 e2 e3 : string) :
  uploadPhoto 1 = Throw e1 →
  uploadPhoto 2 = Throw e2 →
  uploadPhoto 3 = Throw e3 →
  uploadPhotoWithRetry uploadPhoto default_maxRetries =
    (Throw e3,
     [upload_attempt 1; upload_wait 1000; upload_attempt 2; upload_wait 2000;
      upload_attempt 3]).
Proof.
  intros H1 H2 H3. unfold uploadPhotoWithRetry, default_maxRetries.
  cbn [retry_loop]. rewrite H1. cbn [Nat.eqb].
  cbn [retry_loop]. rewrite H2. cbn [Nat.eqb].
  cbn [retry_loop]. rewrite H3. cbn [Nat.eqb].
  reflexivity.
Qed.

Lemma upload_retry_three_failures_witness :
  uploadPhotoWithRetry (λ _, Throw "ServiceUnavailable") default_maxRetries =
    (Throw "ServiceUnavailable",
     [upload_attempt 1; upload_wait 1000; upload_attempt 2; upload_wait 2000;
      upload_attempt 3]).
Proof.
  apply (upload_retry_three_failures (λ _, Throw "ServiceUnavailable")
           "ServiceUnavailable" "ServiceUnavailable" "ServiceUnavailable");
    reflexivity.
Defined.

(** With [remaining] iterations left and [attempt + remaining = maxRetries + 1]
    the loop never falls through: it returns a blob or throws. *)
Lemma retry_loop_defined (uploadPhoto : nat → exc Blob) (maxRetries : nat) :
  ∀ remaining attempt,
    0 < remaining → attempt + remaining = S maxRetries →
    (retry_loop uploadPhoto maxRetries remaining attempt).1 ≠ Ok None.
Proof.
  induction remaining as [|remaining IH]; intros attempt Hpos Hsum; [lia|].
  simpl. destruct (uploadPhoto attempt) as [blob | e]; [done|].
  destruct (Nat.eqb_spec attempt maxRetries) as [-> | Hne]; [done|].
  specialize (IH (S attempt)).
  destruct (retry_loop uploadPhoto maxRetries remaining (S attempt)) as [res evs].
  simpl in *. apply IH; lia.
Qed.

(** ** The matcher *)

Section MatcherFacts.
Variable sizeOf : Buffer → exc (nat * nat).
Variable random : nat → Q.

Lemma random_descriptor_returns n st :
  ∃ d, random_descriptor random n st
       = (Ok d, mkMatcherState (initialized st) (rng st + n)).
Proof.
  revert st. induction n as [|n IH]; intros st.
  - exists []. simpl. unfold ms_ret. destruct st; simpl. by rewrite Nat.add_0_r.
  - simpl. unfold ms_bind, math_random at 1.
    destruct (IH (mkMatcherState (initialized st) (S (rng st)))) as [d Hd].
    rewrite Hd. simpl. eexists. unfold ms_ret. do 2 f_equal. lia.
Qed.

(** [detectFaces] never throws; it finds no face in an unusable buffer
    and one face otherwise. *)
Lemma detectFaces_returns imageBuffer st :
  ∃ faces st',
    detectFaces sizeOf random imageBuffer st = (Ok faces, st') ∧
    length faces = if unusable sizeOf imageBuffer then 0 else 1.
Proof.
  unfold detectFaces, ms_try, ms_bind, initializeModel, ms_try, ms_ret, ms_lift, unusable.
  destruct (initialized st) eqn:Hinit.
  all: destruct imageBuffer as [buf|]; [|by eauto].
  all: destruct (length buf =? 0)%nat; [by eauto|].
  all: destruct (sizeOf buf) as [[wd ht]|e]; [|by eauto].
  all: match goal with
       | |- context [random_descriptor random 128 ?s] =>
           destruct (random_descriptor_returns 128 s) as [d Hd]; rewrite Hd
       end; by eauto.
Qed.

(** The two shapes of a result of [matchFace]: no face, or a decision
    drawn from two random numbers. *)
Lemma matchFace_cases imageBuffer refs st :
  ∃ r st',
    matchFace sizeOf random imageBuffer refs st = (Ok r, st') ∧
    if unusable sizeOf imageBuffer then r = no_face
    else ∃ n,
        let r1 := random n in
        let r2 := random (S n) in
        isMatch r = Qgtb r1 (3 # 10) ∧
        confidence r = (if isMatch r then (85 # 100) + r2 * (1 # 10)
                        else (3 # 10) + r2 * (2 # 10))%Q ∧
        facesDetected r = 1.
Proof.
  destruct (detectFaces_returns imageBuffer st) as (faces & st1 & Hd & Hlen).
  unfold matchFace, ms_try, ms_bind. rewrite Hd.
  destruct (unusable sizeOf imageBuffer).
  - rewrite Hlen. simpl. by eauto.
  - rewrite Hlen. simpl. unfold ms_ret. do 2 eexists. split; [reflexivity|].
    exists (rng st1). simpl. auto.
Qed.
End MatcherFacts.

(** C10: for every input and every state of the module, [matchFace]
    returns a result and never throws; for a [null], empty or undecodable
    buffer the result is the non-match with [isMatch] false, [confidence] 0
    and [facesDetected] 0, and otherwise it reports one face. *)
Theorem matchFace_never_throws (sizeOf : Buffer → exc (nat * nat)) (random : nat → Q)
    (imageBuffer : option Buffer) (refs : list (list Q)) (st : MatcherState) :
  ∃ r st',
    matchFace sizeOf random imageBuffer refs st = (Ok r, st') ∧
    if unusable sizeOf imageBuffer
    then isMatch r = false ∧ confidence r = 0%Q ∧ facesDetected r = 0
    else facesDetected r = 1.
Proof.
  destruct (matchFace_cases sizeOf random imageBuffer refs st) as (r & st' & Hm & Hr).
  exists r, st'. split; [done|].
  destruct (unusable sizeOf imageBuffer).
  - by subst r.
  - by destruct Hr as (n & _ & _ & Hf).
Qed.

(** ** Traces and the invariant of a run *)

Lemma progress_updates_app (l1 l2 : list Event) :
  progress_updates (l1 ++ l2) = progress_updates l1 ++ progress_updates l2.
Proof. unfold progress_updates. apply omap_app. Qed.

Lemma created_records_app (l1 l2 : list Event) :
  created_records (l1 ++ l2) = created_records l1 ++ created_records l2.
Proof. unfold created_records. by rewrite omap_app, concat_app. Qed.

Lemma progress_updates_cons (e : Event) (l : list Event) :
  progress_updates (e :: l) =
    match e with
    | ev_updateProgress _ p => p :: progress_updates l
    | _ => progress_updates l
    end.
Proof. by destruct e. Qed.

Lemma created_records_cons (e : Event) (l : list Event) :
  created_records (e :: l) =
    match e with
    | ev_createMatchedPhotos rs => rs ++ created_records l
    | _ => created_records l
    end.
Proof. by destruct e. Qed.

Lemma exec_app (w : World) (l1 l2 : list Event) :
  exec w (l1 ++ l2) = exec (exec w l1) l2.
Proof. apply foldl_app. Qed.

Lemma ple_refl p : ple p p.
Proof. unfold ple. lia. Qed.

Lemma ple_trans p q s : ple p q → ple q s → ple p s.
Proof. unfold ple. lia. Qed.

Lemma nondecreasing_app (l1 l2 : list Progress) :
  nondecreasing l1 → nondecreasing l2 →
  (∀ p q, p ∈ l1 → q ∈ l2 → ple p q) →
  nondecreasing (l1 ++ l2).
Proof.
  induction l1 as [|p l1 IH]; intros H1 H2 Hcross; [done|].
  destruct H1 as [Hhead Htail]. simpl. split.
  - destruct l1 as [|q l1]; simpl.
    + destruct l2 as [|q l2]; [done|]. apply Hcross; apply elem_of_cons; by left.
    + done.
  - apply IH; [done..|]. intros a b Ha Hb. apply Hcross; [|done].
    apply elem_of_cons. by right.
Qed.

(** Successive elements of a non-decreasing list are ordered. *)
Lemma nondecreasing_lookup (l : list Progress) (i : nat) (p q : Progress) :
  nondecreasing l → l !! i = Some p → l !! S i = Some q → ple p q.
Proof.
  revert i. induction l as [|a l IH]; intros i Hl Hp Hq; [done|].
  destruct Hl as [Hhead Htail]. destruct i as [|i]; simpl in *.
  - destruct l as [|b l]; [done|]. by injection Hp as ->; injection Hq as ->.
  - by eapply IH.
Qed.

(** The invariant is kept by a step that appends a chain of updates lying
    between the old and the new counters. *)
Lemma good_step (r r' : Run) (new : list Progress) :
  good r →
  progress_updates (r_trace r') = progress_updates (r_trace r) ++ new →
  ple (current r) (current r') →
  r_scannedPhotos r' ≤ r_totalPhotos r' →
  nondecreasing new →
  Forall (λ p, ple (current r) p ∧ ple p (current r') ∧ scannedPhotos p ≤ totalPhotos p)
    new →
  good r'.
Proof.
  intros (Hb & Hall & Hmono) Hups Hle Hb' Hnew Hbetween.
  rewrite Forall_forall in Hall, Hbetween.
  split; [done|]. rewrite Hups. split.
  - apply Forall_app. split; apply Forall_forall.
    + intros p Hp. destruct (Hall p Hp) as [H1 H2]. split; [|done].
      by eapply ple_trans.
    + intros p Hp. destruct (Hbetween p Hp) as (_ & H2 & H3). done.
  - apply nondecreasing_app; [done..|].
    intros p q Hp Hq. destruct (Hall p Hp) as [H1 _].
    destruct (Hbetween q Hq) as (H2 & _ & _). by eapply ple_trans.
Qed.

(** A step that pushes no update and does not lower a counter. *)
Lemma good_quiet (r r' : Run) :
  good r →
  progress_updates (r_trace r') = progress_updates (r_trace r) →
  ple (current r) (current r') →
  r_scannedPhotos r' ≤ r_totalPhotos r' →
  good r'.
Proof.
  intros Hg Hups Hle Hb. apply (good_step r r' []).
  - done.
  - by rewrite app_nil_r.
  - done.
  - done.
  - by simpl.
  - constructor.
Qed.

(** Pushing the counters themselves. *)
Lemma good_emit_progress (r : Run) (scan : string) (cb tb : Z) :
  good r → good (emit (ev_updateProgress scan (progress_of r cb tb)) r).
Proof.
  intros Hg. pose proof Hg as (Hb & _ & _).
  apply (good_step r _ [progress_of r cb tb]).
  - done.
  - simpl. by rewrite progress_updates_app.
  - apply ple_refl.
  - done.
  - by simpl.
  - constructor; [|constructor]. unfold ple; simpl. lia.
Qed.

Lemma good_initial (st : MatcherState) : good (set_matcher st initial_run).
Proof. repeat split; simpl; try lia; constructor. Qed.

(** ** Evaluating one photo *)

Section OrchestratorFacts.
Variable env : Env.
Variable job : Job.

(** The matcher returns for every downloaded photo, so the [catch] around
    the evaluation is never entered. *)
Lemma processPhoto_evaluates (cb tb : Z) (photo : Downloaded) (r : Run) :
  ∃ matchResult st,
    matchFace (sizeOf env) (random env) (Some (d_buffer photo))
      (referenceEmbeddings job) (r_matcher r) = (Ok matchResult, st) ∧
    processPhoto env job cb tb photo r =
      record_result job cb tb photo matchResult
        (set_matcher st (emit (ev_matchFace (d_id photo)) r)).
Proof.
  destruct (matchFace_cases (sizeOf env) (random env) (Some (d_buffer photo))
              (referenceEmbeddings job) (r_matcher r)) as (mr & st & Hm & _).
  exists mr, st. split; [done|].
  unfold processPhoto. cbn [r_matcher emit]. by rewrite Hm.
Qed.

(** What [record_result] does to the variables and the trace. *)
Lemma record_result_spec (cb tb : Z) (photo : Downloaded) (mr : MatchResult) (r : Run) :
  let r' := record_result job cb tb photo mr r in
  r_totalPhotos r' = r_totalPhotos r ∧
  r_scannedPhotos r' = S (r_scannedPhotos r) ∧
  r_matchedPhotos r' = (if isMatch mr then S (r_matchedPhotos r) else r_matchedPhotos r) ∧
  r_uploadedPhotos r' = r_uploadedPhotos r ∧
  r_matchedPhotosData r' =
    (if isMatch mr then r_matchedPhotosData r ++ [match_data photo mr]
     else r_matchedPhotosData r) ∧
  r_trace r' = r_trace r ++
    (if tenth (S (r_scannedPhotos r)) then
       [ev_updateProgress (scanId job)
          (mkProgress (r_totalPhotos r) (S (r_scannedPhotos r))
             (if isMatch mr then S (r_matchedPhotos r) else r_matchedPhotos r)
             (r_uploadedPhotos r) cb tb);
        ev_jobProgress (S (r_scannedPhotos r)) (r_totalPhotos r)]
     else []).
Proof.
  unfold record_result, tenth.
  destruct (isMatch mr); cbn [incr_scannedPhotos push_match r_scannedPhotos];
    destruct (S (r_scannedPhotos r) mod 10 =? 0)%nat; cbn;
    rewrite <- ?app_assoc, ?app_nil_r; done.
Qed.

Lemma processPhoto_spec (cb tb : Z) (photo : Downloaded) (r : Run) :
  ∃ mr st,
    matchFace (sizeOf env) (random env) (Some (d_buffer photo))
      (referenceEmbeddings job) (r_matcher r) = (Ok mr, st) ∧
    let r' := processPhoto env job cb tb photo r in
    r_totalPhotos r' = r_totalPhotos r ∧
    r_scannedPhotos r' = S (r_scannedPhotos r) ∧
    r_matchedPhotos r' = (if isMatch mr then S (r_matchedPhotos r) else r_matchedPhotos r) ∧
    r_uploadedPhotos r' = r_uploadedPhotos r ∧
    r_matchedPhotosData r' =
      (if isMatch mr then r_matchedPhotosData r ++ [match_data photo mr]
       else r_matchedPhotosData r) ∧
    r_trace r' = r_trace r ++ ev_matchFace (d_id photo) ::
      (if tenth (S (r_scannedPhotos r)) then
         [ev_updateProgress (scanId job)
            (mkProgress (r_totalPhotos r) (S (r_scannedPhotos r))
               (if isMatch mr then S (r_matchedPhotos r) else r_matchedPhotos r)
               (r_uploadedPhotos r) cb tb);
          ev_jobProgress (S (r_scannedPhotos r)) (r_totalPhotos r)]
       else []).
Proof.
  destruct (processPhoto_evaluates cb tb photo r) as (mr & st & Hm & Hp).
  exists mr, st. split; [done|]. cbv zeta. rewrite Hp.
  pose proof (record_result_spec cb tb photo mr
                (set_matcher st (emit (ev_matchFace (d_id photo)) r))) as Hspec.
  cbv zeta in Hspec. cbn [set_matcher emit r_totalPhotos r_scannedPhotos r_matchedPhotos
                           r_uploadedPhotos r_matchedPhotosData r_trace] in Hspec.
  destruct Hspec as (H1 & H2 & H3 & H4 & H5 & H6).
  rewrite H1, H2, H3, H4, H5, H6. rewrite <- app_assoc. done.
Qed.

(** ** Evaluating a batch *)

Lemma batch_update_weaken (r r1 r' : Run) (cb tb : Z) (p : Progress) :
  r_totalPhotos r1 = r_totalPhotos r →
  r_uploadedPhotos r1 = r_uploadedPhotos r →
  r_matchedPhotos r ≤ r_matchedPhotos r1 →
  r_scannedPhotos r ≤ r_scannedPhotos r1 →
  batch_update r1 r' cb tb p → batch_update r r' cb tb p.
Proof. unfold batch_update. intros -> -> ? ?. lia. Qed.

Lemma process_photos_spec (cb tb : Z) (ds : list Downloaded) :
  ∀ r,
    let r' := process_photos env job cb tb ds r in
    r_totalPhotos r' = r_totalPhotos r ∧
    r_scannedPhotos r' = r_scannedPhotos r + length ds ∧
    r_matchedPhotos r ≤ r_matchedPhotos r' ∧
    r_uploadedPhotos r' = r_uploadedPhotos r ∧
    ∃ evs,
      r_trace r' = r_trace r ++ evs ∧
      map scannedPhotos (progress_updates evs)
        = List.filter tenth (seq (S (r_scannedPhotos r)) (length ds)) ∧
      Forall (batch_update r r' cb tb) (progress_updates evs) ∧
      nondecreasing (progress_updates evs) ∧
      created_records evs = [].
Proof.
  induction ds as [|photo ds IH]; intros r; cbv zeta.
  - simpl. repeat split; try lia. exists []. rewrite app_nil_r.
    repeat split; constructor.
  - change (process_photos env job cb tb (photo :: ds) r)
      with (process_photos env job cb tb ds (processPhoto env job cb tb photo r)).
    destruct (processPhoto_spec cb tb photo r)
      as (mr & st & _ & Ht & Hs & Hm & Hu & _ & Htr).
    set (r1 := processPhoto env job cb tb photo r) in *.
    destruct (IH r1) as (Ht' & Hs' & Hm' & Hu' & evs & Htr' & Hsc & Hall & Hmono & Hcr).
    set (r' := process_photos env job cb tb ds r1) in *.
    assert (Hm1 : r_matchedPhotos r ≤ r_matchedPhotos r1)
      by (rewrite Hm; destruct (isMatch mr); lia).
    cbn [length].
    split; [lia|]. split; [lia|]. split; [lia|]. split; [lia|].
    eexists. split.
    { rewrite Htr', Htr, <- app_assoc. reflexivity. }
    assert (Hweak : Forall (batch_update r r' cb tb) (progress_updates evs)).
    { eapply Forall_impl; [exact Hall|]. intros p.
      apply batch_update_weaken; lia. }
    cbn [seq List.filter].
    rewrite Hs in Hsc.
    cbn [app]. rewrite !progress_updates_cons, !created_records_cons.
    destruct (tenth (S (r_scannedPhotos r))) eqn:Hten.
    + cbn [app]. rewrite !progress_updates_cons, !created_records_cons.
      cbn [map scannedPhotos]. rewrite Hsc. split; [done|]. split; [|split; [|done]].
      * constructor; [|done]. unfold batch_update; cbn.
        rewrite Hm in *. destruct (isMatch mr); lia.
      * cbn. split; [|done]. destruct (progress_updates evs) as [|q qs] eqn:Hq; [done|].
        apply Forall_cons in Hall as [Hq1 _]. unfold batch_update in Hq1. unfold ple; cbn.
        rewrite Hm in *. destruct (isMatch mr); lia.
    + cbn [app]. done.
Qed.

Lemma process_photos_good (cb tb : Z) (ds : list Downloaded) (r : Run) :
  good r →
  r_scannedPhotos r + length ds ≤ r_totalPhotos r →
  good (process_photos env job cb tb ds r).
Proof.
  intros Hg Hroom.
  destruct (process_photos_spec cb tb ds r)
    as (Ht & Hs & Hm & Hu & evs & Htr & _ & Hall & Hmono & _).
  apply (good_step r _ (progress_updates evs)).
  - done.
  - by rewrite Htr, progress_updates_app.
  - unfold ple, current; cbn. lia.
  - lia.
  - done.
  - eapply Forall_impl; [exact Hall|]. intros p Hp.
    unfold batch_update in Hp. unfold ple, current; cbn. lia.
Qed.

Lemma length_download_all (download : Photo → exc Buffer) (photos : list Photo) :
  length (download_all download photos) ≤ length photos.
Proof.
  induction photos as [|photo photos IH]; [done|].
  unfold download_all in *. cbn in IH |- *.
  destruct (download photo); cbn; lia.
Qed.

(** One batch: the scanned count grows by the number of thumbnails that
    came back, no row is inserted, the invariant is kept. *)
Lemma processBatch_spec (cb tb : Z) (batch : list Photo) (r : Run) :
  good r →
  r_scannedPhotos r + length batch ≤ r_totalPhotos r →
  let r' := processBatch env job cb tb batch r in
  good r' ∧
  r_totalPhotos r' = r_totalPhotos r ∧
  r_scannedPhotos r' ≤ r_scannedPhotos r + length batch ∧
  r_uploadedPhotos r' = r_uploadedPhotos r ∧
  created_records (r_trace r') = created_records (r_trace r).
Proof.
  intros Hg Hroom. cbv zeta.
  change (processBatch env job cb tb batch r)
    with (process_photos env job cb tb (downloadPhotosInBatches (thumbnail env) batch)
            (emit (ev_downloadPhotosInBatches batch) r)).
  set (ds := downloadPhotosInBatches (thumbnail env) batch).
  set (r0 := emit (ev_downloadPhotosInBatches batch) r).
  assert (Hlen : length ds ≤ length batch) by apply length_download_all.
  assert (Hg0 : good r0).
  { apply (good_quiet r); [done| |apply ple_refl|by destruct Hg].
    unfold r0. cbn. by rewrite progress_updates_app, app_nil_r. }
  destruct (process_photos_spec cb tb ds r0)
    as (Ht & Hs & Hm & Hu & evs & Htr & _ & _ & _ & Hcr).
  split; [apply process_photos_good; [done|cbn; lia]|].
  split; [done|]. split; [cbn in Hs; lia|]. split; [done|].
  rewrite Htr, created_records_app, Hcr, app_nil_r.
  unfold r0, emit. cbn [r_trace]. rewrite created_records_app.
  cbn. by rewrite app_nil_r.
Qed.

(** ** The batch loop *)

Lemma slice_index_le (len : nat) (k : Z) : slice_index len k ≤ len.
Proof. unfold slice_index. destruct (k <? 0)%Z eqn:E; [apply Z.ltb_lt in E|]; lia. Qed.

Lemma length_slice (i j : Z) (l : list Photo) :
  length (slice i j l) = slice_index (length l) j - slice_index (length l) i.
Proof.
  unfold slice. rewrite length_take, length_drop.
  pose proof (slice_index_le (length l) j). lia.
Qed.

Lemma worker_batchSize_nonzero (parsed : option Z) : worker_batchSize parsed ≠ 0%Z.
Proof. by destruct parsed as [[| |]|]. Qed.

(** What every turn of the loop keeps holds of the run that the loop
    reaches, and the loop ends only at an index beyond the photos. *)
Lemma batchLoop_invariant (I : Z → Run → Prop) (allPhotos : list Photo) (bs tb : Z) :
  (∀ i r, I i r → (i < Z.of_nat (length allPhotos))%Z →
          I (i + bs)%Z (processBatch env job (i / bs + 1) tb (slice i (i + bs) allPhotos) r)) →
  ∀ fuel i r, I i r →
    ∃ j, I j (batchLoop env job fuel allPhotos bs tb i r).2 ∧
         ((batchLoop env job fuel allPhotos bs tb i r).1 = true →
          (Z.of_nat (length allPhotos) ≤ j)%Z).
Proof.
  intros Hstep. induction fuel as [|fuel IH]; intros i r Hi; cbn [batchLoop].
  - destruct (i <? Z.of_nat (length allPhotos))%Z eqn:E; cbn [fst snd].
    + exists i. by split.
    + apply Z.ltb_ge in E. exists i. by split.
  - destruct (i <? Z.of_nat (length allPhotos))%Z eqn:E; cbn [fst snd].
    + apply Z.ltb_lt in E. apply IH. by apply Hstep.
    + apply Z.ltb_ge in E. exists i. by split.
Qed.

(** With a positive batch size the loop has ended after as many turns as
    there are photos left. *)
Lemma batchLoop_ends (allPhotos : list Photo) (bs tb : Z) :
  (0 < bs)%Z →
  ∀ fuel i r,
    Z.to_nat (Z.of_nat (length allPhotos) - i) ≤ fuel →
    (batchLoop env job fuel allPhotos bs tb i r).1 = true.
Proof.
  intros Hbs. induction fuel as [|fuel IH]; intros i r Hfuel; cbn [batchLoop].
  - destruct (i <? Z.of_nat (length allPhotos))%Z eqn:E; [|done].
    apply Z.ltb_lt in E. lia.
  - destruct (i <? Z.of_nat (length allPhotos))%Z eqn:E; [|done].
    apply Z.ltb_lt in E. apply IH. lia.
Qed.

(** With a negative batch size the loop never ends, however long it is
    followed. *)
Lemma batchLoop_never_ends (allPhotos : list Photo) (bs tb : Z) :
  (bs < 0)%Z →
  ∀ fuel i r,
    (i < Z.of_nat (length allPhotos))%Z →
    (batchLoop env job fuel allPhotos bs tb i r).1 = false.
Proof.
  intros Hbs. induction fuel as [|fuel IH]; intros i r Hi; cbn [batchLoop];
    rewrite (proj2 (Z.ltb_lt _ _) Hi); [done|].
  apply IH. lia.
Qed.

(** A loop that has ended is not changed by more fuel. *)
Lemma batchLoop_more_fuel (allPhotos : list Photo) (bs tb : Z) :
  ∀ fuel fuel' i r,
    (batchLoop env job fuel allPhotos bs tb i r).1 = true →
    fuel ≤ fuel' →
    batchLoop env job fuel' allPhotos bs tb i r = batchLoop env job fuel allPhotos bs tb i r.
Proof.
  induction fuel as [|fuel IH]; intros fuel' i r Hend Hle; cbn [batchLoop] in *.
  - destruct (i <? Z.of_nat (length allPhotos))%Z eqn:E; [done|].
    destruct fuel'; cbn [batchLoop]; by rewrite E.
  - destruct fuel' as [|fuel']; [lia|]. cbn [batchLoop].
    destruct (i <? Z.of_nat (length allPhotos))%Z eqn:E; [|done].
    apply IH; [done|lia].
Qed.

(** One turn of the loop at an index that [loop_index] allows: the batch
    fits in what is left of the total, and the index after it is allowed
    again. *)
Lemma loop_index_step (allPhotos : list Photo) (bs tb i : Z) (r : Run) :
  bs ≠ 0%Z →
  good r →
  r_totalPhotos r = length allPhotos →
  loop_index (length allPhotos) bs i r →
  (i < Z.of_nat (length allPhotos))%Z →
  let batch := slice i (i + bs) allPhotos in
  r_scannedPhotos r + length batch ≤ r_totalPhotos r ∧
  ∀ r', r_scannedPhotos r' ≤ r_scannedPhotos r + length batch →
        loop_index (length allPhotos) bs (i + bs) r'.
Proof.
  intros Hbs Hg Htot [Hpos Hneg] Hi. cbv zeta. rewrite length_slice, Htot.
  pose proof (slice_index_le (length allPhotos) (i + bs)) as Hstop.
  destruct Hg as (Hsc & _). rewrite Htot in Hsc.
  destruct (Z.lt_total bs 0) as [Hlt|[->|Hgt]]; [|done|].
  - destruct (Hneg Hlt) as [Hle Hzero]. split.
    + destruct (decide (i = 0%Z)) as [->|Hne]; [rewrite (Hzero eq_refl); lia|].
      unfold slice_index.
      rewrite (proj2 (Z.ltb_lt i 0)), (proj2 (Z.ltb_lt (i + bs) 0)) by lia. lia.
    + intros r' Hr'. split; [lia|]. intros _. split; lia.
  - destruct (Hpos Hgt) as [Hnn Hle]. split.
    + unfold slice_index in *.
      rewrite (proj2 (Z.ltb_ge i 0)), (proj2 (Z.ltb_ge (i + bs) 0)) in * by lia. lia.
    + intros r' Hr'. split; [|lia]. intros _. split; [lia|].
      unfold slice_index in *.
      rewrite (proj2 (Z.ltb_ge i 0)), (proj2 (Z.ltb_ge (i + bs) 0)) in * by lia. lia.
Qed.

(** The batch loop keeps the invariant and inserts no row, whatever the
    batch size and however long it is followed. *)
Lemma batchLoop_spec (allPhotos : list Photo) (bs tb i : Z) (fuel : nat) (r : Run) :
  bs ≠ 0%Z →
  good r →
  r_totalPhotos r = length allPhotos →
  loop_index (length allPhotos) bs i r →
  let r' := (batchLoop env job fuel allPhotos bs tb i r).2 in
  good r' ∧
  r_totalPhotos r' = r_totalPhotos r ∧
  r_uploadedPhotos r' = r_uploadedPhotos r ∧
  created_records (r_trace r') = created_records (r_trace r).
Proof.
  intros Hbs Hg Htot Hidx. cbv zeta.
  destruct (batchLoop_invariant
              (λ j r', good r' ∧ r_totalPhotos r' = r_totalPhotos r ∧
                       r_uploadedPhotos r' = r_uploadedPhotos r ∧
                       created_records (r_trace r') = created_records (r_trace r) ∧
                       loop_index (length allPhotos) bs j r')
              allPhotos bs tb) with (fuel := fuel) (i := i) (r := r)
    as (j & (Hg' & Ht' & Hu' & Hc' & _) & _); [|by split_and!|by split_and!].
  clear i Hidx. intros i r1 (Hg1 & Ht1 & Hu1 & Hc1 & Hidx1) Hi.
  destruct (loop_index_step allPhotos bs tb i r1 Hbs Hg1) as [Hroom Hnext];
    [congruence|done|done|].
  destruct (processBatch_spec (i / bs + 1) tb (slice i (i + bs) allPhotos) r1 Hg1 Hroom)
    as (Hg2 & Ht2 & Hs2 & Hu2 & Hc2).
  split_and!; [done|congruence|congruence|congruence|by apply Hnext].
Qed.

(** ** Credential resolution and enumeration *)

Lemma resolveAccessToken_spec (r : Run) :
  let r' := (resolveAccessToken env job r).2 in
  same_vars r r' ∧
  ∃ evs, r_trace r' = r_trace r ++ evs ∧ Forall (early_event (scanId job)) evs ∧
         progress_updates evs = [].
Proof.
  cbv zeta. unfold resolveAccessToken.
  assert (Hsame : same_vars r r ∧
            ∃ evs, r_trace r = r_trace r ++ evs ∧ Forall (early_event (scanId job)) evs ∧
                   progress_updates evs = []).
  { split; [by repeat split|]. exists []. by rewrite app_nil_r. }
  assert (Hemit : same_vars r (emit ev_refreshAccessToken r) ∧
            ∃ evs, r_trace (emit ev_refreshAccessToken r) = r_trace r ++ evs ∧
                   Forall (early_event (scanId job)) evs ∧ progress_updates evs = []).
  { split; [by repeat split|]. exists [ev_refreshAccessToken].
    split; [done|]. split; [|done]. by repeat constructor. }
  destruct (decrypt env (oauthToken job)) as [decryptedToken|e]; [|exact Hsame].
  cbv zeta.
  destruct (refresh_token _) as [refreshToken|]; [|exact Hsame].
  destruct (expiry_date _) as [expiryTime|]; [|exact Hsame].
  destruct (expiryTime - date_now env <? 5 * 60 * 1000)%Z; [|exact Hsame].
  destruct (refreshAccessToken env refreshToken); exact Hemit.
Qed.

Lemma fetchAllPhotos_enumerate (responses : list PageResponse) :
  ∀ photos pageCount r,
    (fetchAllPhotos responses photos pageCount (onPageFetched job) r).1
      = enumerate responses photos.
Proof.
  induction responses as [|[items next|message] rest IH]; intros photos pc r; [done| |done].
  cbn [fetchAllPhotos enumerate]. destruct next; [apply IH|done].
Qed.

(** Enumeration pushes one update per page, with the number of photos
    fetched so far as total, and touches no other variable. *)
Lemma fetchAllPhotos_spec (responses : list PageResponse) :
  ∀ photos pageCount r,
    good r →
    r_totalPhotos r ≤ length photos →
    r_scannedPhotos r = 0 →
    let r' := (fetchAllPhotos responses photos pageCount (onPageFetched job) r).2 in
    good r' ∧ r_scannedPhotos r' = 0 ∧
    r_matchedPhotos r' = r_matchedPhotos r ∧ r_uploadedPhotos r' = r_uploadedPhotos r ∧
    r_matchedPhotosData r' = r_matchedPhotosData r ∧
    (∀ allPhotos, enumerate responses photos = Ok allPhotos →
       r_totalPhotos r' = length allPhotos ∧
       ∃ pre, r_trace r' = pre ++ [ev_updateProgress (scanId job) (current r')]) ∧
    ∃ evs, r_trace r' = r_trace r ++ evs ∧ Forall (early_event (scanId job)) evs.
Proof.
  induction responses as [|[items next|message] rest IH]; intros photos pc r Hg Htot Hsc;
    cbv zeta.
  - cbn. split_and!; try done. exists []. by rewrite app_nil_r.
  - cbn [fetchAllPhotos enumerate].
    set (r1 := onPageFetched job (length (photos ++ items)) (S pc) (emit (ev_fetchPage (S pc)) r)).
    assert (Hg1 : good r1).
    { unfold r1, onPageFetched. apply good_emit_progress.
      apply (good_quiet r); [done| |unfold ple, current; cbn; rewrite length_app; lia|cbn; lia].
      cbn. by rewrite progress_updates_app, app_nil_r. }
    assert (Htr1 : r_trace r1 = r_trace r ++
              [ev_fetchPage (S pc);
               ev_updateProgress (scanId job)
                 (mkProgress (length (photos ++ items)) (r_scannedPhotos r)
                    (r_matchedPhotos r) (r_uploadedPhotos r) 0 0)]).
    { unfold r1. cbn. by rewrite <- app_assoc. }
    assert (Hearly : Forall (early_event (scanId job))
              [ev_fetchPage (S pc);
               ev_updateProgress (scanId job)
                 (mkProgress (length (photos ++ items)) (r_scannedPhotos r)
                    (r_matchedPhotos r) (r_uploadedPhotos r) 0 0)])
      by (by repeat constructor).
    destruct next.
    + destruct (IH (photos ++ items) (S pc) r1 Hg1)
        as (Hg2 & Hs2 & Hm2 & Hu2 & Hd2 & Hall & evs & Htr2 & Hev);
        [done|done|].
      split; [done|]. split; [done|]. split; [done|]. split; [done|]. split; [done|].
      split; [done|].
      eexists. split; [rewrite Htr2, Htr1, <- app_assoc; reflexivity|].
      apply Forall_app. by split.
    + cbn [snd]. split; [done|]. split; [done|]. split; [done|]. split; [done|].
      split; [done|]. split.
      * intros allPhotos [= <-]. split; [done|].
        exists (r_trace r ++ [ev_fetchPage (S pc)]). rewrite Htr1, <- app_assoc. done.
      * eexists. split; [exact Htr1|done].
  - cbn. split_and!; try done. exists []. by rewrite app_nil_r.
Qed.

(** ** The upload stage *)

Lemma successful_uploads_app (l1 l2 : list Event) :
  successful_uploads env (l1 ++ l2) = successful_uploads env l1 ++ successful_uploads env l2.
Proof. apply omap_app. Qed.

(** The attempts of one retried upload: the call that returned, if there
    is one, is the last of them. *)
Lemma retry_loop_uploads (photo : PhotoToUpload) (maxRetries : nat) :
  ∀ remaining attempt,
    let res := retry_loop (uploadPhoto env photo) maxRetries remaining attempt in
    successful_uploads env (map (ev_upload photo) res.2)
      = match res.1 with
        | Ok (Some blob) => [(photo, blob)]
        | _ => []
        end.
Proof.
  induction remaining as [|remaining IH]; intros attempt; cbv zeta; [done|].
  cbn [retry_loop].
  destruct (uploadPhoto env photo attempt) as [blob|e] eqn:Hup.
  - cbn. by rewrite Hup.
  - destruct (attempt =? maxRetries)%nat.
    + cbn. by rewrite Hup.
    + specialize (IH (S attempt)). cbv zeta in IH.
      destruct (retry_loop (uploadPhoto env photo) maxRetries remaining (S attempt))
        as [res evs]. cbn [fst snd map] in *.
      unfold successful_uploads in *. cbn. by rewrite Hup.
Qed.

Lemma uploadPhotoWithRetry_returns (up : nat → exc Blob) (b : option Blob)
    (evs : list UploadEvent) :
  uploadPhotoWithRetry up default_maxRetries = (Ok b, evs) → is_Some b.
Proof.
  intros Hr. unfold uploadPhotoWithRetry in Hr.
  pose proof (retry_loop_defined up default_maxRetries default_maxRetries 1) as Hdef.
  rewrite Hr in Hdef. destruct b as [blob|]; [by eexists|].
  exfalso. apply Hdef; [unfold default_maxRetries; lia..|done].
Qed.

Lemma upload_events_quiet (photo : PhotoToUpload) (evs : list UploadEvent) :
  progress_updates (map (ev_upload photo) evs) = [] ∧
  created_records (map (ev_upload photo) evs) = [].
Proof. induction evs as [|e evs [IH1 IH2]]; [done|]. split; cbn; [apply IH1|apply IH2]. Qed.

(** The uploads of a batch: the invariant and the scan counters are kept,
    no row is inserted, and the results that report success stand, one for
    one and in order, for the calls of [uploadPhoto] that returned. *)
Lemma upload_each_spec (tb : Z) (photos : list PhotoToUpload) :
  ∀ total completed r,
    good r →
    r_uploadedPhotos r = completed →
    let res := upload_each (uploadPhoto env) photos total completed (onUploadProgress job tb) r in
    good res.2 ∧
    r_totalPhotos res.2 = r_totalPhotos r ∧ r_scannedPhotos res.2 = r_scannedPhotos r ∧
    r_matchedPhotos res.2 = r_matchedPhotos r ∧
    r_uploadedPhotos res.2 = completed + length (List.filter success res.1) ∧
    created_records (r_trace res.2) = created_records (r_trace r) ∧
    ∃ evs,
      r_trace res.2 = r_trace r ++ evs ∧
      Forall2 result_of_upload (List.filter success res.1) (successful_uploads env evs).
Proof.
  induction photos as [|photo rest IH]; intros total completed r Hg Hup; cbv zeta.
  - cbn. split_and!; try done; [lia|]. exists []. rewrite app_nil_r. split; [done|constructor].
  - cbn [upload_each].
    pose proof (retry_loop_uploads photo default_maxRetries default_maxRetries 1) as Hsucc.
    cbv zeta in Hsucc. fold (uploadPhotoWithRetry (uploadPhoto env photo) default_maxRetries)
      in Hsucc.
    destruct (uploadPhotoWithRetry (uploadPhoto env photo) default_maxRetries)
      as [res evs] eqn:Hretry. cbn [fst snd] in Hsucc.
    destruct (upload_events_quiet photo evs) as [Hq1 Hq2].
    set (r1 := emit_all (map (ev_upload photo) evs) r).
    assert (Hg1 : good r1).
    { apply (good_quiet r); [done| |apply ple_refl|by destruct Hg].
      unfold r1, emit_all. cbn [r_trace]. by rewrite progress_updates_app, Hq1, app_nil_r. }
    assert (Hc1 : created_records (r_trace r1) = created_records (r_trace r)).
    { unfold r1, emit_all. cbn [r_trace]. by rewrite created_records_app, Hq2, app_nil_r. }
    destruct res as [blob|e].
    + destruct (uploadPhotoWithRetry_returns _ _ _ Hretry) as [b ->].
      set (r2 := onUploadProgress job tb (S completed) total r1).
      assert (Hg2 : good r2).
      { unfold r2, onUploadProgress. apply good_emit_progress.
        apply (good_quiet r1); [done|done| |by destruct Hg1].
        unfold ple, current; cbn. lia. }
      assert (Hc2 : created_records (r_trace r2) = created_records (r_trace r)).
      { unfold r2, onUploadProgress, emit, set_uploadedPhotos. cbn [r_trace].
        rewrite created_records_app, Hc1. cbn. by rewrite app_nil_r. }
      specialize (IH total (S completed) r2 Hg2 eq_refl). cbv zeta in IH.
      destruct (upload_each (uploadPhoto env) rest total (S completed)
                  (onUploadProgress job tb) r2) as [results r3].
      cbn [fst snd] in *.
      destruct IH as (Hg3 & Ht3 & Hs3 & Hm3 & Hu3 & Hc3 & evs3 & Htr3 & Hall).
      split_and!; try done; try congruence.
      * cbn. lia.
      * eexists. split.
        { rewrite Htr3. unfold r2, r1, onUploadProgress, emit, emit_all, set_uploadedPhotos.
          cbn [r_trace]. rewrite <- !app_assoc. reflexivity. }
        rewrite !successful_uploads_app, Hsucc. cbn [List.filter success app].
        constructor; [by split|exact Hall].
    + specialize (IH total completed r1 Hg1 Hup). cbv zeta in IH.
      destruct (upload_each (uploadPhoto env) rest total completed
                  (onUploadProgress job tb) r1) as [results r3].
      cbn [fst snd] in *.
      destruct IH as (Hg3 & Ht3 & Hs3 & Hm3 & Hu3 & Hc3 & evs3 & Htr3 & Hall).
      split_and!; try done; try congruence.
      eexists. split.
      { rewrite Htr3. unfold r1, emit_all. cbn [r_trace]. rewrite <- !app_assoc. reflexivity. }
      rewrite successful_uploads_app, Hsucc. exact Hall.
Qed.

Lemma map_exc_Forall2 {A B} (f : A → exc B) (l : list A) :
  ∀ bs, map_exc f l = Ok bs → Forall2 (λ a b, f a = Ok b) l bs.
Proof.
  induction l as [|a l IH]; intros bs Hm; cbn in Hm.
  - injection Hm as <-. constructor.
  - destruct (f a) as [b|e] eqn:Hfa; [|done].
    destruct (map_exc f l) as [bs'|e]; [|done].
    injection Hm as <-. constructor; [done|by apply IH].
Qed.

(** The row built from a result that stands for an upload is the row of
    that upload. *)
Lemma photo_record_row (data : list MatchData) (result : UploadResult) (rec : PhotoRecord)
    (up : PhotoToUpload * Blob) :
  result_of_upload result up →
  photo_record job data result = Ok rec →
  row_of_upload job rec up.
Proof.
  intros [Hid Hblob] Hrec. unfold photo_record in Hrec.
  destruct (find_match data (originalId result)); [|done].
  injection Hrec as <-. unfold row_of_upload. cbn. rewrite Hblob. by split_and!.
Qed.

Lemma records_rows (data : list MatchData) (results : list UploadResult)
    (recs : list PhotoRecord) :
  Forall2 (λ result rec, photo_record job data result = Ok rec) results recs →
  ∀ ups, Forall2 result_of_upload results ups → Forall2 (row_of_upload job) recs ups.
Proof.
  induction 1 as [|result rec results recs Hrec _ IH]; intros ups Hups.
  - apply Forall2_nil_inv_l in Hups as ->. constructor.
  - apply Forall2_cons_inv_l in Hups as (up & ups' & Hup & Hups & ->).
    constructor; [by eapply photo_record_row|by apply IH].
Qed.

Lemma rows_wellformed (recs : list PhotoRecord) (ups : list (PhotoToUpload * Blob)) :
  Forall2 (row_of_upload job) recs ups →
  Forall (λ rec, pr_scanId rec = scanId job ∧
                 is_Some (pr_s3Url rec) ∧ is_Some (pr_s3Key rec)) recs.
Proof.
  induction 1 as [|rec up recs ups (Hid & _ & Hurl & Hkey) _ IH]; constructor; [|done].
  rewrite Hurl, Hkey. by split_and!.
Qed.

(** The rows of uploads are rows that the table accepts exactly when the
    Scan row of the job exists. *)
Lemma rows_accepted (w : World) (recs : list PhotoRecord) (ups : list (PhotoToUpload * Blob)) :
  Forall2 (row_of_upload job) recs ups →
  createMatchedPhotos recs w =
    if (length recs =? 0)%nat then (Ok (), w)
    else if bool_decide (is_Some (tbl_scans w !! scanId job))
         then (Ok (), insert_rows recs w)
         else (Throw foreign_key_violation, w).
Proof.
  intros Hrows. apply rows_wellformed in Hrows. unfold createMatchedPhotos.
  destruct (length recs =? 0)%nat eqn:Hzero; [done|].
  assert (Hnull : omap null_column recs = []).
  { clear Hzero. induction Hrows as [|rec recs (_ & [url Hurl] & [key Hkey]) _ IH]; [done|].
    cbn [omap list_omap]. unfold null_column at 1. by rewrite Hurl, Hkey. }
  rewrite Hnull. cbn [head].
  destruct (bool_decide (is_Some (tbl_scans w !! scanId job))) eqn:Hscan.
  - assert (Hall : forallb (has_scan w) recs = true); [|by rewrite Hall].
    apply forallb_forall. intros rec Hin. apply list_elem_of_In in Hin.
    rewrite Forall_forall in Hrows. destruct (Hrows rec Hin) as (Hid & _).
    unfold has_scan. by rewrite Hid.
  - destruct recs as [|rec recs]; [done|]. apply Forall_cons in Hrows as [(Hid & _) _].
    cbn [forallb]. unfold has_scan at 1. by rewrite Hid, Hscan.
Qed.

(** The upload stage keeps the invariant and the scan counters.  When it
    throws it has inserted no row.  When it returns, the rows it has
    inserted are as many as the final uploaded count, and they are, one for
    one and in order, the rows of the uploads that returned. *)
Lemma uploadStage_spec (w : World) (allPhotos : list Photo) (tb : Z) (r : Run) :
  good r →
  r_uploadedPhotos r = 0 →
  created_records (r_trace r) = [] →
  successful_uploads env (r_trace r) = [] →
  let res := uploadStage env job w allPhotos tb r in
  good res.2 ∧
  r_totalPhotos res.2 = r_totalPhotos r ∧ r_scannedPhotos res.2 = r_scannedPhotos r ∧
  r_matchedPhotos res.2 = r_matchedPhotos r ∧
  (res.1 = Ok () →
     length (created_records (r_trace res.2)) = r_uploadedPhotos res.2 ∧
     Forall2 (row_of_upload job) (created_records (r_trace res.2))
       (successful_uploads env (r_trace res.2))) ∧
  (∀ e, res.1 = Throw e → created_records (r_trace res.2) = []).
Proof.
  intros Hg Hup Hcr Hsu. cbv zeta. unfold uploadStage.
  destruct (0 <? length (r_matchedPhotosData r))%nat.
  2: { cbn [fst snd is_ok]. split_and!; try done. intros _. rewrite Hcr, Hup, Hsu.
       split; [done|constructor]. }
  set (data := r_matchedPhotosData r).
  set (meta := List.filter _ allPhotos).
  set (photosToUpload := map (photo_to_upload job data) _).
  set (r1 := emit (ev_downloadOriginalPhotos meta) r).
  assert (Hg1 : good r1).
  { apply (good_quiet r); [done| |apply ple_refl|by destruct Hg].
    unfold r1, emit. cbn [r_trace]. rewrite progress_updates_app. cbn. by rewrite app_nil_r. }
  unfold uploadPhotosInBatch.
  set (r2 := emit (ev_uploadPhotosInBatch (map u_id photosToUpload)) r1).
  assert (Hg2 : good r2).
  { apply (good_quiet r1); [done| |apply ple_refl|by destruct Hg1].
    unfold r2, emit. cbn [r_trace]. rewrite progress_updates_app. cbn. by rewrite app_nil_r. }
  assert (Hc2 : created_records (r_trace r2) = []).
  { unfold r2, r1, emit. cbn [r_trace]. rewrite !created_records_app, Hcr. done. }
  assert (Hs2 : successful_uploads env (r_trace r2) = []).
  { unfold r2, r1, emit. cbn [r_trace]. rewrite !successful_uploads_app, Hsu. done. }
  pose proof (upload_each_spec tb photosToUpload (length photosToUpload) 0 r2 Hg2 Hup) as Hspec.
  cbv zeta in Hspec.
  destruct (upload_each (uploadPhoto env) photosToUpload (length photosToUpload) 0
              (onUploadProgress job tb) r2) as [uploadResults r3].
  cbn [fst snd] in Hspec.
  destruct Hspec as (Hg3 & Ht3 & Hs3 & Hm3 & Hu3 & Hc3 & evs3 & Htr3 & Hall).
  rewrite Hc2 in Hc3.
  assert (Hsu3 : successful_uploads env (r_trace r3) = successful_uploads env evs3)
    by (by rewrite Htr3, successful_uploads_app, Hs2).
  rewrite <- Hsu3 in Hall.
  destruct (map_exc (photo_record job data) (List.filter success uploadResults))
    as [photoRecords|e] eqn:Hmap; cbn [fst snd is_ok].
  2: { by split_and!. }
  apply map_exc_Forall2 in Hmap.
  assert (Hlen : length photoRecords = r_uploadedPhotos r3).
  { rewrite Hu3. symmetry. by eapply Forall2_length. }
  pose proof (records_rows data _ _ Hmap _ Hall) as Hrows.
  rewrite (rows_accepted (exec w (r_trace r3)) photoRecords _ Hrows).
  destruct (length photoRecords =? 0)%nat eqn:Hzero.
  - apply Nat.eqb_eq in Hzero. rewrite (proj2 (Nat.ltb_ge 0 _)) by lia. cbn [fst snd is_ok].
    split_and!; try done.
    + apply (good_quiet r3); [done|done| |cbn; destruct Hg3; lia].
      unfold ple, current; cbn. lia.
    + intros _. cbn [r_trace set_uploadedPhotos r_uploadedPhotos]. rewrite Hc3.
      split; [by rewrite Hzero|]. apply nil_length_inv in Hzero. by rewrite Hzero in Hrows.
  - apply Nat.eqb_neq in Hzero. rewrite (proj2 (Nat.ltb_lt 0 _)) by lia.
    destruct (bool_decide (is_Some (tbl_scans (exec w (r_trace r3)) !! scanId job)))
      eqn:Hscan; cbn [fst snd is_ok].
    + assert (Hcr4 : created_records (r_trace r3 ++ [ev_createMatchedPhotos photoRecords])
                     = photoRecords).
      { rewrite created_records_app, Hc3. cbn. by rewrite app_nil_r. }
      split_and!; try done.
      * apply (good_quiet r3); [done| | |cbn; destruct Hg3; lia].
        -- cbn [set_uploadedPhotos emit r_trace]. rewrite progress_updates_app. cbn.
           by rewrite app_nil_r.
        -- unfold ple, current; cbn. lia.
      * intros _. cbn [r_trace set_uploadedPhotos emit r_uploadedPhotos]. rewrite Hcr4.
        split; [done|]. rewrite successful_uploads_app. cbn. by rewrite app_nil_r.
    + by split_and!.
Qed.

(** ** A whole run *)

Lemma early_events_quiet (evs : list Event) :
  Forall (early_event (scanId job)) evs →
  created_records evs = [] ∧ Forall (λ e, stage_event e = false) evs.
Proof.
  induction 1 as [|e evs He _ [IH1 IH2]]; [by split|].
  rewrite created_records_cons.
  destruct e; try done; by split; [|constructor].
Qed.

Lemma good_emit_quiet (e : Event) (r : Run) :
  progress_updates [e] = [] → good r → good (emit e r).
Proof.
  intros He Hg. apply (good_quiet r); [done| |apply ple_refl|by destruct Hg].
  unfold emit. cbn [r_trace]. by rewrite progress_updates_app, He, app_nil_r.
Qed.

Lemma good_same_vars (r r' : Run) :
  good r → same_vars r r' →
  progress_updates (r_trace r') = progress_updates (r_trace r) → good r'.
Proof.
  intros Hg (Ht & Hs & Hm & Hu & _) Hp. pose proof Hg as (Hb & _).
  apply (good_quiet r); [done|done| |lia]. unfold ple, current; cbn. lia.
Qed.

Lemma early_events_no_uploads (evs : list Event) :
  Forall (early_event (scanId job)) evs → successful_uploads env evs = [].
Proof.
  induction 1 as [|e evs He _ IH]; [done|]. unfold successful_uploads in *. cbn.
  by destruct e.
Qed.

Lemma scan_events_quiet (evs : list Event) :
  Forall (scan_event (scanId job)) evs →
  created_records evs = [] ∧ successful_uploads env evs = [] ∧
  Forall (λ e, match e with ev_downloadPhotosInBatches _ | ev_matchFace _
                          | ev_jobProgress _ _ | ev_updateProgress _ _ => True
                          | _ => False end) evs.
Proof.
  induction 1 as [|e evs He _ (IH1 & IH2 & IH3)]; [by split_and!|].
  rewrite created_records_cons. unfold successful_uploads in *. cbn.
  destruct e; try done; by split_and!; [..|constructor].
Qed.

(** The events of the batch stage. *)
Lemma process_photos_events (cb tb : Z) (ds : list Downloaded) :
  ∀ r, ∃ evs,
    r_trace (process_photos env job cb tb ds r) = r_trace r ++ evs ∧
    Forall (scan_event (scanId job)) evs.
Proof.
  induction ds as [|photo ds IH]; intros r.
  - exists []. by rewrite app_nil_r.
  - change (process_photos env job cb tb (photo :: ds) r)
      with (process_photos env job cb tb ds (processPhoto env job cb tb photo r)).
    destruct (processPhoto_spec cb tb photo r) as (mr & st & _ & _ & _ & _ & _ & _ & Htr).
    destruct (IH (processPhoto env job cb tb photo r)) as (evs & Htr' & Hev).
    eexists. split; [rewrite Htr', Htr, <- app_assoc; reflexivity|].
    apply Forall_app. split; [|done].
    constructor; [done|]. destruct (tenth _); by repeat constructor.
Qed.

Lemma processBatch_events (cb tb : Z) (batch : list Photo) (r : Run) :
  ∃ evs,
    r_trace (processBatch env job cb tb batch r)
      = r_trace r ++ ev_downloadPhotosInBatches batch :: evs ∧
    Forall (scan_event (scanId job)) evs.
Proof.
  destruct (process_photos_events cb tb (downloadPhotosInBatches (thumbnail env) batch)
              (emit (ev_downloadPhotosInBatches batch) r)) as (evs & Htr & Hev).
  exists evs. split; [|done].
  change (processBatch env job cb tb batch r)
    with (process_photos env job cb tb (downloadPhotosInBatches (thumbnail env) batch)
            (emit (ev_downloadPhotosInBatches batch) r)).
  rewrite Htr. cbn [emit r_trace]. by rewrite <- app_assoc.
Qed.

Lemma batchLoop_events (allPhotos : list Photo) (bs tb i : Z) (fuel : nat) (r : Run) :
  ∃ evs,
    r_trace (batchLoop env job fuel allPhotos bs tb i r).2 = r_trace r ++ evs ∧
    Forall (scan_event (scanId job)) evs.
Proof.
  destruct (batchLoop_invariant
              (λ _ r', ∃ evs, r_trace r' = r_trace r ++ evs ∧
                              Forall (scan_event (scanId job)) evs)
              allPhotos bs tb) with (fuel := fuel) (i := i) (r := r) as (_ & Hevs & _);
    [| |done].
  - intros j r1 (evs & Htr & Hev) _.
    destruct (processBatch_events (j / bs + 1) tb (slice j (j + bs) allPhotos) r1)
      as (evs' & Htr' & Hev').
    eexists. split; [rewrite Htr', Htr, <- app_assoc; reflexivity|].
    apply Forall_app. split; [done|]. by constructor.
  - exists []. by rewrite app_nil_r.
Qed.

(** The invariant holds at the end of every run, also of one that never
    settles, and a run that resolves ends its trace in the completion
    shape. *)
Lemma processScan_spec (st : MatcherState) (w : World) :
  let res := processScan env job st w in
  good res.2 ∧
  (∀ result, res.1 = resolved result → completion_shape env job result (r_trace res.2)) ∧
  (∀ message, res.1 = rejected message → created_records (r_trace res.2) = []).
Proof.
  cbv zeta. unfold processScan.
  fold (started env job st). set (r1 := started env job st).
  assert (Hg1 : good r1) by (apply good_emit_quiet; [done|apply good_initial]).
  destruct (resolveAccessToken_spec r1)
    as ((Ht2 & Hs2 & Hm2 & Hu2 & Hd2) & evsT & Htr2 & HearlyT & HpuT).
  assert (Hc2 : created_records (r_trace (resolveAccessToken env job r1).2) = []).
  { rewrite Htr2, created_records_app.
    by destruct (early_events_quiet evsT HearlyT) as [-> _]. }
  assert (Hsu2 : successful_uploads env (r_trace (resolveAccessToken env job r1).2) = []).
  { by rewrite Htr2, successful_uploads_app, (early_events_no_uploads evsT HearlyT). }
  assert (Hq : ∀ r m, created_records (r_trace r) = [] →
                      created_records (r_trace (fail_scan env job m r).2) = []).
  { intros r m Hr. unfold fail_scan, emit. cbn [snd r_trace].
    by rewrite created_records_app, Hr. }
  destruct (resolveAccessToken env job r1) as [[accessToken|e] r2] eqn:Htok; cbn [snd] in *.
  2: { split_and!; [|done|intros m _; by apply Hq].
       unfold fail_scan. cbn [fst snd].
       apply good_emit_quiet; [done|].
       apply (good_same_vars r1); [done|done|].
       by rewrite Htr2, progress_updates_app, HpuT, app_nil_r. }
  assert (Hg2 : good r2).
  { apply (good_same_vars r1); [done|done|].
    by rewrite Htr2, progress_updates_app, HpuT, app_nil_r. }
  pose proof (fetchAllPhotos_enumerate (library env accessToken) [] 0 r2) as Henum.
  destruct (fetchAllPhotos_spec (library env accessToken) [] 0 r2 Hg2)
    as (Hg3 & Hs3 & Hm3 & Hu3 & Hd3 & Hok & evsF & Htr3 & HearlyF);
    [by rewrite Ht2|by rewrite Hs2|].
  assert (Hc3 : created_records (r_trace (fetchAllPhotos (library env accessToken) [] 0
                                            (onPageFetched job) r2).2) = []).
  { rewrite Htr3, created_records_app, Hc2.
    by destruct (early_events_quiet evsF HearlyF) as [-> _]. }
  assert (Hsu3 : successful_uploads env
                   (r_trace (fetchAllPhotos (library env accessToken) [] 0
                               (onPageFetched job) r2).2) = []).
  { by rewrite Htr3, successful_uploads_app, Hsu2, (early_events_no_uploads evsF HearlyF). }
  destruct (fetchAllPhotos (library env accessToken) [] 0 (onPageFetched job) r2)
    as [[allPhotos|e] r3] eqn:Hfetch; cbn [fst snd] in *.
  2: { split_and!; [|done|intros m _; by apply Hq].
       unfold fail_scan. cbn [fst snd]. by apply good_emit_quiet. }
  destruct (Hok allPhotos) as (Ht3 & pre & Hpre); [done|].
  assert (Hu3' : r_uploadedPhotos r3 = 0) by (rewrite Hu3, Hu2; done).
  destruct (length allPhotos =? 0)%nat eqn:Hzero; cbn [fst snd].
  { split_and!; [by apply good_emit_quiet| |done]. intros result [= <-].
    exists pre, (current r3). split_and!.
    - unfold emit. cbn [r_trace]. rewrite Hpre, <- app_assoc. done.
    - cbn. rewrite Ht3. by apply Nat.eqb_eq.
    - cbn. by rewrite Hm3, Hm2.
    - cbn. rewrite Hu3'. rewrite Hpre, created_records_app in Hc3.
      apply app_eq_nil in Hc3 as [-> _]. done.
    - rewrite Hpre, created_records_app in Hc3. apply app_eq_nil in Hc3 as [-> _].
      rewrite Hpre, successful_uploads_app in Hsu3. apply app_eq_nil in Hsu3 as [-> _].
      constructor. }
  set (bs := worker_batchSize (BATCH_SIZE env)).
  set (r4 := set_totalPhotos (length allPhotos) r3).
  set (tb := ceil_quot (r_totalPhotos r4) bs).
  assert (Hg4 : good r4).
  { apply (good_quiet r3); [done|done|unfold ple, current; cbn; lia|cbn; lia]. }
  set (r5 := emit (ev_updateProgress (scanId job) (progress_of r4 0 tb)) r4).
  assert (Hg5 : good r5) by apply good_emit_progress, Hg4.
  assert (Hc5 : created_records (r_trace r5) = []).
  { unfold r5, emit. cbn [r_trace]. rewrite created_records_app. cbn [r_trace r4 set_totalPhotos].
    rewrite Hc3. done. }
  assert (Hsu5 : successful_uploads env (r_trace r5) = []).
  { unfold r5, emit. cbn [r_trace r4 set_totalPhotos].
    by rewrite successful_uploads_app, Hsu3. }
  assert (Hidx : loop_index (length allPhotos) bs 0 r5).
  { split; intros _; split; [done|cbn; lia|done|cbn; lia]. }
  destruct (batchLoop_spec allPhotos bs tb 0 (length allPhotos) r5
              (worker_batchSize_nonzero _) Hg5 eq_refl Hidx) as (Hg6 & Ht6 & Hu6 & Hc6).
  destruct (batchLoop_events allPhotos bs tb 0 (length allPhotos) r5)
    as (evsB & Htr6 & HevB).
  destruct (scan_events_quiet evsB HevB) as (_ & HsuB & _).
  destruct (batchLoop env job (length allPhotos) allPhotos bs tb 0 r5) as [ended r6];
    cbn [fst snd] in *.
  destruct ended; [|by split_and!].
  assert (Hsu6 : successful_uploads env (r_trace r6) = [])
    by (by rewrite Htr6, successful_uploads_app, Hsu5, HsuB).
  destruct (uploadStage_spec w allPhotos tb r6 Hg6)
    as (Hg7 & Ht7 & Hs7 & Hm7 & Hdone & Hthrown);
    [by rewrite Hu6|by rewrite Hc6|done|].
  destruct (uploadStage env job w allPhotos tb r6) as [[[]|e] r7] eqn:Hstage; cbn [fst snd] in *.
  2: { split_and!; [|done|intros m _; apply Hq; by eapply Hthrown].
       unfold fail_scan. cbn [fst snd]. by apply good_emit_quiet. }
  destruct Hdone as [Hlen Hrows]; [done|].
  split_and!; [| |done].
  - apply good_emit_quiet; [done|]. by apply good_emit_progress.
  - intros result [= <-]. exists (r_trace r7), (progress_of r7 tb tb). split_and!.
    + unfold emit. cbn [r_trace]. by rewrite <- app_assoc.
    + done.
    + done.
    + done.
    + done.
Qed.

(** ** Traces only grow *)

Lemma extends_refl (r : Run) : extends r r.
Proof. exists []. by rewrite app_nil_r. Qed.

Lemma extends_trans (r1 r2 r3 : Run) : extends r1 r2 → extends r2 r3 → extends r1 r3.
Proof.
  intros [evs1 H1] [evs2 H2]. exists (evs1 ++ evs2). by rewrite H2, H1, app_assoc.
Qed.

Lemma extends_emit (e : Event) (r : Run) : extends r (emit e r).
Proof. by exists [e]. Qed.

Lemma extends_same_trace (r r' : Run) : r_trace r' = r_trace r → extends r r'.
Proof. intros H. exists []. by rewrite app_nil_r. Qed.

Lemma extends_elem (e : Event) (r r' : Run) : extends r r' → e ∈ r_trace r → e ∈ r_trace r'.
Proof. intros [evs ->] He. apply elem_of_app. by left. Qed.

Lemma extends_processBatch (cb tb : Z) (batch : list Photo) (r : Run) :
  extends r (processBatch env job cb tb batch r).
Proof.
  change (processBatch env job cb tb batch r)
    with (process_photos env job cb tb (downloadPhotosInBatches (thumbnail env) batch)
            (emit (ev_downloadPhotosInBatches batch) r)).
  eapply extends_trans; [apply extends_emit|].
  destruct (process_photos_spec cb tb (downloadPhotosInBatches (thumbnail env) batch)
              (emit (ev_downloadPhotosInBatches batch) r))
    as (_ & _ & _ & _ & evs & Htr & _).
  by exists evs.
Qed.

Lemma extends_batchLoop (allPhotos : list Photo) (bs tb i : Z) (fuel : nat) (r : Run) :
  extends r (batchLoop env job fuel allPhotos bs tb i r).2.
Proof.
  destruct (batchLoop_events allPhotos bs tb i fuel r) as (evs & Htr & _). by exists evs.
Qed.

Lemma extends_upload_each (tb : Z) (photos : list PhotoToUpload) :
  ∀ total completed r,
    extends r (upload_each (uploadPhoto env) photos total completed
                 (onUploadProgress job tb) r).2.
Proof.
  induction photos as [|photo rest IH]; intros total completed r; [apply extends_refl|].
  cbn [upload_each].
  destruct (uploadPhotoWithRetry (uploadPhoto env photo) default_maxRetries) as [[blob|e] evs].
  - match goal with
    | |- context [upload_each _ rest total ?c _ ?r'] =>
        pose proof (IH total c r') as Hext;
        destruct (upload_each (uploadPhoto env) rest total c (onUploadProgress job tb) r')
          as [results r3]
    end.
    cbn [snd] in *. eapply extends_trans; [|exact Hext].
    eapply extends_trans; [|apply extends_emit]. by eexists.
  - match goal with
    | |- context [upload_each _ rest total ?c _ ?r'] =>
        pose proof (IH total c r') as Hext;
        destruct (upload_each (uploadPhoto env) rest total c (onUploadProgress job tb) r')
          as [results r3]
    end.
    cbn [snd] in *. eapply extends_trans; [|exact Hext]. by eexists.
Qed.

Lemma extends_uploadStage (w : World) (allPhotos : list Photo) (tb : Z) (r : Run) :
  extends r (uploadStage env job w allPhotos tb r).2.
Proof.
  unfold uploadStage. destruct (0 <? length (r_matchedPhotosData r))%nat;
    [|apply extends_refl].
  unfold uploadPhotosInBatch.
  match goal with
  | |- context [upload_each _ ?ps ?t 0 _ ?r'] =>
      pose proof (extends_upload_each tb ps t 0 r') as Hext;
      destruct (upload_each (uploadPhoto env) ps t 0 (onUploadProgress job tb) r')
        as [results r3]
  end.
  cbn [snd] in Hext.
  assert (Hr3 : extends r r3).
  { eapply extends_trans; [|exact Hext].
    eapply extends_trans; apply extends_emit. }
  destruct (map_exc _ _) as [recs|e]; cbn [snd]; [|done].
  eapply extends_trans; [exact Hr3|].
  destruct (0 <? length recs)%nat; [|by apply extends_same_trace].
  destruct (createMatchedPhotos recs _).1; cbn [snd]; [|apply extends_refl].
  eapply extends_trans; [apply extends_emit|by apply extends_same_trace].
Qed.

Lemma extends_fetchAllPhotos (responses : list PageResponse) :
  ∀ photos pageCount r,
    extends r (fetchAllPhotos responses photos pageCount (onPageFetched job) r).2.
Proof.
  induction responses as [|[items next|message] rest IH]; intros photos pc r;
    [apply extends_refl| |apply extends_refl].
  cbn [fetchAllPhotos].
  assert (H1 : extends r (onPageFetched job (length (photos ++ items)) (S pc)
                            (emit (ev_fetchPage (S pc)) r))).
  { eapply extends_trans; [apply extends_emit|].
    unfold onPageFetched. eapply extends_trans; [|apply extends_emit].
    by apply extends_same_trace. }
  destruct next; [|done]. eapply extends_trans; [exact H1|apply IH].
Qed.

Lemma resolveAccessToken_fst (r r' : Run) :
  (resolveAccessToken env job r).1 = (resolveAccessToken env job r').1.
Proof.
  unfold resolveAccessToken.
  destruct (decrypt env (oauthToken job)); [|done]. cbv zeta.
  destruct (refresh_token _); [|done]. destruct (expiry_date _); [|done].
  destruct (_ <? _)%Z; [|done]. by destruct (refreshAccessToken env _).
Qed.

(** Whatever the stores hold, a run whose credential resolves sends the
    first page request to the library. *)
Lemma processScan_requests_first_page (st : MatcherState) (w : World)
    (accessToken : string) (items : list Photo) (next : bool) (rest : list PageResponse) :
  credential env job st = Ok accessToken →
  library env accessToken = page_ok items next :: rest →
  ev_fetchPage 1 ∈ r_trace (processScan env job st w).2.
Proof.
  unfold credential. intros Hcred Hlib. unfold processScan.
  fold (started env job st).
  destruct (resolveAccessToken env job (started env job st)) as [[tok|e] r2] eqn:Htok;
    cbn [fst] in Hcred; [|done].
  injection Hcred as ->.
  pose proof (extends_fetchAllPhotos rest ([] ++ items) 1
                (onPageFetched job (length ([] ++ items)) 1 (emit (ev_fetchPage 1) r2))) as Hrest.
  assert (Hin : ev_fetchPage 1 ∈
            r_trace (fetchAllPhotos (library env accessToken) [] 0 (onPageFetched job) r2).2).
  { rewrite Hlib. cbn [fetchAllPhotos].
    assert (H1 : ev_fetchPage 1 ∈
              r_trace (onPageFetched job (length ([] ++ items)) 1 (emit (ev_fetchPage 1) r2))).
    { unfold onPageFetched, emit, set_totalPhotos. cbn [r_trace].
      rewrite !elem_of_app, !list_elem_of_singleton. by left; right. }
    destruct next; [|done]. by eapply extends_elem. }
  destruct (fetchAllPhotos (library env accessToken) [] 0 (onPageFetched job) r2)
    as [[allPhotos|e] r3]; cbn [snd] in Hin.
  2: { unfold fail_scan. cbn [snd]. eapply extends_elem; [apply extends_emit|done]. }
  destruct (length allPhotos =? 0)%nat.
  { cbn [snd]. eapply extends_elem; [apply extends_emit|done]. }
  match goal with
  | |- context [batchLoop env job ?fuel allPhotos ?bs ?tb 0 ?r5] =>
      pose proof (extends_batchLoop allPhotos bs tb 0 fuel r5) as Hloop;
      assert (H5 : ev_fetchPage 1 ∈ r_trace r5)
        by (eapply extends_elem; [apply extends_emit|done]);
      destruct (batchLoop env job fuel allPhotos bs tb 0 r5) as [ended r6]
  end.
  cbn [snd] in Hloop.
  assert (H6 : ev_fetchPage 1 ∈ r_trace r6) by (by eapply extends_elem).
  destruct ended; [|done].
  pose proof (extends_uploadStage w allPhotos
                (ceil_quot (r_totalPhotos (set_totalPhotos (length allPhotos) r3))
                   (worker_batchSize (BATCH_SIZE env))) r6) as Hup.
  destruct (uploadStage env job w allPhotos _ r6) as [[[]|e] r7].
  - cbn [snd] in *. eapply extends_elem; [apply extends_emit|].
    eapply extends_elem; [apply extends_emit|]. by eapply extends_elem.
  - cbn [snd] in *. unfold fail_scan. cbn [snd].
    eapply extends_elem; [apply extends_emit|]. by eapply extends_elem.
Qed.

(** A run over an empty library resolves at once, having done nothing but
    mark the scan, resolve the credential and enumerate. *)
Lemma processScan_zero (st : MatcherState) (w : World) (accessToken : string) :
  credential env job st = Ok accessToken →
  enumerate (library env accessToken) [] = Ok [] →
  (processScan env job st w).1 = resolved zero_result ∧
  Forall (λ e, stage_event e = false) (r_trace (processScan env job st w).2).
Proof.
  unfold credential. intros Hcred Henum. unfold processScan.
  fold (started env job st).
  destruct (resolveAccessToken_spec (started env job st))
    as (_ & evsT & Htr2 & HearlyT & _).
  destruct (resolveAccessToken env job (started env job st)) as [[tok|e] r2] eqn:Htok;
    cbn [fst snd] in *; [|done].
  injection Hcred as ->.
  pose proof (fetchAllPhotos_enumerate (library env accessToken) [] 0 r2) as Hfst.
  assert (HearlyF : ∃ evsF,
            r_trace (fetchAllPhotos (library env accessToken) [] 0 (onPageFetched job) r2).2
              = r_trace r2 ++ evsF ∧ Forall (early_event (scanId job)) evsF).
  { clear Hfst Henum. generalize (@nil Photo) 0 r2.
    induction (library env accessToken) as [|[items next|message] rest IH];
      intros photos pc r.
    - exists []. by rewrite app_nil_r.
    - cbn [fetchAllPhotos].
      set (r1 := onPageFetched job (length (photos ++ items)) (S pc)
                   (emit (ev_fetchPage (S pc)) r)).
      assert (Htr1 : r_trace r1 = r_trace r ++
                [ev_fetchPage (S pc); ev_updateProgress (scanId job) (current r1)]).
      { unfold r1. cbn. by rewrite <- app_assoc. }
      destruct next.
      + destruct (IH (photos ++ items) (S pc) r1) as (evs & Htr & Hev).
        eexists. split; [rewrite Htr, Htr1, <- app_assoc; reflexivity|].
        apply Forall_app. split; [by repeat constructor|done].
      + eexists. split; [exact Htr1|by repeat constructor].
    - exists []. by rewrite app_nil_r. }
  destruct HearlyF as (evsF & Htr3 & HearlyF).
  destruct (fetchAllPhotos (library env accessToken) [] 0 (onPageFetched job) r2)
    as [fres r3]; cbn [fst snd] in *.
  rewrite Hfst, Henum. cbn [length Nat.eqb fst snd]. split; [done|].
  unfold emit. cbn [r_trace]. rewrite Htr3, Htr2.
  destruct (early_events_quiet evsT HearlyT) as [_ HqT].
  destruct (early_events_quiet evsF HearlyF) as [_ HqF].
  unfold started, emit. cbn [r_trace set_matcher initial_run app].
  constructor; [done|]. apply Forall_app. split; [|by repeat constructor].
  apply Forall_app. by split.
Qed.
End OrchestratorFacts.

(** ** The stores after a run *)


(** No event creates or deletes a Scan row. *)
Lemma exec_event_scans (w : World) (e : Event) (s : string) :
  ∃ g : Scan → Scan, tbl_scans (exec_event w e) !! s = g <$> tbl_scans w !! s.
Proof.
  assert (Hid : ∃ g : Scan → Scan, tbl_scans w !! s = g <$> tbl_scans w !! s)
    by (exists (λ row, row); by destruct (tbl_scans w !! s)).
  destruct e; cbn [exec_event]; try exact Hid;
    unfold markScanStarted, markScanCompleted, markScanFailed, updateProgress,
      updateScanProgress, createMatchedPhotos;
    try (rewrite update_where_id_scans; case_decide; [eexists; reflexivity|exact Hid]).
Qed.

Lemma exec_scans (tr : list Event) :
  ∀ w s, ∃ g : Scan → Scan, tbl_scans (exec w tr) !! s = g <$> tbl_scans w !! s.
Proof.
  induction tr as [|e tr IH]; intros w s.
  - exists (λ row, row). cbn. by destruct (tbl_scans w !! s).
  - change (exec w (e :: tr)) with (exec (exec_event w e) tr).
    destruct (IH (exec_event w e) s) as [g Hg].
    destruct (exec_event_scans w e s) as [g' Hg'].
    exists (g ∘ g'). rewrite Hg, Hg'. by destruct (tbl_scans w !! s).
Qed.



Lemma runJob_snd (env : Env) (job : Job) (st : MatcherState) (w : World) :
  (runJob env job st w).2 = exec w (r_trace (processScan env job st w).2).
Proof. unfold runJob. by destruct (processScan env job st w). Qed.

Lemma runJob_fst (env : Env) (job : Job) (st : MatcherState) (w : World) :
  (runJob env job st w).1 = (processScan env job st w).1.
Proof. unfold runJob. by destruct (processScan env job st w). Qed.

(** ** The match list *)

(** C3: for every downloaded thumbnail the matcher returns a result, and
    the orchestrator adds the photo to the match list, tagged with the
    confidence of that result, exactly when the confidence is above the
    match threshold of the configuration, which is 0.6 and is a value of
    [config.faceDetection], not of the orchestrator.  The orchestrator
    tests the [isMatch] flag of the result, and the matcher sets the flag
    on exactly the results whose confidence is above that threshold.  The
    draws of [Math.random] lie in [0, 1). *)
Theorem match_list_follows_threshold (env : Env) (job : Job) (cb tb : Z)
    (photo : Downloaded) (r : Run) :
  (∀ n, (0 <= random env n)%Q ∧ (random env n < 1)%Q) →
  ∃ mr st,
    matchFace (sizeOf env) (random env) (Some (d_buffer photo))
      (referenceEmbeddings job) (r_matcher r) = (Ok mr, st) ∧
    r_matchedPhotosData (processPhoto env job cb tb photo r) =
      (if above_threshold faceDetection_config mr
       then r_matchedPhotosData r ++ [match_data photo mr]
       else r_matchedPhotosData r) ∧
    googlePhotoId (match_data photo mr) = d_id photo ∧
    md_confidence (match_data photo mr) = confidence mr ∧
    isMatch mr = above_threshold faceDetection_config mr ∧
    matchThreshold faceDetection_config = (6 # 10)%Q.
Proof.
  intros Hrandom.
  destruct (processPhoto_spec env job cb tb photo r)
    as (mr & st & Hm & _ & _ & _ & _ & Hdata & _).
  exists mr, st.
  assert (Hflag : isMatch mr = above_threshold faceDetection_config mr).
  { destruct (matchFace_cases (sizeOf env) (random env) (Some (d_buffer photo))
                (referenceEmbeddings job) (r_matcher r)) as (mr' & st' & Hm' & Hcase).
    rewrite Hm in Hm'. injection Hm' as <- <-.
    destruct (unusable (sizeOf env) (Some (d_buffer photo))); [by subst mr|].
    destruct Hcase as (n & _ & Hconf & _).
    unfold above_threshold, Qgtb. rewrite Hconf. cbn [matchThreshold faceDetection_config].
    destruct (Hrandom (S n)) as [Hlo Hhi].
    destruct (isMatch mr).
    - destruct (Qle_bool _ _) eqn:E; [|done].
      apply Qle_bool_iff in E. exfalso. lra.
    - destruct (Qle_bool _ _) eqn:E; [done|].
      exfalso.
      assert (Hle : Qle_bool ((3 # 10) + random env (S n) * (2 # 10)) (6 # 10) = true).
      { apply Qle_bool_iff. lra. }
      congruence. }
  split_and!; try done. by rewrite <- Hflag.
Qed.

Lemma match_list_follows_threshold_witness :
  ∃ mr st,
    matchFace (sizeOf sample_env) (random sample_env) (Some (d_buffer sample_downloaded))
      (referenceEmbeddings sample_job) (r_matcher (set_matcher fresh_matcher initial_run))
      = (Ok mr, st) ∧
    r_matchedPhotosData (processPhoto sample_env sample_job 1 1 sample_downloaded
                           (set_matcher fresh_matcher initial_run)) =
      (if above_threshold faceDetection_config mr
       then r_matchedPhotosData (set_matcher fresh_matcher initial_run)
              ++ [match_data sample_downloaded mr]
       else r_matchedPhotosData (set_matcher fresh_matcher initial_run)) ∧
    googlePhotoId (match_data sample_downloaded mr) = d_id sample_downloaded ∧
    md_confidence (match_data sample_downloaded mr) = confidence mr ∧
    isMatch mr = above_threshold faceDetection_config mr ∧
    matchThreshold faceDetection_config = (6 # 10)%Q.
Proof.
  apply (match_list_follows_threshold sample_env sample_job 1 1 sample_downloaded
           (set_matcher fresh_matcher initial_run)).
  intros n. split; [unfold Qle|unfold Qlt]; simpl; lia.
Defined.

(** ** Progress during batch processing *)

(** The counters after the first photos of a batch. *)
Lemma process_photos_counts (env : Env) (job : Job) (cb tb : Z) (ds : list Downloaded) :
  ∀ r,
    let r' := process_photos env job cb tb ds r in
    r_scannedPhotos r' = r_scannedPhotos r + length ds ∧
    r_matchedPhotos r' + length (r_matchedPhotosData r)
      = r_matchedPhotos r + length (r_matchedPhotosData r').
Proof.
  induction ds as [|photo ds IH]; intros r; cbv zeta; [cbn; lia|].
  change (process_photos env job cb tb (photo :: ds) r)
    with (process_photos env job cb tb ds (processPhoto env job cb tb photo r)).
  destruct (processPhoto_spec env job cb tb photo r)
    as (mr & st & _ & _ & Hs & Hm & _ & Hd & _).
  destruct (IH (processPhoto env job cb tb photo r)) as [IHs IHm].
  rewrite IHs, Hs. split; [cbn; lia|].
  rewrite Hm, Hd in IHm. destruct (isMatch mr); [rewrite length_app in IHm; cbn in IHm|]; lia.
Qed.

(** The updates of a batch, one by one. *)
Lemma process_photos_updates (env : Env) (job : Job) (cb tb : Z) (ds : list Downloaded) :
  ∀ r, ∃ evs,
    r_trace (process_photos env job cb tb ds r) = r_trace r ++ evs ∧
    progress_updates evs = omap (update_after env job cb tb ds r) (seq 1 (length ds)).
Proof.
  induction ds as [|photo ds IH]; intros r.
  - exists []. by rewrite app_nil_r.
  - change (process_photos env job cb tb (photo :: ds) r)
      with (process_photos env job cb tb ds (processPhoto env job cb tb photo r)).
    destruct (processPhoto_spec env job cb tb photo r)
      as (mr & st & _ & Ht & Hs & Hm & Hu & _ & Htr).
    destruct (IH (processPhoto env job cb tb photo r)) as (evs & Htr' & Hups).
    eexists. split; [rewrite Htr', Htr, <- app_assoc; reflexivity|].
    rewrite <- app_comm_cons. unfold progress_updates in *.
    cbn [omap list_omap length seq]. rewrite omap_app, Hups.
    assert (Hshift : ∀ l,
              omap (update_after env job cb tb (photo :: ds) r) (map S l)
              = omap (update_after env job cb tb ds (processPhoto env job cb tb photo r)) l).
    { induction l as [|k l IHl]; [done|]. cbn [map omap list_omap]. by rewrite IHl. }
    rewrite <- (seq_shift (length ds) 1), Hshift.
    unfold update_after at 2. cbn [take]. rewrite take_0.
    change (process_photos env job cb tb [photo] r) with (processPhoto env job cb tb photo r).
    rewrite Hs. unfold progress_of. rewrite Ht, Hs, Hm, Hu.
    by destruct (tenth (S (r_scannedPhotos r))).
Qed.

(** C4, as stated, fails: a batch of three photos ends without any
    progress update, and in a run of two batches no update is ever pushed
    for the first batch. *)
Lemma batch_ends_without_progress_update :
  let r := processBatch sample_env sample_job 1 1 sample_photos
             (set_matcher fresh_matcher initial_run) in
  let run := (processScan sample_env sample_job fresh_matcher (sample_world pending)).2 in
  r_scannedPhotos r = 3 ∧
  progress_updates (r_trace r) = [] ∧
  map currentBatch (progress_updates (r_trace run)) = [0; 0; 2; 2; 2; 2]%Z ∧
  map scannedPhotos (progress_updates (r_trace run)) = [0; 0; 3; 3; 3; 3].
Proof. cbv zeta. repeat split; vm_compute; reflexivity. Qed.

(** C4 (amended): while a batch is processed, a progress update is pushed
    exactly after each evaluated photo that brings the scanned count of the
    run to a multiple of 10.  The update is built from the variables as
    they are once that photo is counted: the total, the scanned count
    reached, the matched count reached (which grows with the match list),
    the uploaded count, and the current and total batch index.  Nothing is
    pushed for the end of a batch as such. *)
Theorem batch_progress_every_tenth_item (env : Env) (job : Job) (cb tb : Z)
    (batch : list Photo) (r : Run) :
  let downloadedPhotos := downloadPhotosInBatches (thumbnail env) batch in
  let r0 := emit (ev_downloadPhotosInBatches batch) r in
  let r' := processBatch env job cb tb batch r in
  r_scannedPhotos r' = r_scannedPhotos r + length downloadedPhotos ∧
  (∀ k, let rk := process_photos env job cb tb (take k downloadedPhotos) r0 in
        r_scannedPhotos rk = r_scannedPhotos r + length (take k downloadedPhotos) ∧
        r_matchedPhotos rk + length (r_matchedPhotosData r)
          = r_matchedPhotos r + length (r_matchedPhotosData rk)) ∧
  ∃ evs,
    r_trace r' = r_trace r ++ ev_downloadPhotosInBatches batch :: evs ∧
    progress_updates evs =
      omap (update_after env job cb tb downloadedPhotos r0) (seq 1 (length downloadedPhotos)) ∧
    map scannedPhotos (progress_updates evs) =
      List.filter tenth (seq (S (r_scannedPhotos r)) (length downloadedPhotos)) ∧
    Forall (batch_update r r' cb tb) (progress_updates evs).
Proof.
  cbv zeta.
  change (processBatch env job cb tb batch r)
    with (process_photos env job cb tb (downloadPhotosInBatches (thumbnail env) batch)
            (emit (ev_downloadPhotosInBatches batch) r)).
  destruct (process_photos_spec env job cb tb (downloadPhotosInBatches (thumbnail env) batch)
              (emit (ev_downloadPhotosInBatches batch) r))
    as (_ & Hs & _ & _ & evs & Htr & Hsc & Hall & _).
  destruct (process_photos_updates env job cb tb
              (downloadPhotosInBatches (thumbnail env) batch)
              (emit (ev_downloadPhotosInBatches batch) r)) as (evs' & Htr' & Hups).
  assert (evs' = evs) as -> by (rewrite Htr in Htr'; by apply app_inv_head in Htr').
  split; [exact Hs|]. split.
  - intros k.
    apply (process_photos_counts env job cb tb
             (take k (downloadPhotosInBatches (thumbnail env) batch))
             (emit (ev_downloadPhotosInBatches batch) r)).
  - exists evs. split_and!; [|exact Hups|exact Hsc|exact Hall].
    rewrite Htr. unfold emit. cbn [r_trace]. by rewrite <- app_assoc.
Qed.

(** ** A scan that cannot be found *)

(** C5, as stated, fails: for a scan id that no row carries the run does
    not fail at step 1; over an empty library it enumerates and resolves,
    and over the sample library it goes on to evaluate every photo. *)
Lemma missing_scan_run_completes :
  let w := mkWorld ∅ [] ∅ ∅ in
  getScanById (scanId sample_job) w = None ∧
  (runJob empty_library_env sample_job fresh_matcher w).1 = resolved zero_result ∧
  r_trace (processScan empty_library_env sample_job fresh_matcher w).2 =
    [ev_markScanStarted scan_1 1; ev_fetchPage 1;
     ev_updateProgress scan_1 (mkProgress 0 0 0 0 0 0);
     ev_markScanCompleted scan_1 2] ∧
  omap (λ e, match e with ev_matchFace photo => Some photo | _ => None end)
    (r_trace (processScan sample_env sample_job fresh_matcher w).2) = ["a"; "b"; "c"].
Proof. cbv zeta. repeat split; vm_compute; reflexivity. Qed.

(** C5 (amended): when no Scan row carries the given id, [markScanStarted]
    updates nothing and raises no error (it returns [undefined]); the run
    goes on: once the credential resolves the first page of the library is
    requested, and over an empty library the run resolves with "No photos
    found".  No Scan row is created by the run. *)
Theorem missing_scan_run_continues (env : Env) (job : Job) (st : MatcherState) (w : World) :
  getScanById (scanId job) w = None →
  markScanStarted (scanId job) (clock_start env) w = (None, w) ∧
  (∀ accessToken items next rest,
     credential env job st = Ok accessToken →
     library env accessToken = page_ok items next :: rest →
     ev_fetchPage 1 ∈ r_trace (processScan env job st w).2) ∧
  (∀ accessToken,
     credential env job st = Ok accessToken →
     enumerate (library env accessToken) [] = Ok [] →
     (runJob env job st w).1 = resolved zero_result) ∧
  getScanById (scanId job) (runJob env job st w).2 = None.
Proof.
  unfold getScanById. intros Habsent. split_and!.
  - unfold markScanStarted. by apply update_where_id_absent.
  - intros accessToken items next rest. apply processScan_requests_first_page.
  - intros accessToken Hcred Henum. rewrite runJob_fst.
    by destruct (processScan_zero env job st w accessToken Hcred Henum).
  - rewrite runJob_snd.
    destruct (exec_scans (r_trace (processScan env job st w).2) w (scanId job)) as [g ->].
    by rewrite Habsent.
Qed.

Lemma missing_scan_run_continues_witness :
  markScanStarted (scanId sample_job) (clock_start empty_library_env) (mkWorld ∅ [] ∅ ∅)
    = (None, mkWorld ∅ [] ∅ ∅) ∧
  (∀ accessToken items next rest,
     credential empty_library_env sample_job fresh_matcher = Ok accessToken →
     library empty_library_env accessToken = page_ok items next :: rest →
     ev_fetchPage 1 ∈ r_trace (processScan empty_library_env sample_job fresh_matcher
                                 (mkWorld ∅ [] ∅ ∅)).2) ∧
  (∀ accessToken,
     credential empty_library_env sample_job fresh_matcher = Ok accessToken →
     enumerate (library empty_library_env accessToken) [] = Ok [] →
     (runJob empty_library_env sample_job fresh_matcher (mkWorld ∅ [] ∅ ∅)).1
       = resolved zero_result) ∧
  getScanById (scanId sample_job)
    (runJob empty_library_env sample_job fresh_matcher (mkWorld ∅ [] ∅ ∅)).2 = None.
Proof.
  apply (missing_scan_run_continues empty_library_env sample_job fresh_matcher
           (mkWorld ∅ [] ∅ ∅)).
  vm_compute; reflexivity.
Defined.

(** ** Rows and counters at completion *)




(** ** Counters across the updates of a run *)

(** C7: in every run, each progress update has its scanned count within
    its total, and the total, scanned, matched and uploaded counts never
    decrease from one update to the next. *)
Theorem progress_counters_monotone (env : Env) (job : Job) (st : MatcherState)
    (w : World) :
  let updates := progress_updates (r_trace (processScan env job st w).2) in
  Forall (λ p, scannedPhotos p ≤ totalPhotos p) updates ∧
  nondecreasing updates ∧
  (∀ i p q, updates !! i = Some p → updates !! S i = Some q →
     totalPhotos p ≤ totalPhotos q ∧ scannedPhotos p ≤ scannedPhotos q ∧
     matchedPhotos p ≤ matchedPhotos q ∧ uploadedPhotos p ≤ uploadedPhotos q).
Proof.
  cbv zeta. destruct (processScan_spec env job st w) as [(_ & Hall & Hmono) _].
  split_and!.
  - eapply Forall_impl; [exact Hall|]. by intros p [_ Hb].
  - exact Hmono.
  - intros i p q Hp Hq. by apply (nondecreasing_lookup _ i p q Hmono).
Qed.

(** ** An empty library *)

Lemma stage_free_no_records (tr : list Event) :
  Forall (λ e, stage_event e = false) tr → created_records tr = [].
Proof.
  induction 1 as [|e tr He _ IH]; [done|].
  rewrite created_records_cons. by destruct e.
Qed.



(** * Further properties *)

(** ** Retry with backoff *)

Lemma total_wait_app (l1 l2 : list UploadEvent) :
  total_wait (l1 ++ l2) = total_wait l1 + total_wait l2.
Proof.
  induction l1 as [|[n|ms] l1 IH]; cbn [app total_wait]; [done|done|]. rewrite IH. lia.
Qed.

Lemma total_wait_failed_attempts (count : nat) :
  ∀ first, 0 < first →
    total_wait (failed_attempts first count) + 2 ^ (first - 1) * 1000
      = 2 ^ (first - 1 + count) * 1000.
Proof.
  induction count as [|count IH]; intros first Hfirst; cbn [failed_attempts total_wait].
  - by rewrite Nat.add_0_r.
  - specialize (IH (S first) ltac:(lia)).
    replace (S first - 1) with (S (first - 1)) in IH by lia.
    replace (first - 1 + S count) with (S (first - 1) + count) by lia.
    rewrite <- IH. rewrite Nat.pow_succ_r'. lia.
Qed.

Lemma attempts_failed_attempts (count : nat) :
  ∀ first, attempts (failed_attempts first count ++ [upload_attempt (first + count)])
           = seq first (S count).
Proof.
  induction count as [|count IH]; intros first; cbn [failed_attempts app].
  - unfold attempts. cbn. by rewrite Nat.add_0_r.
  - unfold attempts in *. cbn [omap list_omap seq]. fold (@omap list _).
    f_equal. change (S first :: seq (S (S first)) count) with (seq (S first) (S count)).
    replace (first + S count) with (S first + count) by lia. apply IH.
Qed.

(** The loop entered at [attempt], when the attempts before [k] fail and
    attempt [k] succeeds. *)
Lemma retry_loop_first_success (up : nat → exc Blob) (maxRetries k : nat) (blob : Blob) :
  up k = Ok blob → k ≤ maxRetries →
  ∀ count attempt,
    attempt + count = k →
    (∀ j, attempt ≤ j < k → is_ok (up j) = false) →
    retry_loop up maxRetries (S maxRetries - attempt) attempt
      = (Ok (Some blob), failed_attempts attempt count ++ [upload_attempt k]).
Proof.
  intros Hk Hle. induction count as [|count IH]; intros attempt Hsum Hfail.
  - replace attempt with k in * by lia.
    replace (S maxRetries - k) with (S (maxRetries - k)) by lia.
    cbn [retry_loop failed_attempts app]. by rewrite Hk.
  - replace (S maxRetries - attempt) with (S (S maxRetries - S attempt)) by lia.
    cbn [retry_loop failed_attempts app].
    pose proof (Hfail attempt ltac:(lia)) as Hthis.
    destruct (up attempt) as [b|e]; [done|].
    destruct (Nat.eqb_spec attempt maxRetries) as [->|_]; [lia|].
    rewrite (IH (S attempt)); [done|lia|]. intros j Hj. apply Hfail. lia.
Qed.

(** X1: [uploadPhotoWithRetry] stops at the first attempt that succeeds:
    when attempts 1 to k-1 fail and attempt k (within the limit) succeeds,
    it returns the blob of attempt k after exactly the attempts 1..k, having
    waited 1000, 2000, ... milliseconds between them,
    (2^(k-1) - 1) * 1000 in all. *)
Theorem upload_retry_first_success (up : nat → exc Blob) (maxRetries k : nat) (blob : Blob) :
  1 ≤ k ≤ maxRetries →
  (∀ j, 1 ≤ j < k → is_ok (up j) = false) →
  up k = Ok blob →
  let res := uploadPhotoWithRetry up maxRetries in
  res = (Ok (Some blob), failed_attempts 1 (k - 1) ++ [upload_attempt k]) ∧
  attempts res.2 = seq 1 k ∧
  total_wait res.2 + 1000 = 2 ^ (k - 1) * 1000.
Proof.
  intros [Hk1 Hk2] Hfail Hk. cbv zeta. unfold uploadPhotoWithRetry.
  pose proof (retry_loop_first_success up maxRetries k blob Hk Hk2 (k - 1) 1
                ltac:(lia) Hfail) as Hloop.
  replace (S maxRetries - 1) with maxRetries in Hloop by lia.
  rewrite Hloop. split; [done|]. cbn [snd]. split.
  - pose proof (attempts_failed_attempts (k - 1) 1) as Ha.
    replace (1 + (k - 1)) with k in Ha by lia. rewrite Ha. f_equal. lia.
  - rewrite total_wait_app. cbn [total_wait].
    pose proof (total_wait_failed_attempts (k - 1) 1 ltac:(lia)) as Hw.
    cbn [Nat.sub Nat.pow Nat.add] in Hw. lia.
Qed.

Lemma upload_retry_first_success_witness :
  let up := λ n, if (n <? 2)%nat then Throw "SlowDown" else Ok (mkBlob "u" "k") in
  let res := uploadPhotoWithRetry up 3 in
  res = (Ok (Some (mkBlob "u" "k")), failed_attempts 1 (2 - 1) ++ [upload_attempt 2]) ∧
  attempts res.2 = seq 1 2 ∧
  total_wait res.2 + 1000 = 2 ^ (2 - 1) * 1000.
Proof.
  cbv zeta.
  apply (upload_retry_first_success
           (λ n, if (n <? 2)%nat then Throw "SlowDown" else Ok (mkBlob "u" "k"))
           3 2 (mkBlob "u" "k")).
  - lia.
  - intros j Hj. assert (j = 1) as -> by lia. reflexivity.
  - reflexivity.
Defined.

Lemma retry_loop_step (up : nat → exc Blob) (maxRetries remaining attempt : nat) :
  retry_loop up maxRetries (S remaining) attempt =
    match up attempt with
    | Ok blob => (Ok (Some blob), [upload_attempt attempt])
    | Throw error =>
        if (attempt =? maxRetries)%nat then (Throw error, [upload_attempt attempt])
        else
          let '(res, evs) := retry_loop up maxRetries remaining (S attempt) in
          (res, upload_attempt attempt :: upload_wait (2 ^ (attempt - 1) * 1000) :: evs)
    end.
Proof. reflexivity. Qed.

Lemma retry_loop_all_fail (up : nat → exc Blob) (maxRetries : nat) (error : string) :
  up maxRetries = Throw error →
  ∀ count attempt,
    attempt + count = maxRetries → 0 < attempt →
    (∀ j, attempt ≤ j ≤ maxRetries → is_ok (up j) = false) →
    retry_loop up maxRetries (S count) attempt
      = (Throw error, failed_attempts attempt count ++ [upload_attempt maxRetries]).
Proof.
  intros Hlast. induction count as [|count IH]; intros attempt Hsum Hpos Hfail.
  - replace attempt with maxRetries in * by lia.
    rewrite retry_loop_step. cbn [failed_attempts app]. rewrite Hlast.
    by rewrite Nat.eqb_refl.
  - rewrite retry_loop_step. cbn [failed_attempts app].
    pose proof (Hfail attempt ltac:(lia)) as Hthis.
    destruct (up attempt) as [b|e]; [done|].
    destruct (Nat.eqb_spec attempt maxRetries) as [->|_]; [lia|].
    rewrite (IH (S attempt)); [done|lia|lia|]. intros j Hj. apply Hfail. lia.
Qed.

(** X2: when every attempt up to the limit fails, [uploadPhotoWithRetry]
    makes exactly [maxRetries] attempts, waits after each but the last
    ((2^(maxRetries-1) - 1) * 1000 milliseconds in all), and throws the
    error of the last attempt. *)
Theorem upload_retry_exhausted (up : nat → exc Blob) (maxRetries : nat) (error : string) :
  1 ≤ maxRetries →
  (∀ j, 1 ≤ j ≤ maxRetries → is_ok (up j) = false) →
  up maxRetries = Throw error →
  let res := uploadPhotoWithRetry up maxRetries in
  res = (Throw error, failed_attempts 1 (maxRetries - 1) ++ [upload_attempt maxRetries]) ∧
  attempts res.2 = seq 1 maxRetries ∧
  total_wait res.2 + 1000 = 2 ^ (maxRetries - 1) * 1000.
Proof.
  intros Hpos Hfail Hlast. cbv zeta. unfold uploadPhotoWithRetry.
  pose proof (retry_loop_all_fail up maxRetries error Hlast (maxRetries - 1) 1
                ltac:(lia) ltac:(lia) Hfail) as Hloop.
  replace (S (maxRetries - 1)) with maxRetries in Hloop by lia.
  rewrite Hloop. split; [done|]. cbn [snd]. split.
  - pose proof (attempts_failed_attempts (maxRetries - 1) 1) as Ha.
    replace (1 + (maxRetries - 1)) with maxRetries in Ha by lia. rewrite Ha. f_equal. lia.
  - rewrite total_wait_app. cbn [total_wait].
    pose proof (total_wait_failed_attempts (maxRetries - 1) 1 ltac:(lia)) as Hw.
    cbn [Nat.sub Nat.pow Nat.add] in Hw. lia.
Qed.

Lemma upload_retry_exhausted_witness :
  let res := uploadPhotoWithRetry (λ _, Throw "AccessDenied") 5 in
  res = (Throw "AccessDenied", failed_attempts 1 (5 - 1) ++ [upload_attempt 5]) ∧
  attempts res.2 = seq 1 5 ∧
  total_wait res.2 + 1000 = 2 ^ (5 - 1) * 1000.
Proof.
  cbv zeta.
  apply (upload_retry_exhausted (λ _, Throw "AccessDenied") 5 "AccessDenied").
  - lia.
  - intros j Hj. reflexivity.
  - reflexivity.
Defined.

Lemma withRetry_loop_retry_loop (fn : nat → exc Blob) (maxRetries : nat) :
  ∀ remaining i,
    i + remaining = maxRetries →
    withRetry_loop fn maxRetries remaining i
      = retry_loop (λ attempt, fn (attempt - 1)) maxRetries remaining (S i).
Proof.
  induction remaining as [|remaining IH]; intros i Hsum; [done|].
  cbn [withRetry_loop retry_loop]. replace (S i - 1) with i by lia.
  replace (i + 1) with (S i) by lia.
  destruct (fn i) as [b|e]; [done|].
  replace (i =? maxRetries - 1)%nat with (S i =? maxRetries)%nat.
  2: { destruct (Nat.eqb_spec (S i) maxRetries), (Nat.eqb_spec i (maxRetries - 1)); lia || done. }
  destruct (S i =? maxRetries)%nat; [done|].
  rewrite IH by lia. done.
Qed.

(** X3: the two retry helpers follow one policy: [withRetry] of
    googlePhotos.js, whose calls are counted from 0, returns the same
    result after the same attempts and the same waits as
    [uploadPhotoWithRetry] of s3Upload.js, for every limit. *)
Theorem withRetry_agrees_with_upload_retry (fn : nat → exc Blob) (maxRetries : nat) :
  withRetry fn maxRetries = uploadPhotoWithRetry (λ attempt, fn (attempt - 1)) maxRetries.
Proof.
  unfold withRetry, uploadPhotoWithRetry. by apply withRetry_loop_retry_loop.
Qed.

(** ** Bulk download and bulk upload *)

(** X5: a bulk download returns exactly the photos whose download
    succeeded, in the order of the input, each with the buffer that was
    downloaded and the id of its photo; the failed ones are left out. *)
Theorem download_all_keeps_successes (download : Photo → exc Buffer) (photos : list Photo) :
  map d_metadata (download_all download photos)
    = List.filter (λ photo, is_ok (download photo)) photos ∧
  Forall (λ d, d_id d = p_id (d_metadata d) ∧ download (d_metadata d) = Ok (d_buffer d))
    (download_all download photos).
Proof.
  unfold download_all. induction photos as [|photo photos [IH1 IH2]]; [by split|].
  cbn. destruct (download photo) as [buffer|e] eqn:Hd; cbn in *; [|by split].
  split; [by rewrite IH1|]. constructor; [by cbn|done].
Qed.

Lemma download_all_app (download : Photo → exc Buffer) (l1 l2 : list Photo) :
  download_all download (l1 ++ l2) = download_all download l1 ++ download_all download l2.
Proof. unfold download_all. apply omap_app. Qed.

Section BulkUpload.
Variable env : Env.
Variable job : Job.

Lemma upload_each_results (tb : Z) (photos : list PhotoToUpload) :
  ∀ total completed r,
    let res := upload_each (uploadPhoto env) photos total completed (onUploadProgress job tb) r in
    map originalId res.1 = map u_id photos ∧
    Forall2 (λ photo result,
               success result
                 = is_ok (uploadPhotoWithRetry (uploadPhoto env photo) default_maxRetries).1)
      photos res.1 ∧
    ∃ evs,
      r_trace res.2 = r_trace r ++ evs ∧
      map uploadedPhotos (progress_updates evs)
        = seq (S completed) (length (List.filter success res.1)).
Proof.
  induction photos as [|photo rest IH]; intros total completed r; cbv zeta.
  - cbn. split_and!; [done|constructor|]. exists []. by rewrite app_nil_r.
  - cbn [upload_each].
    destruct (uploadPhotoWithRetry (uploadPhoto env photo) default_maxRetries)
      as [res evs0] eqn:Hretry.
    destruct (upload_events_quiet photo evs0) as [Hq _].
    destruct res as [blob|e].
    + match goal with
      | |- context [upload_each _ rest total ?c _ ?r'] =>
          specialize (IH total c r'); cbv zeta in IH;
          destruct (upload_each (uploadPhoto env) rest total c (onUploadProgress job tb) r')
            as [results r3]
      end.
      cbn [fst snd] in *. destruct IH as (Hids & Hsucc & evs & Htr & Hups).
      split_and!.
      * cbn. by rewrite Hids.
      * constructor; [by rewrite Hretry|done].
      * eexists. split.
        { rewrite Htr. unfold onUploadProgress, emit, emit_all, set_uploadedPhotos.
          cbn [r_trace]. rewrite <- !app_assoc. reflexivity. }
        rewrite !progress_updates_app, Hq. cbn [app].
        rewrite progress_updates_cons. unfold progress_updates in *.
        cbn in Hups |- *. by rewrite Hups.
    + match goal with
      | |- context [upload_each _ rest total ?c _ ?r'] =>
          specialize (IH total c r'); cbv zeta in IH;
          destruct (upload_each (uploadPhoto env) rest total c (onUploadProgress job tb) r')
            as [results r3]
      end.
      cbn [fst snd] in *. destruct IH as (Hids & Hsucc & evs & Htr & Hups).
      split_and!.
      * cbn. by rewrite Hids.
      * constructor; [by rewrite Hretry|done].
      * eexists. split.
        { rewrite Htr. unfold emit_all. cbn [r_trace]. rewrite <- !app_assoc. reflexivity. }
        rewrite !progress_updates_app, Hq. cbn [app List.filter success]. exact Hups.
Qed.
End BulkUpload.

(** X4: [uploadPhotosInBatch] returns one result for each photo handed in,
    in the order of the input and under the id of that photo; a result
    reports success exactly when the retried upload of its photo returned;
    and the progress callback runs once for each success, with the counts
    1, 2, ..., up to the number of successes. *)
Theorem uploadPhotosInBatch_results (env : Env) (job : Job) (tb : Z)
    (photos : list PhotoToUpload) (r : Run) :
  let res := uploadPhotosInBatch (uploadPhoto env) photos (onUploadProgress job tb) r in
  map originalId res.1 = map u_id photos ∧
  Forall2 (λ photo result,
             success result
               = is_ok (uploadPhotoWithRetry (uploadPhoto env photo) default_maxRetries).1)
    photos res.1 ∧
  ∃ evs,
    r_trace res.2 = r_trace r ++ ev_uploadPhotosInBatch (map u_id photos) :: evs ∧
    map uploadedPhotos (progress_updates evs)
      = seq 1 (length (List.filter success res.1)).
Proof.
  cbv zeta. unfold uploadPhotosInBatch.
  destruct (upload_each_results env job tb photos (length photos) 0
              (emit (ev_uploadPhotosInBatch (map u_id photos)) r))
    as (Hids & Hsucc & evs & Htr & Hups).
  split_and!; [done|done|]. exists evs. split; [|done].
  rewrite Htr. unfold emit. cbn [r_trace]. by rewrite <- app_assoc.
Qed.

(** ** Enumeration *)

Lemma fetchAllPhotos_serve (job : Job) (pages : list (list Photo)) (last : list Photo)
    (rest : list PageResponse) :
  ∀ photos pageCount r,
    let res := fetchAllPhotos (serve pages last ++ rest) photos pageCount
                 (onPageFetched job) r in
    res.1 = Ok (photos ++ concat pages ++ last) ∧
    r_totalPhotos res.2 = length (photos ++ concat pages ++ last) ∧
    ∃ evs,
      r_trace res.2 = r_trace r ++ evs ∧
      page_requests evs = seq (S pageCount) (S (length pages)) ∧
      map totalPhotos (progress_updates evs)
        = running_totals (length photos) (pages ++ [last]).
Proof.
  unfold serve. induction pages as [|items pages IH]; intros photos pc r; cbv zeta.
  - cbn [map app fetchAllPhotos concat fst snd length].
    split_and!; [done|done|]. eexists. split.
    { unfold onPageFetched, emit, set_totalPhotos. cbn [r_trace].
      rewrite <- app_assoc. reflexivity. }
    split; [done|]. cbn. by rewrite length_app.
  - cbn [map app fetchAllPhotos concat].
    match goal with
    | |- context [fetchAllPhotos _ ?ph ?c _ ?r'] =>
        specialize (IH ph c r'); cbv zeta in IH;
        destruct IH as (Hres & Htot & evs & Htr & Hreq & Hups)
    end.
    rewrite <- !app_assoc in *. split_and!; [done|done|].
    eexists. split.
    { rewrite Htr. unfold onPageFetched, emit, set_totalPhotos. cbn [r_trace].
      rewrite <- !app_assoc. reflexivity. }
    cbn [app]. unfold page_requests in *. rewrite progress_updates_cons.
    cbn [omap list_omap]. fold (@omap list _). rewrite progress_updates_cons.
    cbn [map totalPhotos progress_of r_totalPhotos running_totals length seq].
    rewrite length_app in Hups.
    split; [f_equal; exact Hreq|rewrite length_app; f_equal; exact Hups].
Qed.

(** X6: over a library that serves its pages one after the other,
    [fetchAllPhotos] returns the photos of all pages in order, requests each
    page once and none after the page that carries no token, and reports
    after each page the number of photos fetched so far. *)
Theorem fetchAllPhotos_pages (job : Job) (pages : list (list Photo)) (last : list Photo)
    (rest : list PageResponse) (r : Run) :
  let res := fetchAllPhotos (serve pages last ++ rest) [] 0 (onPageFetched job) r in
  res.1 = Ok (concat pages ++ last) ∧
  r_totalPhotos res.2 = length (concat pages ++ last) ∧
  ∃ evs,
    r_trace res.2 = r_trace r ++ evs ∧
    page_requests evs = seq 1 (S (length pages)) ∧
    map totalPhotos (progress_updates evs) = running_totals 0 (pages ++ [last]).
Proof. exact (fetchAllPhotos_serve job pages last rest [] 0 r). Qed.

(** ** The counters of a whole run *)

Lemma tidy_run_step (r r' : Run) (new : list Progress) :
  tidy_run r →
  progress_updates (r_trace r') = progress_updates (r_trace r) ++ new →
  Forall tidy new →
  r_matchedPhotos r' = length (r_matchedPhotosData r') →
  r_matchedPhotos r' ≤ r_scannedPhotos r' →
  tidy_run r'.
Proof.
  intros (_ & _ & Hall) Hnew Htidy Hlen Hle. split_and!; [done|done|].
  rewrite Hnew. apply Forall_app. by split.
Qed.

Lemma keeps_refl (r : Run) : keeps r r.
Proof. split_and!; try done. exists []. by rewrite app_nil_r. Qed.

Lemma keeps_trans (r1 r2 r3 : Run) : keeps r1 r2 → keeps r2 r3 → keeps r1 r3.
Proof.
  intros (Hs & Hm & Hd & evs & Htr & Hall) (Hs' & Hm' & Hd' & evs' & Htr' & Hall').
  split_and!; try congruence.
  exists (evs ++ evs'). split; [by rewrite Htr', Htr, app_assoc|].
  rewrite progress_updates_app. apply Forall_app. split; [done|].
  eapply Forall_impl; [exact Hall'|]. intros p. cbv beta. by rewrite Hs, Hm.
Qed.

Lemma keeps_quiet (r r' : Run) (evs : list Event) :
  r_scannedPhotos r' = r_scannedPhotos r →
  r_matchedPhotos r' = r_matchedPhotos r →
  r_matchedPhotosData r' = r_matchedPhotosData r →
  r_trace r' = r_trace r ++ evs →
  progress_updates evs = [] →
  keeps r r'.
Proof.
  intros Hs Hm Hd Htr Hq. split_and!; try done. exists evs. split; [done|].
  rewrite Hq. constructor.
Qed.

Lemma keeps_update (scan : string) (cb tb : Z) (r r' : Run) :
  r_scannedPhotos r' = r_scannedPhotos r →
  r_matchedPhotos r' = r_matchedPhotos r →
  r_matchedPhotosData r' = r_matchedPhotosData r →
  r_trace r' = r_trace r →
  (cb ≤ tb)%Z →
  keeps r (emit (ev_updateProgress scan (progress_of r' cb tb)) r').
Proof.
  intros Hs Hm Hd Htr Hcb. split_and!; try done.
  eexists. split; [cbn [emit r_trace]; by rewrite Htr|].
  constructor; [|constructor]. cbn. by rewrite Hs, Hm.
Qed.

Lemma keeps_tidy (r r' : Run) : keeps r r' → tidy_run r → tidy_run r'.
Proof.
  intros (Hs & Hm & Hd & evs & Htr & Hall) Ht.
  pose proof Ht as (Hlen & Hle & _).
  apply (tidy_run_step r r' (progress_updates evs)); [done| | |congruence|lia].
  - by rewrite Htr, progress_updates_app.
  - eapply Forall_impl; [exact Hall|]. intros p (Hp1 & Hp2 & Hp3).
    unfold tidy. lia.
Qed.

(** The number of a batch is within the number of batches. *)
Lemma ceil_quot_batches (len : nat) (bs i : Z) :
  (0 < bs)%Z → (0 ≤ i)%Z → (i < Z.of_nat len)%Z →
  (i / bs + 1 ≤ ceil_quot len bs)%Z.
Proof.
  intros Hbs Hi Hlen. unfold ceil_quot.
  assert (H : (- Z.of_nat len / bs < - (i / bs))%Z); [|lia].
  apply Z.div_lt_upper_bound; [done|].
  pose proof (Z.mul_div_le i bs Hbs). lia.
Qed.

Lemma ceil_quot_nonneg (len : nat) (bs : Z) : (0 < bs)%Z → (0 ≤ ceil_quot len bs)%Z.
Proof.
  intros Hbs. unfold ceil_quot.
  assert (H : (- Z.of_nat len / bs ≤ 0)%Z); [|lia].
  apply Z.div_le_upper_bound; [done|lia].
Qed.

(** With a positive batch size the number of batches is the one counted
    in natural numbers. *)
Lemma ceil_quot_ceil_div (len : nat) (bs : Z) :
  (0 < bs)%Z → ceil_quot len bs = Z.of_nat (ceil_div len (Z.to_nat bs)).
Proof.
  intros Hbs. unfold ceil_quot, ceil_div.
  rewrite Nat2Z.inj_div, Nat2Z.inj_sub, Nat2Z.inj_add, Z2Nat.id by lia.
  change (Z.of_nat 1) with 1%Z.
  assert (Hlt : (- Z.of_nat len / bs < - ((Z.of_nat len + bs - 1) / bs) + 1)%Z
                ∧ (- ((Z.of_nat len + bs - 1) / bs) - 1 < - Z.of_nat len / bs)%Z); [|lia].
  pose proof (Z.mul_div_le (- Z.of_nat len) bs Hbs).
  pose proof (Z.mul_succ_div_gt (- Z.of_nat len) bs Hbs).
  pose proof (Z.mul_div_le (Z.of_nat len + bs - 1) bs Hbs).
  pose proof (Z.mul_succ_div_gt (Z.of_nat len + bs - 1) bs Hbs).
  split; nia.
Qed.

(** A batch of a loop with a positive batch size, and what is left after
    it. *)
Lemma slice_drop (i bs : Z) (l : list Photo) :
  (0 ≤ i)%Z → (0 < bs)%Z →
  slice i (i + bs) l ++ drop (Z.to_nat (i + bs)) l = drop (Z.to_nat i) l.
Proof.
  intros Hi Hbs. unfold slice, slice_index.
  rewrite (proj2 (Z.ltb_ge i 0)), (proj2 (Z.ltb_ge (i + bs) 0)) by lia.
  set (a := Z.to_nat i). set (b := Z.to_nat (i + bs)).
  assert (Hab : a ≤ b) by lia.
  destruct (decide (length l ≤ a)) as [Ha|Ha].
  - rewrite !drop_ge by lia. rewrite take_nil. done.
  - destruct (decide (b ≤ length l)) as [Hb|Hb].
    + replace (b `min` length l) with b by lia. replace (a `min` length l) with a by lia.
      replace (drop b l) with (drop (b - a) (drop a l))
        by (rewrite drop_drop; f_equal; lia).
      apply take_drop.
    + replace (b `min` length l) with (length l) by lia.
      replace (a `min` length l) with a by lia.
      rewrite (drop_ge l b) by lia. rewrite app_nil_r.
      apply take_ge. rewrite length_drop. lia.
Qed.

Lemma map_exc_total {A B} (f : A → exc B) (l : list A) :
  Forall (λ a, is_ok (f a) = true) l →
  ∃ bs, map_exc f l = Ok bs ∧ length bs = length l.
Proof.
  induction 1 as [|a l Ha _ (bs & Hbs & Hlen)]; [by exists []|].
  cbn [map_exc]. destruct (f a) as [b|e]; [|done]. rewrite Hbs.
  exists (b :: bs). split; [done|]. cbn. by rewrite Hlen.
Qed.

Lemma find_match_listed (data : list MatchData) (id : string) :
  existsb (λ m, String.eqb (googlePhotoId m) id) data = true →
  is_Some (find_match data id).
Proof.
  unfold find_match. induction data as [|m data IH]; [done|]. cbn.
  destruct (String.eqb (googlePhotoId m) id); [by eexists|]. exact IH.
Qed.

Lemma download_all_filter (download : Photo → exc Buffer) (photos : list Photo) :
  map d_metadata (download_all download photos)
    = List.filter (λ photo, is_ok (download photo)) photos ∧
  Forall (λ d, d_id d = p_id (d_metadata d) ∧ download (d_metadata d) = Ok (d_buffer d))
    (download_all download photos).
Proof.
  unfold download_all. induction photos as [|photo photos [IH1 IH2]]; [by split|].
  cbn. destruct (download photo) as [buffer|e] eqn:Hd; cbn in *; [|by split].
  split; [by rewrite IH1|]. constructor; [by cbn|done].
Qed.

Lemma matched_metadata_bound (data : list MatchData) (allPhotos : list Photo) :
  NoDup (map p_id allPhotos) →
  length (matched_metadata data allPhotos) ≤ length data.
Proof.
  intros Hnd.
  assert (Hsub : map p_id (matched_metadata data allPhotos) ⊆+ map googlePhotoId data).
  { apply NoDup_submseteq.
    - unfold matched_metadata. clear -Hnd.
      induction allPhotos as [|photo l IH]; cbn; [constructor|].
      apply NoDup_cons in Hnd as [Hnotin Hnd].
      destruct (existsb _ data); [|by apply IH].
      cbn. apply NoDup_cons. split; [|by apply IH].
      intros Hin. apply Hnotin. apply list_elem_of_fmap in Hin as (p & -> & Hp).
      apply list_elem_of_fmap. exists p. split; [done|].
      apply list_elem_of_In, filter_In in Hp as [Hp _]. by apply list_elem_of_In.
    - intros id Hin. apply list_elem_of_fmap in Hin as (p & -> & Hp).
      apply list_elem_of_In, filter_In in Hp as [_ Hex].
      apply existsb_exists in Hex as (m & Hm & Heq).
      apply String.eqb_eq in Heq. apply list_elem_of_fmap. exists m.
      split; [done|by apply list_elem_of_In]. }
  apply submseteq_length in Hsub. by rewrite !length_map in Hsub.
Qed.

Section RunFacts.
Variable env : Env.
Variable job : Job.

Lemma processPhoto_tidy (cb tb : Z) (photo : Downloaded) (r : Run) :
  (cb ≤ tb)%Z → tidy_run r → tidy_run (processPhoto env job cb tb photo r).
Proof.
  intros Hcb Ht. pose proof Ht as (Hlen & Hle & _).
  destruct (processPhoto_spec env job cb tb photo r)
    as (mr & st & _ & _ & Hs & Hm & _ & Hd & Htr).
  eapply tidy_run_step; [exact Ht| | | |].
  - rewrite Htr, progress_updates_app. reflexivity.
  - rewrite progress_updates_cons. destruct (tenth _); [|constructor].
    rewrite progress_updates_cons. constructor; [|constructor].
    unfold tidy; cbn. destruct (isMatch mr); lia.
  - rewrite Hm, Hd. destruct (isMatch mr); [|done]. rewrite length_app. cbn. lia.
  - rewrite Hm, Hs. destruct (isMatch mr); lia.
Qed.

Lemma process_photos_tidy (cb tb : Z) (ds : list Downloaded) :
  ∀ r, (cb ≤ tb)%Z → tidy_run r → tidy_run (process_photos env job cb tb ds r).
Proof.
  induction ds as [|photo ds IH]; intros r Hcb Ht; [done|].
  change (process_photos env job cb tb (photo :: ds) r)
    with (process_photos env job cb tb ds (processPhoto env job cb tb photo r)).
  apply IH; [done|]. by apply processPhoto_tidy.
Qed.

Lemma tidy_emit_quiet (e : Event) (r : Run) :
  progress_updates [e] = [] → tidy_run r → tidy_run (emit e r).
Proof.
  intros Hq. apply keeps_tidy. by apply (keeps_quiet r (emit e r) [e]).
Qed.

(** One batch scans as many photos as thumbnails came back. *)
Lemma processBatch_tidy (cb tb : Z) (batch : list Photo) (r : Run) :
  (cb ≤ tb)%Z → tidy_run r →
  let r' := processBatch env job cb tb batch r in
  tidy_run r' ∧
  r_scannedPhotos r' = r_scannedPhotos r + length (download_all (thumbnail env) batch) ∧
  r_totalPhotos r' = r_totalPhotos r ∧ r_uploadedPhotos r' = r_uploadedPhotos r.
Proof.
  intros Hcb Ht. cbv zeta.
  change (processBatch env job cb tb batch r)
    with (process_photos env job cb tb (download_all (thumbnail env) batch)
            (emit (ev_downloadPhotosInBatches batch) r)).
  split; [apply process_photos_tidy; [done|by apply tidy_emit_quiet]|].
  by destruct (process_photos_spec env job cb tb (download_all (thumbnail env) batch)
                 (emit (ev_downloadPhotosInBatches batch) r)) as (-> & -> & _ & -> & _).
Qed.

(** With a positive batch size the batch loop ends, and it has then
    scanned as many photos as thumbnails came back, over all the batches
    from [i] on. *)
Lemma batchLoop_tidy (allPhotos : list Photo) (bs : Z) :
  (0 < bs)%Z →
  ∀ fuel i r,
    (0 ≤ i)%Z →
    Z.to_nat (Z.of_nat (length allPhotos) - i) ≤ fuel →
    tidy_run r →
    let res := batchLoop env job fuel allPhotos bs (ceil_quot (length allPhotos) bs) i r in
    res.1 = true ∧ tidy_run res.2 ∧
    r_scannedPhotos res.2 =
      r_scannedPhotos r + length (download_all (thumbnail env) (drop (Z.to_nat i) allPhotos)) ∧
    r_totalPhotos res.2 = r_totalPhotos r ∧ r_uploadedPhotos res.2 = r_uploadedPhotos r.
Proof.
  intros Hbs. induction fuel as [|fuel IH]; intros i r Hi Hfuel Ht; cbv zeta;
    cbn [batchLoop]; destruct (i <? Z.of_nat (length allPhotos))%Z eqn:E.
  - apply Z.ltb_lt in E. lia.
  - apply Z.ltb_ge in E. cbn [fst snd]. rewrite drop_ge by lia. cbn. split_and!; [done..|lia|done|done].
  - apply Z.ltb_lt in E.
    destruct (processBatch_tidy (i / bs + 1) (ceil_quot (length allPhotos) bs)
                (slice i (i + bs) allPhotos) r)
      as (Ht1 & Hs1 & Htot1 & Hup1); [by apply ceil_quot_batches|done|].
    destruct (IH (i + bs)%Z
                (processBatch env job (i / bs + 1) (ceil_quot (length allPhotos) bs)
                   (slice i (i + bs) allPhotos) r))
      as (He & Ht2 & Hs2 & Htot2 & Hup2); [lia|lia|done|].
    split_and!; [done|done| |congruence|congruence].
    rewrite Hs2, Hs1, <- (slice_drop i bs allPhotos), download_all_app, length_app by lia.
    lia.
  - apply Z.ltb_ge in E. cbn [fst snd]. rewrite drop_ge by lia. cbn. split_and!; [done..|lia|done|done].
Qed.

Lemma resolveAccessToken_keeps (r : Run) : keeps r (resolveAccessToken env job r).2.
Proof.
  destruct (resolveAccessToken_spec env job r)
    as ((_ & Hs & Hm & _ & Hd) & evs & Htr & _ & Hq).
  by apply (keeps_quiet _ _ evs).
Qed.

Lemma fetchAllPhotos_keeps (responses : list PageResponse) :
  ∀ photos pageCount r,
    keeps r (fetchAllPhotos responses photos pageCount (onPageFetched job) r).2.
Proof.
  induction responses as [|[items next|message] rest IH]; intros photos pc r;
    [apply keeps_refl| |apply keeps_refl].
  cbn [fetchAllPhotos].
  set (r1 := onPageFetched job (length (photos ++ items)) (S pc) (emit (ev_fetchPage (S pc)) r)).
  assert (H1 : keeps r r1).
  { apply (keeps_trans _ (emit (ev_fetchPage (S pc)) r)).
    - by apply (keeps_quiet _ _ [ev_fetchPage (S pc)]).
    - unfold r1, onPageFetched. by apply keeps_update. }
  destruct next; [|done]. eapply keeps_trans; [exact H1|apply IH].
Qed.

Lemma upload_each_keeps (tb : Z) (photos : list PhotoToUpload) :
  ∀ total completed r,
    keeps r (upload_each (uploadPhoto env) photos total completed
               (onUploadProgress job tb) r).2.
Proof.
  induction photos as [|photo rest IH]; intros total completed r; [apply keeps_refl|].
  cbn [upload_each].
  destruct (uploadPhotoWithRetry (uploadPhoto env photo) default_maxRetries) as [res evs].
  set (r1 := emit_all (map (ev_upload photo) evs) r).
  assert (H1 : keeps r r1).
  { apply (keeps_quiet _ _ (map (ev_upload photo) evs)); try done.
    apply upload_events_quiet. }
  destruct res as [blob|e].
  - specialize (IH total (S completed) (onUploadProgress job tb (S completed) total r1)).
    destruct (upload_each _ rest total (S completed) _ _) as [results r3]. cbn [snd] in *.
    eapply keeps_trans; [exact H1|]. eapply keeps_trans; [|exact IH].
    unfold onUploadProgress. by apply keeps_update.
  - specialize (IH total completed r1).
    destruct (upload_each _ rest total completed _ _) as [results r3]. cbn [snd] in *.
    by eapply keeps_trans.
Qed.

Lemma upload_each_length (tb : Z) (photos : list PhotoToUpload) :
  ∀ total completed r,
    length (upload_each (uploadPhoto env) photos total completed
              (onUploadProgress job tb) r).1 = length photos.
Proof.
  intros total completed r.
  destruct (upload_each_results env job tb photos total completed r) as (Hids & _).
  apply (f_equal length) in Hids. by rewrite !length_map in Hids.
Qed.

Lemma upload_each_total (tb : Z) (photos : list PhotoToUpload) :
  ∀ total completed r,
    r_totalPhotos (upload_each (uploadPhoto env) photos total completed
                     (onUploadProgress job tb) r).2 = r_totalPhotos r.
Proof.
  induction photos as [|photo rest IH]; intros total completed r; [done|].
  cbn [upload_each].
  destruct (uploadPhotoWithRetry (uploadPhoto env photo) default_maxRetries) as [res evs].
  destruct res as [blob|e].
  - specialize (IH total (S completed)
                  (onUploadProgress job tb (S completed) total
                     (emit_all (map (ev_upload photo) evs) r))).
    destruct (upload_each _ rest total (S completed) _ _) as [results r3]. exact IH.
  - specialize (IH total completed (emit_all (map (ev_upload photo) evs) r)).
    destruct (upload_each _ rest total completed _ _) as [results r3]. exact IH.
Qed.

(** The uploads of a batch, as the trace shows them. *)
Lemma upload_each_uploads (tb : Z) (photos : list PhotoToUpload) :
  ∀ total completed r,
    let res := upload_each (uploadPhoto env) photos total completed (onUploadProgress job tb) r in
    ∃ evs,
      r_trace res.2 = r_trace r ++ evs ∧
      Forall2 result_of_upload (List.filter success res.1) (successful_uploads env evs).
Proof.
  induction photos as [|photo rest IH]; intros total completed r; cbv zeta.
  - exists []. rewrite app_nil_r. split; [done|constructor].
  - cbn [upload_each].
    pose proof (retry_loop_uploads env photo default_maxRetries default_maxRetries 1) as Hsucc.
    cbv zeta in Hsucc. fold (uploadPhotoWithRetry (uploadPhoto env photo) default_maxRetries)
      in Hsucc.
    destruct (uploadPhotoWithRetry (uploadPhoto env photo) default_maxRetries)
      as [res evs] eqn:Hretry. cbn [fst snd] in Hsucc.
    set (r1 := emit_all (map (ev_upload photo) evs) r).
    destruct res as [blob|e].
    + destruct (uploadPhotoWithRetry_returns _ _ _ Hretry) as [b ->].
      set (r2 := onUploadProgress job tb (S completed) total r1).
      specialize (IH total (S completed) r2). cbv zeta in IH.
      destruct (upload_each (uploadPhoto env) rest total (S completed)
                  (onUploadProgress job tb) r2) as [results r3].
      cbn [fst snd] in *. destruct IH as (evs3 & Htr3 & Hall).
      eexists. split.
      { rewrite Htr3. unfold r2, r1, onUploadProgress, emit, emit_all, set_uploadedPhotos.
        cbn [r_trace]. rewrite <- !app_assoc. reflexivity. }
      rewrite !successful_uploads_app, Hsucc. cbn [List.filter success app].
      constructor; [by split|exact Hall].
    + specialize (IH total completed r1). cbv zeta in IH.
      destruct (upload_each (uploadPhoto env) rest total completed
                  (onUploadProgress job tb) r1) as [results r3].
      cbn [fst snd] in *. destruct IH as (evs3 & Htr3 & Hall).
      eexists. split.
      { rewrite Htr3. unfold r1, emit_all. cbn [r_trace]. rewrite <- !app_assoc. reflexivity. }
      rewrite successful_uploads_app, Hsucc. exact Hall.
Qed.

(** The upload stage throws only at the INSERT, and only when there are
    rows to insert and the Scan row of the job is missing: every successful
    upload is of a photo that has an entry in the match list, so the lookup
    of [photo_record] finds one.  The stage leaves the scan counters alone,
    and when it returns it reports at most as many uploads as photos of the
    library are listed under a matched id. *)
Lemma uploadStage_returns (w : World) (allPhotos : list Photo) (tb : Z) (r : Run) :
  successful_uploads env (r_trace r) = [] →
  let res := uploadStage env job w allPhotos tb r in
  keeps r res.2 ∧
  r_totalPhotos res.2 = r_totalPhotos r ∧
  res.1 = (if bool_decide (is_Some (getScanById (scanId job) w))
              || (length (successful_uploads env (r_trace res.2)) =? 0)%nat
           then Ok () else Throw foreign_key_violation) ∧
  (res.1 = Ok () → r_uploadedPhotos r = 0 →
   r_uploadedPhotos res.2 ≤ length (matched_metadata (r_matchedPhotosData r) allPhotos)).
Proof.
  intros Hsu. cbv zeta. unfold uploadStage.
  fold (matched_metadata (r_matchedPhotosData r) allPhotos).
  destruct (0 <? length (r_matchedPhotosData r))%nat.
  2: { cbn [fst snd]. rewrite Hsu. cbn [length Nat.eqb]. rewrite orb_true_r.
       split_and!; [apply keeps_refl|done|done|lia]. }
  set (data := r_matchedPhotosData r).
  set (meta := matched_metadata data allPhotos).
  set (originals := downloadOriginalPhotos (original env) meta).
  set (photosToUpload := map (photo_to_upload job data) originals).
  set (r1 := emit (ev_downloadOriginalPhotos meta) r).
  unfold uploadPhotosInBatch.
  set (r2 := emit (ev_uploadPhotosInBatch (map u_id photosToUpload)) r1).
  assert (H2 : keeps r r2).
  { apply (keeps_quiet _ _ [ev_downloadOriginalPhotos meta;
                            ev_uploadPhotosInBatch (map u_id photosToUpload)]); try done.
    unfold r2, r1, emit. cbn [r_trace]. by rewrite <- app_assoc. }
  assert (Hsu2 : successful_uploads env (r_trace r2) = []).
  { unfold r2, r1, emit. cbn [r_trace]. rewrite !successful_uploads_app, Hsu. done. }
  pose proof (upload_each_keeps tb photosToUpload (length photosToUpload) 0 r2) as H3.
  pose proof (upload_each_results env job tb photosToUpload (length photosToUpload) 0 r2)
    as (Hids & _).
  pose proof (upload_each_uploads tb photosToUpload (length photosToUpload) 0 r2)
    as (evs3 & Htr3 & Hall).
  pose proof (upload_each_total tb photosToUpload (length photosToUpload) 0 r2) as Htotal3.
  destruct (upload_each (uploadPhoto env) photosToUpload (length photosToUpload) 0
              (onUploadProgress job tb) r2) as [uploadResults r3] eqn:Hup.
  cbn [fst snd] in *.
  assert (Hsu3 : successful_uploads env (r_trace r3) = successful_uploads env evs3)
    by (by rewrite Htr3, successful_uploads_app, Hsu2).
  rewrite <- Hsu3 in Hall.
  destruct (download_all_filter (original env) meta) as [Hmeta Hdl].
  fold originals in Hmeta, Hdl.
  assert (Hlisted : Forall (λ result, is_ok (photo_record job data result) = true)
                      uploadResults).
  { apply Forall_forall. intros result Hin.
    assert (Hid : originalId result ∈ map u_id photosToUpload).
    { rewrite <- Hids. apply list_elem_of_fmap. by exists result. }
    unfold photosToUpload in Hid. rewrite map_map in Hid. cbn in Hid.
    apply list_elem_of_fmap in Hid as (d & Hd & Hdin).
    rewrite Forall_forall in Hdl. destruct (Hdl d Hdin) as [Hdid _].
    assert (Hm : d_metadata d ∈ meta).
    { apply list_elem_of_In. apply (filter_In (λ photo, is_ok (original env photo))).
      rewrite <- Hmeta. apply list_elem_of_In, list_elem_of_fmap. by exists d. }
    apply list_elem_of_In, filter_In in Hm as [_ Hex].
    rewrite <- Hdid, <- Hd in Hex.
    destruct (find_match_listed data (originalId result) Hex) as [m Hfind].
    unfold photo_record. by rewrite Hfind. }
  assert (Hsucc : Forall (λ result, is_ok (photo_record job data result) = true)
                    (List.filter success uploadResults)).
  { apply Forall_forall. intros result Hin. rewrite Forall_forall in Hlisted.
    apply Hlisted. apply list_elem_of_In, filter_In in Hin as [Hin _].
    by apply list_elem_of_In. }
  destruct (map_exc_total _ _ Hsucc) as (photoRecords & Hmap & Hlen).
  rewrite Hmap.
  assert (Hbound : length photoRecords ≤ length meta).
  { rewrite Hlen. etrans; [apply filter_length_le|].
    apply (f_equal length) in Hids. rewrite !length_map in Hids. rewrite Hids.
    unfold photosToUpload. rewrite length_map. apply length_download_all. }
  pose proof (records_rows job data _ _ (map_exc_Forall2 _ _ _ Hmap) _ Hall) as Hrows.
  assert (Hcount : length (successful_uploads env (r_trace r3)) = length photoRecords)
    by (symmetry; by eapply Forall2_length).
  rewrite (rows_accepted job (exec w (r_trace r3)) photoRecords _ Hrows).
  assert (Hscan : bool_decide (is_Some (tbl_scans (exec w (r_trace r3)) !! scanId job))
                  = bool_decide (is_Some (getScanById (scanId job) w))).
  { unfold getScanById. destruct (exec_scans (r_trace r3) w (scanId job)) as [g ->].
    apply bool_decide_ext. by rewrite fmap_is_Some. }
  rewrite Hscan.
  destruct (length photoRecords =? 0)%nat eqn:Hzero.
  - apply Nat.eqb_eq in Hzero. rewrite (proj2 (Nat.ltb_ge 0 _)) by lia. cbn [fst snd].
    cbn [r_trace set_uploadedPhotos]. rewrite Hcount, Hzero. cbn [Nat.eqb].
    rewrite orb_true_r. split_and!; [|exact Htotal3|done|cbn; lia].
    eapply keeps_trans; [exact H2|]. eapply keeps_trans; [exact H3|].
    apply (keeps_quiet _ _ []); try done. cbn. by rewrite app_nil_r.
  - rewrite (proj2 (Nat.ltb_lt 0 _)) by (apply Nat.eqb_neq in Hzero; lia).
    destruct (bool_decide (is_Some (getScanById (scanId job) w))); cbn [fst snd orb].
    + split_and!; [|exact Htotal3|done|intros _ _; cbn; exact Hbound].
      eapply keeps_trans; [exact H2|]. eapply keeps_trans; [exact H3|].
      apply (keeps_quiet _ _ [ev_createMatchedPhotos photoRecords]); done.
    + rewrite Hcount, Hzero. split_and!; [|exact Htotal3|done|done].
      eapply keeps_trans; [exact H2|exact H3].
Qed.
End RunFacts.

Section WholeRun.
Variable env : Env.
Variable job : Job.

Lemma fetchAllPhotos_early (responses : list PageResponse) :
  ∀ photos pageCount r,
    let r' := (fetchAllPhotos responses photos pageCount (onPageFetched job) r).2 in
    r_uploadedPhotos r' = r_uploadedPhotos r ∧
    ∃ evs, r_trace r' = r_trace r ++ evs ∧ Forall (early_event (scanId job)) evs.
Proof.
  induction responses as [|[items next|message] rest IH]; intros photos pc r; cbv zeta.
  - split; [done|]. exists []. by rewrite app_nil_r.
  - cbn [fetchAllPhotos].
    set (r1 := onPageFetched job (length (photos ++ items)) (S pc)
                 (emit (ev_fetchPage (S pc)) r)).
    assert (Htr1 : r_trace r1 = r_trace r ++
              [ev_fetchPage (S pc); ev_updateProgress (scanId job) (current r1)]).
    { unfold r1. cbn. by rewrite <- app_assoc. }
    destruct next.
    + destruct (IH (photos ++ items) (S pc) r1) as (Hup & evs & Htr & Hev).
      split; [by rewrite Hup|].
      eexists. split; [rewrite Htr, Htr1, <- app_assoc; reflexivity|].
      apply Forall_app. split; [by repeat constructor|done].
    + split; [done|]. eexists. split; [exact Htr1|by repeat constructor].
  - split; [done|]. exists []. by rewrite app_nil_r.
Qed.

Lemma last_event_emit (e : Event) (r : Run) : last_event (r_trace (emit e r)) = Some e.
Proof. unfold last_event, emit. cbn [r_trace]. apply last_snoc. Qed.

Lemma tidy_started (st : MatcherState) : tidy_run (started env job st).
Proof. split_and!; [done|done|]. cbn. constructor. Qed.

Lemma length_downloadable (photos : list Photo) :
  length (download_all (thumbnail env) photos) = length (downloadable env photos).
Proof.
  destruct (download_all_filter (thumbnail env) photos) as [Hmeta _].
  apply (f_equal length) in Hmeta. by rewrite length_map in Hmeta.
Qed.

(** A run that settles ends its trace with the terminal mark. *)
Lemma processScan_last (st : MatcherState) (w : World) (e : Event) :
  terminal_mark env job (processScan env job st w).1 = Some e →
  last_event (r_trace (processScan env job st w).2) = Some e.
Proof.
  unfold processScan.
  destruct (resolveAccessToken env job _) as [[accessToken|err] r2];
    [|intros [= <-]; apply last_event_emit].
  destruct (fetchAllPhotos _ _ _ _ r2) as [[allPhotos|err] r3];
    [|intros [= <-]; apply last_event_emit].
  destruct (length allPhotos =? 0)%nat; [intros [= <-]; apply last_event_emit|].
  destruct (batchLoop _ _ _ _ _ _ _ _) as [[|] r6]; [|done].
  destruct (uploadStage _ _ _ _ _ r6) as [[[]|err] r7];
    intros [= <-]; apply last_event_emit.
Qed.

(** The ways a run can go. *)
Lemma processScan_cases (st : MatcherState) (w : World) :
  let res := processScan env job st w in
  let batchSize := worker_batchSize (BATCH_SIZE env) in
  ((0 < batchSize)%Z → tidy_run res.2) ∧
  match enumerated env job st with
  | Throw e =>
      res.1 = rejected e ∧ Forall (λ e, stage_event e = false) (r_trace res.2)
  | Ok allPhotos =>
      if (length allPhotos =? 0)%nat then res.1 = resolved zero_result
      else if (batchSize <? 0)%Z then res.1 = never_settles
      else if bool_decide (is_Some (getScanById (scanId job) w))
              || (length (successful_uploads env (r_trace res.2)) =? 0)%nat
      then
        ∃ matched uploaded,
          res.1 = resolved (mkScanResult None (length allPhotos)
                              (Some (length (downloadable env allPhotos)))
                              matched (Some uploaded)) ∧
          matched ≤ length (downloadable env allPhotos) ∧
          (NoDup (map p_id allPhotos) → uploaded ≤ matched)
      else res.1 = rejected foreign_key_violation
  end.
Proof.
  cbv zeta. unfold enumerated, credential, processScan. fold (started env job st).
  set (r1 := started env job st).
  pose proof (tidy_started st) as Ht1. fold r1 in Ht1.
  pose proof (resolveAccessToken_keeps env job r1) as Hk2.
  destruct (resolveAccessToken_spec env job r1)
    as ((_ & _ & _ & Hup2 & _) & evsT & Htr2 & HearlyT & _).
  destruct (resolveAccessToken env job r1) as [[accessToken|e] r2]; cbn [fst snd] in *.
  2: { unfold fail_scan. cbn [fst snd]. split_and!.
       - intros _. apply tidy_emit_quiet; [done|]. by apply (keeps_tidy r1).
       - done.
       - unfold emit. cbn [r_trace]. rewrite Htr2.
         destruct (early_events_quiet job evsT HearlyT) as [_ HqT].
         unfold r1, started, emit. cbn [r_trace set_matcher initial_run app].
         constructor; [done|]. apply Forall_app. split; [done|by repeat constructor]. }
  pose proof (fetchAllPhotos_enumerate job (library env accessToken) [] 0 r2) as Hfst.
  pose proof (fetchAllPhotos_keeps job (library env accessToken) [] 0 r2) as Hk3.
  destruct (fetchAllPhotos_early (library env accessToken) [] 0 r2)
    as (Hup3 & evsF & Htr3 & HearlyF).
  destruct (fetchAllPhotos (library env accessToken) [] 0 (onPageFetched job) r2)
    as [[allPhotos|e] r3]; cbn [fst snd] in *; rewrite <- Hfst.
  2: { unfold fail_scan. cbn [fst snd]. split_and!.
       - intros _. apply tidy_emit_quiet; [done|]. apply (keeps_tidy r2); [done|].
         by apply (keeps_tidy r1).
       - done.
       - unfold emit. cbn [r_trace]. rewrite Htr3, Htr2.
         destruct (early_events_quiet job evsT HearlyT) as [_ HqT].
         destruct (early_events_quiet job evsF HearlyF) as [_ HqF].
         unfold r1, started, emit. cbn [r_trace set_matcher initial_run app].
         constructor; [done|]. apply Forall_app. split; [|by repeat constructor].
         apply Forall_app. by split. }
  assert (Ht3 : tidy_run r3) by (apply (keeps_tidy r2); [done|by apply (keeps_tidy r1)]).
  destruct (length allPhotos =? 0)%nat eqn:Hzero; cbn [fst snd].
  { split; [intros _; by apply tidy_emit_quiet|done]. }
  apply Nat.eqb_neq in Hzero.
  set (batchSize := worker_batchSize (BATCH_SIZE env)).
  pose proof (worker_batchSize_nonzero (BATCH_SIZE env)) as Hnz. fold batchSize in Hnz.
  set (r4 := set_totalPhotos (length allPhotos) r3).
  change (r_totalPhotos r4) with (length allPhotos).
  set (tb := ceil_quot (length allPhotos) batchSize).
  set (r5 := emit (ev_updateProgress (scanId job) (progress_of r4 0 tb)) r4).
  destruct (batchSize <? 0)%Z eqn:Hsign.
  { apply Z.ltb_lt in Hsign.
    pose proof (batchLoop_never_ends env job allPhotos batchSize tb Hsign
                  (length allPhotos) 0 r5) as Hnever.
    destruct (batchLoop env job (length allPhotos) allPhotos batchSize tb 0 r5)
      as [ended r6]. cbn [fst] in Hnever. rewrite Hnever by lia. cbn [fst snd].
    split; [intros ?; lia|done]. }
  apply Z.ltb_ge in Hsign. assert (Hpos : (0 < batchSize)%Z) by lia.
  assert (Hk5 : keeps r3 r5)
    by (apply keeps_update; [done..|by apply ceil_quot_nonneg]).
  assert (Ht5 : tidy_run r5) by by apply (keeps_tidy r3).
  destruct (batchLoop_tidy env job allPhotos batchSize Hpos (length allPhotos) 0 r5)
    as (Hended & Ht6 & Hs6 & Htot6 & Hup6); [done|lia|done|].
  fold tb in Hended, Ht6, Hs6, Htot6, Hup6.
  destruct (batchLoop_events env job allPhotos batchSize tb 0 (length allPhotos) r5)
    as (evsB & Htr6 & HevB).
  destruct (scan_events_quiet env job evsB HevB) as (_ & HsuB & _).
  destruct (batchLoop env job (length allPhotos) allPhotos batchSize tb 0 r5)
    as [ended r6]. cbn [fst snd] in *. subst ended.
  assert (Hsu6 : successful_uploads env (r_trace r6) = []).
  { rewrite Htr6, successful_uploads_app, HsuB.
    unfold r5, r4, emit. cbn [r_trace set_totalPhotos].
    rewrite successful_uploads_app, Htr3, successful_uploads_app, Htr2,
      successful_uploads_app.
    by rewrite (early_events_no_uploads env job evsT HearlyT),
      (early_events_no_uploads env job evsF HearlyF). }
  destruct (uploadStage_returns env job w allPhotos tb r6 Hsu6)
    as (Hk7 & Htot7 & Hout & Hbound).
  destruct (uploadStage env job w allPhotos tb r6) as [out r7]. cbn [fst snd] in *.
  pose proof (keeps_tidy _ _ Hk7 Ht6) as Ht7.
  destruct (bool_decide (is_Some (getScanById (scanId job) w))
            || (length (successful_uploads env (r_trace r7)) =? 0)%nat) eqn:Hcond;
    subst out.
  2: { unfold fail_scan. cbn [fst snd emit r_trace].
       rewrite successful_uploads_app. cbn. rewrite app_nil_r, Hcond.
       split; [intros _; by apply tidy_emit_quiet|done]. }
  set (r8 := emit (ev_updateProgress (scanId job) (progress_of r7 tb tb)) r7).
  assert (Hk8 : keeps r7 r8) by (apply keeps_update; [done..|lia]).
  pose proof (keeps_tidy _ _ Hk8 Ht7) as Ht8.
  cbn [fst snd].
  split; [intros _; by apply tidy_emit_quiet|].
  assert (Hsu8 : successful_uploads env
                   (r_trace (emit (ev_markScanCompleted (scanId job) (clock_end env)) r8))
                 = successful_uploads env (r_trace r7)).
  { unfold r8, emit. cbn [r_trace]. rewrite !successful_uploads_app. cbn.
    by rewrite !app_nil_r. }
  rewrite Hsu8, Hcond.
  exists (r_matchedPhotos r7), (r_uploadedPhotos r7).
  destruct Hk2 as (Hs2 & _). destruct Hk3 as (Hs3 & _). destruct Hk5 as (Hs5 & _).
  destruct Hk7 as (Hs7 & Hm7 & Hd7 & _).
  assert (Hscanned : r_scannedPhotos r7 = length (downloadable env allPhotos)).
  { rewrite Hs7, Hs6, Hs5, Hs3, Hs2. cbn [r1 started emit set_matcher initial_run
                                          r_scannedPhotos Z.to_nat drop].
    by rewrite length_downloadable. }
  destruct Ht7 as (_ & Hle7 & _). destruct Ht6 as (Hlen6 & _).
  split_and!.
  - cbn [emit r8 r_totalPhotos r_scannedPhotos r_matchedPhotos r_uploadedPhotos].
    by rewrite Htot7, Htot6, Hscanned.
  - lia.
  - intros Hnd. etrans; [apply Hbound|].
    + done.
    + rewrite Hup6. cbn. by rewrite Hup3, Hup2.
    + rewrite Hm7, Hlen6. by apply matched_metadata_bound.
Qed.
End WholeRun.

(** X7: how a run goes.  When the credential cannot be resolved or the
    enumeration fails, the run is rejected with that error and its trace
    holds no thumbnail download, no match, no upload and no inserted row.
    Over an empty library it resolves with the "No photos found" result.
    Over a library that is not empty, a run with a negative batch size
    never settles: its batch loop does not end.  With a positive batch size
    nothing in the batch loop rejects the run, and the upload stage rejects
    it in one case only, with the foreign key violation of the INSERT, which
    inserts nothing: when an upload has succeeded and the Scan row of the
    job does not exist.  Otherwise the run resolves with the number of
    enumerated photos as total. *)
Theorem run_settled_by_enumeration (env : Env) (job : Job) (st : MatcherState)
    (w : World) :
  let res := processScan env job st w in
  match enumerated env job st with
  | Throw e =>
      res.1 = rejected e ∧
      Forall (λ ev, stage_event ev = false) (r_trace res.2) ∧
      created_records (r_trace res.2) = []
  | Ok allPhotos =>
      if (length allPhotos =? 0)%nat then res.1 = resolved zero_result
      else if (worker_batchSize (BATCH_SIZE env) <? 0)%Z then res.1 = never_settles
      else if bool_decide (is_Some (getScanById (scanId job) w))
              || (length (successful_uploads env (r_trace res.2)) =? 0)%nat
      then ∃ result, res.1 = resolved result ∧ res_totalPhotos result = length allPhotos
      else res.1 = rejected foreign_key_violation ∧ created_records (r_trace res.2) = []
  end.
Proof.
  cbv zeta. destruct (processScan_spec env job st w) as (_ & _ & Hrejected).
  destruct (processScan_cases env job st w) as (_ & Hcases).
  destruct (enumerated env job st) as [allPhotos|e].
  2: { destruct Hcases as [Hout Hfree]. split_and!; [done|done|].
       by apply stage_free_no_records. }
  destruct (length allPhotos =? 0)%nat; [done|].
  destruct (worker_batchSize (BATCH_SIZE env) <? 0)%Z; [done|].
  destruct (_ || _).
  - destruct Hcases as (matched & uploaded & -> & _). by eexists.
  - split; [done|]. by eapply Hrejected.
Qed.

(** X8: with a positive batch size and the Scan row of the job in place,
    a run over a library that is not empty resolves with the number of
    enumerated photos as total, the number of photos whose thumbnail could
    be downloaded as scanned count, and a matched count within the scanned
    count. *)
Theorem resolved_run_counts (env : Env) (job : Job) (st : MatcherState) (w : World)
    (row : Scan) (allPhotos : list Photo) :
  (0 < worker_batchSize (BATCH_SIZE env))%Z →
  getScanById (scanId job) w = Some row →
  enumerated env job st = Ok allPhotos →
  allPhotos ≠ [] →
  ∃ matched uploaded,
    (processScan env job st w).1
      = resolved (mkScanResult None (length allPhotos)
                    (Some (length (downloadable env allPhotos))) matched (Some uploaded)) ∧
    matched ≤ length (downloadable env allPhotos) ≤ length allPhotos.
Proof.
  intros Hpos Hrow Henum Hne. destruct (processScan_cases env job st w) as (_ & Hcases).
  rewrite Henum, Hrow in Hcases. destruct allPhotos as [|photo rest]; [done|].
  cbn [length Nat.eqb] in Hcases.
  rewrite (proj2 (Z.ltb_ge _ _)) in Hcases by lia.
  rewrite bool_decide_eq_true_2 in Hcases by by eexists. cbn [orb] in Hcases.
  destruct Hcases as (matched & uploaded & Hout & Hle & _).
  exists matched, uploaded. split; [done|]. split; [done|].
  unfold downloadable. apply filter_length_le.
Qed.

Lemma resolved_run_counts_witness :
  ∃ matched uploaded,
    (processScan sample_env sample_job fresh_matcher (sample_world pending)).1
      = resolved (mkScanResult None (length sample_photos)
                    (Some (length (downloadable sample_env sample_photos)))
                    matched (Some uploaded)) ∧
    matched ≤ length (downloadable sample_env sample_photos) ≤ length sample_photos.
Proof.
  apply (resolved_run_counts sample_env sample_job fresh_matcher (sample_world pending)
           (sample_scan pending) sample_photos).
  - vm_compute; reflexivity.
  - vm_compute; reflexivity.
  - vm_compute; reflexivity.
  - discriminate.
Defined.

(** X9: in every run with a positive batch size, each progress update
    has its matched count within its scanned count and its current batch
    within its number of batches. *)
Theorem progress_updates_tidy (env : Env) (job : Job) (st : MatcherState) (w : World) :
  (0 < worker_batchSize (BATCH_SIZE env))%Z →
  Forall tidy (progress_updates (r_trace (processScan env job st w).2)).
Proof.
  intros Hpos. destruct (processScan_cases env job st w) as (Htidy & _).
  by destruct (Htidy Hpos) as (_ & _ & Hall).
Qed.

Lemma progress_updates_tidy_witness :
  Forall tidy
    (progress_updates
       (r_trace (processScan sample_env sample_job fresh_matcher (sample_world pending)).2)).
Proof.
  apply (progress_updates_tidy sample_env sample_job fresh_matcher (sample_world pending)).
  vm_compute; reflexivity.
Defined.

(** With a negative batch size the bound on the batch number fails: the
    first update of the batch stage has current batch 0 and a negative
    number of batches, and the run never settles. *)
Lemma negative_batch_size_run :
  worker_batchSize (BATCH_SIZE backwards_env) = (-2)%Z ∧
  (processScan backwards_env sample_job fresh_matcher (sample_world pending)).1
    = never_settles ∧
  map (λ p, (currentBatch p, totalBatches p))
    (progress_updates
       (r_trace (processScan backwards_env sample_job fresh_matcher
                   (sample_world pending)).2))
    = [(0, 0); (0, -1)]%Z.
Proof. split_and!; vm_compute; reflexivity. Qed.

(** X10: with a positive batch size and the Scan row of the job in place,
    when the library lists no photo id twice, a run reports at most as many
    uploaded photos as matched ones. *)
Theorem uploads_within_matches (env : Env) (job : Job) (st : MatcherState) (w : World)
    (row : Scan) (allPhotos : list Photo) :
  (0 < worker_batchSize (BATCH_SIZE env))%Z →
  getScanById (scanId job) w = Some row →
  enumerated env job st = Ok allPhotos →
  NoDup (map p_id allPhotos) →
  ∃ result,
    (processScan env job st w).1 = resolved result ∧
    default 0 (res_uploadedPhotos result) ≤ res_matchedPhotos result.
Proof.
  intros Hpos Hrow Henum Hnd. destruct (processScan_cases env job st w) as (_ & Hcases).
  rewrite Henum, Hrow in Hcases. destruct (length allPhotos =? 0)%nat.
  - by exists zero_result.
  - rewrite (proj2 (Z.ltb_ge _ _)) in Hcases by lia.
    rewrite bool_decide_eq_true_2 in Hcases by by eexists. cbn [orb] in Hcases.
    destruct Hcases as (matched & uploaded & -> & _ & Hle). eexists. split; [done|].
    cbn. by apply Hle.
Qed.

Lemma uploads_within_matches_witness :
  ∃ result,
    (processScan sample_env sample_job fresh_matcher (sample_world pending)).1
      = resolved result ∧
    default 0 (res_uploadedPhotos result) ≤ res_matchedPhotos result.
Proof.
  apply (uploads_within_matches sample_env sample_job fresh_matcher (sample_world pending)
           (sample_scan pending) sample_photos).
  - vm_compute; reflexivity.
  - vm_compute; reflexivity.
  - vm_compute; reflexivity.
  - apply (bool_decide_unpack _). vm_compute; reflexivity.
Defined.

(** Without that condition the bound fails: over a library that lists one
    photo twice, of which the first evaluation matches and the second does
    not, both listings are uploaded. *)
Lemma twice_listed_photo_uploaded_twice :
  (processScan twice_listed_env sample_job fresh_matcher (sample_world pending)).1
    = resolved (mkScanResult None 2 (Some 2) 1 (Some 2)).
Proof. vm_compute; reflexivity. Qed.

(** ** What the status endpoint reports *)









(** X13: after a run that is rejected, on a scan whose row exists, the
    Scan row is [failed] with the error of the run, and the status endpoint
    reports the failure with that error as message (or with a fixed text
    when the error message is empty).  The UPDATE of [markScanFailed] is
    taken to be answered, as every statement is. *)
Theorem rejected_run_reported (percent : nat → nat → nat) (env : Env) (job : Job)
    (st : MatcherState) (w : World) (row : Scan) (message : string) :
  getScanById (scanId job) w = Some row →
  (runJob env job st w).1 = rejected message →
  ∃ body row',
    getStatus percent (scanId job) (runJob env job st w).2 = status_200 body ∧
    getScanById (scanId job) (runJob env job st w).2 = Some row' ∧
    status row' = failed ∧ error_message row' = Some message ∧
    sb_status body = failed ∧
    sb_message body = msg_failed (failure_text (Some message)) ∧
    sb_error body = Some message.
Proof.
  unfold getScanById. rewrite runJob_fst, runJob_snd. intros Hrow Hres.
  pose proof (processScan_last env job st w) as Hlast.
  rewrite Hres in Hlast. specialize (Hlast _ eq_refl).
  apply last_Some in Hlast as [tr Htr].
  rewrite Htr, exec_app. destruct (exec_scans tr w (scanId job)) as [g Hg].
  rewrite Hrow in Hg. cbn in Hg.
  unfold getStatus, getScanById. cbn [exec foldl exec_event]. unfold markScanFailed.
  rewrite update_where_id_scans, decide_True by done. rewrite Hg.
  cbn [fmap option_fmap option_map]. do 2 eexists. split; [reflexivity|].
  split; [reflexivity|]. by cbn.
Qed.

Lemma rejected_run_reported_witness :
  ∃ body row',
    getStatus (λ scanned total, scanned * 100 / total) (scanId sample_job)
      (runJob undecryptable_env sample_job fresh_matcher (sample_world pending)).2
      = status_200 body ∧
    getScanById (scanId sample_job)
      (runJob undecryptable_env sample_job fresh_matcher (sample_world pending)).2
      = Some row' ∧
    status row' = failed ∧ error_message row' = Some "Invalid encrypted text format" ∧
    sb_status body = failed ∧
    sb_message body = msg_failed (failure_text (Some "Invalid encrypted text format")) ∧
    sb_error body = Some "Invalid encrypted text format".
Proof.
  apply (rejected_run_reported (λ scanned total, scanned * 100 / total) undecryptable_env
           sample_job fresh_matcher (sample_world pending) (sample_scan pending)
           "Invalid encrypted text format").
  - vm_compute; reflexivity.
  - vm_compute; reflexivity.
Defined.

(** ** Deleting a scan *)

(** X14: deleting an existing scan answers with its id, removes its row
    and exactly its rows of [matched_photos], leaves every other scan and
    its rows as they were, and leaves the progress snapshot and the queue
    alone; a second request for the same id is answered with 404. *)
Theorem delete_removes_scan_and_its_photos (isUUID : string → bool) (raw scan : string)
    (w : World) (row : Scan) :
  validateScanId isUUID raw = Some scan →
  getScanById scan w = Some row →
  let res := deleteRoute isUUID raw w in
  res.1 = delete_200 scan ∧
  getScanById scan res.2 = None ∧
  photos_of scan res.2 = [] ∧
  (∀ other, other ≠ scan →
     getScanById other res.2 = getScanById other w ∧
     photos_of other res.2 = photos_of other w) ∧
  redis_progress res.2 = redis_progress w ∧
  queue_jobs res.2 = queue_jobs w ∧
  deleteRoute isUUID raw res.2 = (delete_404_scan_not_found, res.2).
Proof.
  intros Hvalid Hrow. cbv zeta. unfold deleteRoute. rewrite Hvalid, Hrow.
  cbn [fst snd]. unfold deleteScan, deleteMatchedPhotosByScanId, getScanById, photos_of.
  cbn [fst snd with_scans tbl_scans tbl_matched_photos redis_progress queue_jobs].
  rewrite lookup_delete_eq. split_and!; try done.
  - induction (tbl_matched_photos w) as [|rec l IH]; [done|]. cbn.
    destruct (String.eqb (pr_scanId rec) scan) eqn:Heq; cbn; [done|].
    by rewrite Heq.
  - intros other Hne. split; [by rewrite lookup_delete_ne|].
    induction (tbl_matched_photos w) as [|rec l IH]; [done|]. cbn.
    destruct (String.eqb (pr_scanId rec) scan) eqn:Heq; cbn.
    + apply String.eqb_eq in Heq. rewrite Heq.
      destruct (String.eqb_spec scan other) as [->|_]; done.
    + destruct (String.eqb (pr_scanId rec) other); [by rewrite IH|done].
Qed.

Lemma delete_removes_scan_and_its_photos_witness :
  let w := (runJob sample_env sample_job fresh_matcher (sample_world pending)).2 in
  let res := deleteRoute uuid_format scan_1 w in
  res.1 = delete_200 scan_1 ∧
  getScanById scan_1 res.2 = None ∧
  photos_of scan_1 res.2 = [] ∧
  (∀ other, other ≠ scan_1 →
     getScanById other res.2 = getScanById other w ∧
     photos_of other res.2 = photos_of other w) ∧
  redis_progress res.2 = redis_progress w ∧
  queue_jobs res.2 = queue_jobs w ∧
  deleteRoute uuid_format scan_1 res.2 = (delete_404_scan_not_found, res.2).
Proof.
  cbv zeta.
  refine (delete_removes_scan_and_its_photos uuid_format scan_1 scan_1
            (runJob sample_env sample_job fresh_matcher (sample_world pending)).2
            _ _ _).
  - vm_compute; reflexivity.
  - vm_compute; reflexivity.
Defined.

(** ** Pages of results *)

(** X15: for a positive limit, and an ordering that returns as many rows
    as it is given, a page holds [min limit (total - offset)] rows, its
    [hasMore] flag is set exactly when the page that follows it is not
    empty, and the page and the one that follows it are the next
    [2 * limit] rows of the ordered result. *)
Theorem pages_tile_the_results (order_by : list PhotoRecord → list PhotoRecord)
    (scan : string) (limit offset : nat) (w : World) :
  (∀ l, length (order_by l) = length l) →
  0 < limit →
  let page := getMatchedPhotosPaginated order_by scan limit offset w in
  let next := getMatchedPhotosPaginated order_by scan limit (offset + limit) w in
  pg_total page = length (photos_of scan w) ∧
  length (pg_photos page) = limit `min` (pg_total page - offset) ∧
  (pg_hasMore page = true ↔ pg_photos next ≠ []) ∧
  pg_photos page ++ pg_photos next
    = take (2 * limit) (drop offset (order_by (photos_of scan w))).
Proof.
  intros Hlen Hlimit. cbv zeta. unfold getMatchedPhotosPaginated.
  cbn [pg_total pg_photos pg_hasMore].
  set (rows := order_by (photos_of scan w)).
  assert (Hrows : length rows = length (photos_of scan w)) by apply Hlen.
  split_and!.
  - done.
  - by rewrite length_take, length_drop, Hrows.
  - rewrite Nat.ltb_lt, <- Hrows. split.
    + intros Hlt Hnil. apply (f_equal length) in Hnil.
      rewrite length_take, length_drop in Hnil. cbn in Hnil. lia.
    + intros Hne. destruct (decide (offset + limit < length rows)) as [|Hge]; [done|].
      exfalso. apply Hne. rewrite drop_ge by lia. by destruct limit.
  - rewrite <- drop_drop, take_take_drop. f_equal. lia.
Qed.

Lemma pages_tile_the_results_witness :
  let w := (runJob sample_env sample_job fresh_matcher (sample_world pending)).2 in
  let page := getMatchedPhotosPaginated (λ l, l) scan_1 2 0 w in
  let next := getMatchedPhotosPaginated (λ l, l) scan_1 2 (0 + 2) w in
  pg_total page = length (photos_of scan_1 w) ∧
  length (pg_photos page) = 2 `min` (pg_total page - 0) ∧
  (pg_hasMore page = true ↔ pg_photos next ≠ []) ∧
  pg_photos page ++ pg_photos next = take (2 * 2) (drop 0 (photos_of scan_1 w)).
Proof.
  cbv zeta.
  apply (pages_tile_the_results (λ l, l) scan_1 2 0
           (runJob sample_env sample_job fresh_matcher (sample_world pending)).2).
  - reflexivity.
  - lia.
Defined.

(** ** Sessions *)

Lemma getSessionById_active (id : string) (now : N) (sessions : gmap string Session)
    (row : Session) :
  sessions !! id = Some row →
  sess_status row = sess_active →
  (now ≤ expires_at row)%N →
  getSessionById id now sessions = (Some row, sessions).
Proof.
  intros Hrow Hst Hexp. unfold getSessionById. rewrite Hrow, decide_True by done.
  by rewrite (proj2 (N.ltb_ge _ _) Hexp).
Qed.

Lemma getSessionById_expired (id : string) (now : N) (sessions : gmap string Session)
    (row : Session) :
  sessions !! id = Some row →
  sess_status row = sess_active →
  (expires_at row < now)%N →
  getSessionById id now sessions
    = (None, <[id := mkSession (creator_name row) (creator_email row) (embeddings row)
                       (reference_photos row) sess_expired (expires_at row) now]> sessions).
Proof.
  intros Hrow Hst Hexp. unfold getSessionById. rewrite Hrow, decide_True by done.
  rewrite (proj2 (N.ltb_lt _ _) Hexp). unfold updateSession. by rewrite Hrow.
Qed.

(** X16: a session that has just been created is found under its id, with
    the fields it was created with, at every time up to thirty days after
    its creation, and the lookup writes nothing; at every later time the
    lookup returns nothing and leaves the row marked expired. *)
Theorem created_session_found_for_thirty_days (id name email : string)
    (embs : list (list Q)) (photos : list string) (now t : N)
    (sessions : gmap string Session) :
  let created := createSession id name email embs photos now sessions in
  let found := getSessionById id t created.2 in
  if (t <=? now + 30 * 24 * 3600 * 1000)%N
  then found = (Some created.1, created.2) ∧
       creator_name created.1 = name ∧ creator_email created.1 = email ∧
       embeddings created.1 = embs ∧ reference_photos created.1 = photos
  else found.1 = None ∧ (sess_status <$> found.2 !! id) = Some sess_expired.
Proof.
  cbv zeta. unfold createSession. cbn [fst snd].
  change (30 * 24 * 3600 * 1000)%N with session_lifetime.
  destruct (t <=? now + session_lifetime)%N eqn:Hle.
  - apply N.leb_le in Hle. split; [|done].
    apply getSessionById_active; [apply lookup_insert_eq|done|done].
  - apply N.leb_gt in Hle.
    rewrite (getSessionById_expired id t _ _ (lookup_insert_eq _ _ _)) by done.
    cbn [fst snd]. split; [done|]. by rewrite lookup_insert_eq.
Qed.

(** X17: a lookup returns a session only when its row is active and has
    not expired, and then writes nothing; once a lookup has found an active
    row expired, the row is marked expired and no later lookup, at any
    time, returns it or writes again. *)
Theorem expired_session_stays_hidden (id : string) (now : N)
    (sessions : gmap string Session) (row : Session) :
  sessions !! id = Some row →
  let res := getSessionById id now sessions in
  match res.1 with
  | Some found =>
      found = row ∧ sess_status row = sess_active ∧ (now ≤ expires_at row)%N ∧
      res.2 = sessions
  | None =>
      (sess_status row = sess_active → (sess_status <$> res.2 !! id) = Some sess_expired) ∧
      (sess_status row = sess_expired ∨ (expires_at row < now)%N) ∧
      ∀ later, getSessionById id later res.2 = (None, res.2)
  end.
Proof.
  intros Hrow. cbv zeta.
  destruct (decide (sess_status row = sess_active)) as [Hact|Hina].
  - destruct (N.lt_ge_cases (expires_at row) now) as [Hexp|Hexp].
    + rewrite (getSessionById_expired id now sessions row) by done. cbn [fst snd].
      split_and!; [by rewrite lookup_insert_eq|by right|].
      intros later. unfold getSessionById. rewrite lookup_insert_eq.
      by rewrite decide_False.
    + rewrite (getSessionById_active id now sessions row) by done. by split_and!.
  - assert (Hnone : ∀ t, getSessionById id t sessions = (None, sessions)).
    { intros t. unfold getSessionById. by rewrite Hrow, decide_False. }
    rewrite Hnone. cbn [fst snd].
    split_and!; [done|left; by destruct (sess_status row)|done].
Qed.

Lemma expired_session_stays_hidden_witness :
  let res := getSessionById session_1 (1000 + session_lifetime + 1) sample_sessions in
  match res.1 with
  | Some found =>
      found = (createSession session_1 "Ada" "ada@example.org" [[(1 # 10)%Q]] [] 1000 ∅).1 ∧
      sess_status (createSession session_1 "Ada" "ada@example.org" [[(1 # 10)%Q]] [] 1000 ∅).1
        = sess_active ∧
      (1000 + session_lifetime + 1
         ≤ expires_at (createSession session_1 "Ada" "ada@example.org"
                         [[(1 # 10)%Q]] [] 1000 ∅).1)%N ∧
      res.2 = sample_sessions
  | None =>
      (sess_status (createSession session_1 "Ada" "ada@example.org" [[(1 # 10)%Q]] [] 1000 ∅).1
         = sess_active →
       (sess_status <$> res.2 !! session_1) = Some sess_expired) ∧
      (sess_status (createSession session_1 "Ada" "ada@example.org" [[(1 # 10)%Q]] [] 1000 ∅).1
         = sess_expired ∨
       (expires_at (createSession session_1 "Ada" "ada@example.org" [[(1 # 10)%Q]] [] 1000 ∅).1
          < 1000 + session_lifetime + 1)%N) ∧
      ∀ later, getSessionById session_1 later res.2 = (None, res.2)
  end.
Proof.
  cbv zeta.
  apply (expired_session_stays_hidden session_1 (1000 + session_lifetime + 1)
           sample_sessions
           (createSession session_1 "Ada" "ada@example.org" [[(1 # 10)%Q]] [] 1000 ∅).1).
  vm_compute; reflexivity.
Defined.

Lemma getSessionById_fresh (id : string) (now : N) (sessions : gmap string Session) :
  (∀ row, sessions !! id = Some row → stale now row = false) →
  getSessionById id now sessions
    = (sessions !! id ≫= λ row,
         if decide (sess_status row = sess_active) then Some row else None,
       sessions).
Proof.
  intros Hfresh. unfold getSessionById.
  destruct (sessions !! id) as [row|] eqn:Hrow; [|done]. cbn.
  specialize (Hfresh row eq_refl). unfold stale in Hfresh.
  destruct (decide (sess_status row = sess_active)) as [Hact|Hina]; [|done].
  rewrite bool_decide_eq_true_2, andb_true_r in Hfresh by done. by rewrite Hfresh.
Qed.

Lemma cleanup_lookup (id : string) (now : N) (sessions : gmap string Session) :
  (cleanupExpiredSessions now sessions).2 !! id
    = (λ row, if stale now row
              then mkSession (creator_name row) (creator_email row) (embeddings row)
                     (reference_photos row) sess_expired (expires_at row) now
              else row) <$> sessions !! id.
Proof. unfold cleanupExpiredSessions. cbn [snd]. apply lookup_fmap. Qed.

Lemma cleanup_leaves_none_stale (id : string) (now : N) (sessions : gmap string Session)
    (row : Session) :
  (cleanupExpiredSessions now sessions).2 !! id = Some row → stale now row = false.
Proof.
  rewrite cleanup_lookup. destruct (sessions !! id) as [row0|]; [|done]. cbn.
  destruct (stale now row0) eqn:Hstale; intros [= <-]; [|done].
  unfold stale. cbn. apply andb_false_r.
Qed.

(** X18: after [cleanupExpiredSessions] no session is both active and
    expired; a lookup by id returns what it would have returned without
    the cleanup, and no longer writes; and a second cleanup at the same
    time updates no row. *)
Theorem cleanup_agrees_with_lookups (now : N) (sessions : gmap string Session) :
  let cleaned := (cleanupExpiredSessions now sessions).2 in
  (∀ id row, cleaned !! id = Some row → stale now row = false) ∧
  (∀ id, getSessionById id now cleaned = ((getSessionById id now sessions).1, cleaned)) ∧
  cleanupExpiredSessions now cleaned = (0, cleaned).
Proof.
  cbv zeta. split_and!.
  - intros id row. apply cleanup_leaves_none_stale.
  - intros id. rewrite getSessionById_fresh by apply cleanup_leaves_none_stale.
    f_equal. rewrite cleanup_lookup. unfold getSessionById.
    destruct (sessions !! id) as [row|] eqn:Hrow; [|done]. cbn. unfold stale.
    destruct (decide (sess_status row = sess_active)) as [Hact|Hina].
    + rewrite bool_decide_eq_true_2, andb_true_r by done.
      destruct (expires_at row <? now)%N; [done|]. by rewrite decide_True.
    + rewrite bool_decide_eq_false_2, andb_false_r by done. by rewrite decide_False.
  - set (cleaned := (cleanupExpiredSessions now sessions).2).
    unfold cleanupExpiredSessions at 1. f_equal.
    + apply map_size_empty_iff, map_empty. intros id.
      apply map_lookup_filter_None_2.
      destruct (cleaned !! id) as [row|] eqn:Hrow; [right|by left].
      intros row' [= <-]. cbn.
      by rewrite (cleanup_leaves_none_stale id now sessions row Hrow).
    + apply map_eq. intros id. rewrite lookup_fmap.
      destruct (cleaned !! id) as [row|] eqn:Hrow; [|done]. cbn.
      by rewrite (cleanup_leaves_none_stale id now sessions row Hrow).
Qed.

(** ** Reference embeddings *)

Section EmbeddingFacts.
Variable sizeOf : Buffer → exc (nat * nat).
Variable random : nat → Q.

Lemma random_descriptor_length (n : nat) :
  ∀ st, ∃ d,
    random_descriptor random n st = (Ok d, mkMatcherState (initialized st) (rng st + n)) ∧
    length d = n.
Proof.
  induction n as [|n IH]; intros st.
  - exists []. split; [|done]. cbn. unfold ms_ret. destruct st; cbn. by rewrite Nat.add_0_r.
  - destruct (IH (mkMatcherState (initialized st) (S (rng st)))) as (d & Hd & Hlen).
    eexists. split.
    + cbn [random_descriptor]. unfold ms_bind, math_random at 1. rewrite Hd.
      cbn [initialized rng]. unfold ms_ret. do 2 f_equal. lia.
    + cbn. by rewrite Hlen.
Qed.

(** A usable buffer yields one face with a descriptor of 128 numbers, at
    the cost of 128 random numbers; any other buffer yields no face and
    draws none. *)
Lemma detectFaces_face (imageBuffer : option Buffer) (st : MatcherState) :
  ∃ faces st',
    detectFaces sizeOf random imageBuffer st = (Ok faces, st') ∧
    if unusable sizeOf imageBuffer then faces = [] ∧ rng st' = rng st
    else ∃ face, faces = [face] ∧ length (descriptor face) = 128 ∧
                 rng st' = rng st + 128.
Proof.
  unfold detectFaces, ms_try, ms_bind, initializeModel, ms_try, ms_ret, ms_lift, unusable.
  destruct (initialized st) eqn:Hinit.
  all: destruct imageBuffer as [buf|];
    [|do 2 eexists; split; [reflexivity|]; by split].
  all: destruct (length buf =? 0)%nat;
    [do 2 eexists; split; [reflexivity|]; by split|].
  all: destruct (sizeOf buf) as [[wd ht]|e];
    [|do 2 eexists; split; [reflexivity|]; by split].
  all: match goal with
       | |- context [random_descriptor random 128 ?s] =>
           destruct (random_descriptor_length 128 s) as (d & Hd & Hlen); rewrite Hd
       end.
  all: do 2 eexists; split; [reflexivity|]; eexists; split; [reflexivity|].
  all: cbn [descriptor rng]; split; [done|lia].
Qed.

Lemma extract_loop_spec (imageBuffers : list (option Buffer)) :
  ∀ embeddings st,
    ∃ new st',
      extract_loop sizeOf random imageBuffers embeddings st = (Ok (embeddings ++ new), st') ∧
      length new = length (List.filter (λ b, negb (unusable sizeOf b)) imageBuffers) ∧
      Forall (λ e, length e = 128) new ∧
      rng st' = rng st + 128 * length new.
Proof.
  induction imageBuffers as [|buffer rest IH]; intros embeddings st.
  - exists [], st. cbn. unfold ms_ret. rewrite app_nil_r. split_and!; [done|done|done|lia].
  - cbn [extract_loop List.filter].
    destruct (detectFaces_face buffer st) as (faces & st1 & Hd & Hfaces).
    unfold ms_bind at 1, ms_try at 1, ms_bind at 1. rewrite Hd.
    destruct (unusable sizeOf buffer); cbn [negb].
    + destruct Hfaces as [-> Hrng]. unfold ms_ret at 1.
      destruct (IH embeddings st1) as (new & st' & Hloop & Hlen & Hall & Hrng').
      exists new, st'. split_and!; [done|done|done|lia].
    + destruct Hfaces as (face & -> & Hdesc & Hrng). unfold ms_ret at 1.
      destruct (IH (embeddings ++ [extractFaceEmbedding face]) st1)
        as (new & st' & Hloop & Hlen & Hall & Hrng').
      exists (extractFaceEmbedding face :: new), st'. split_and!.
      * rewrite Hloop. by rewrite <- app_assoc.
      * cbn. by rewrite Hlen.
      * by constructor.
      * cbn [length]. lia.
Qed.
End EmbeddingFacts.

(** X19: [extractReferenceEmbeddings] returns one embedding of 128 numbers
    for each reference photo that is neither [null], empty nor rejected by
    [image-size], drawing 128 random numbers for each of them; it throws
    exactly when there is no such photo. *)
Theorem reference_embeddings_per_usable_photo (sizeOf : Buffer → exc (nat * nat))
    (random : nat → Q) (imageBuffers : list (option Buffer)) (st : MatcherState) :
  let usable := List.filter (λ b, negb (unusable sizeOf b)) imageBuffers in
  ∃ embeddings st',
    extractReferenceEmbeddings sizeOf random imageBuffers st
      = (if (length usable =? 0)%nat
         then Throw "No valid faces found in reference photos"
         else Ok embeddings, st') ∧
    length embeddings = length usable ∧
    Forall (λ e, length e = 128) embeddings ∧
    rng st' = rng st + 128 * length usable.
Proof.
  cbv zeta. unfold extractReferenceEmbeddings, ms_bind.
  destruct (extract_loop_spec sizeOf random imageBuffers [] st)
    as (new & st' & -> & Hlen & Hall & Hrng).
  cbn [app]. exists new, st'. rewrite <- Hlen. split_and!; [|done|done|done].
  by destruct (length new =? 0)%nat.
Qed.

(** ** The batches of a run *)

Lemma batches_of_app (l1 l2 : list Event) :
  batches_of (l1 ++ l2) = batches_of l1 ++ batches_of l2.
Proof. apply omap_app. Qed.

Lemma batch_free_quiet (evs : list Event) : Forall batch_free evs → batches_of evs = [].
Proof.
  induction 1 as [|e evs He _ IH]; [done|]. unfold batches_of in *. cbn.
  destruct e; try done. 
Qed.

Lemma early_events_batch_free (scan : string) (evs : list Event) :
  Forall (early_event scan) evs → Forall batch_free evs.
Proof. intros Hall. eapply Forall_impl; [exact Hall|]. by intros []. Qed.

Lemma ceil_div_step (len bs i : nat) :
  0 < bs → i < len → ceil_div (len - i) bs = S (ceil_div (len - (i + bs)) bs).
Proof.
  intros Hbs Hi. unfold ceil_div.
  replace (len - i + bs - 1) with (len - i - 1 + 1 * bs) by lia.
  rewrite Nat.div_add by lia. rewrite Nat.add_1_r. f_equal.
  destruct (le_lt_dec (i + bs) len) as [Hle|Hlt].
  - f_equal. lia.
  - replace (len - (i + bs)) with 0 by lia. rewrite !Nat.div_small by lia. done.
Qed.

Section BatchFacts.
Variable env : Env.
Variable job : Job.

Lemma process_photos_batch_free (cb tb : Z) (ds : list Downloaded) :
  ∀ r, ∃ evs,
    r_trace (process_photos env job cb tb ds r) = r_trace r ++ evs ∧
    Forall batch_free evs.
Proof.
  induction ds as [|photo ds IH]; intros r.
  - exists []. by rewrite app_nil_r.
  - change (process_photos env job cb tb (photo :: ds) r)
      with (process_photos env job cb tb ds (processPhoto env job cb tb photo r)).
    destruct (processPhoto_spec env job cb tb photo r) as (mr & st & _ & _ & _ & _ & _ & _ & Htr).
    destruct (IH (processPhoto env job cb tb photo r)) as (evs & Htr' & Hfree).
    eexists. split; [rewrite Htr', Htr, <- app_assoc; reflexivity|].
    apply Forall_app. split; [|done].
    constructor; [done|]. destruct (tenth _); by repeat constructor.
Qed.

(** With a positive batch size the batch loop hands the photos from index
    [i] on to the thumbnail download, in order, in batches that are not
    empty and hold at most [bs] photos. *)
Lemma batchLoop_batches (allPhotos : list Photo) (bs tb : Z) :
  (0 < bs)%Z →
  ∀ fuel i r,
    (0 ≤ i)%Z →
    Z.to_nat (Z.of_nat (length allPhotos) - i) ≤ fuel →
    ∃ evs,
      r_trace (batchLoop env job fuel allPhotos bs tb i r).2 = r_trace r ++ evs ∧
      concat (batches_of evs) = drop (Z.to_nat i) allPhotos ∧
      length (batches_of evs)
        = ceil_div (length allPhotos - Z.to_nat i) (Z.to_nat bs) ∧
      Forall (λ batch, 0 < length batch ∧ (Z.of_nat (length batch) ≤ bs)%Z)
        (batches_of evs).
Proof.
  intros Hbs.
  assert (Hend : ∀ i r, (0 ≤ i)%Z → (Z.of_nat (length allPhotos) ≤ i)%Z →
            ∃ evs,
              r_trace r = r_trace r ++ evs ∧
              concat (batches_of evs) = drop (Z.to_nat i) allPhotos ∧
              length (batches_of evs)
                = ceil_div (length allPhotos - Z.to_nat i) (Z.to_nat bs) ∧
              Forall (λ batch, 0 < length batch ∧ (Z.of_nat (length batch) ≤ bs)%Z)
                (batches_of evs)).
  { intros i r Hi Hge. exists []. rewrite app_nil_r, drop_ge by lia.
    split_and!; [done|done| |done].
    replace (length allPhotos - Z.to_nat i) with 0 by lia. unfold ceil_div.
    cbn [batches_of omap list_omap length]. rewrite Nat.div_small by lia. done. }
  induction fuel as [|fuel IH]; intros i r Hi Hfuel; cbn [batchLoop];
    destruct (i <? Z.of_nat (length allPhotos))%Z eqn:E.
  - apply Z.ltb_lt in E. lia.
  - apply Z.ltb_ge in E. cbn [snd]. by apply Hend.
  - apply Z.ltb_lt in E.
    set (batch := slice i (i + bs) allPhotos).
    destruct (IH (i + bs)%Z (processBatch env job (i / bs + 1) tb batch r))
      as (evs & Htr & Hconcat & Hlen & Hall); [lia|lia|].
    destruct (process_photos_batch_free (i / bs + 1) tb
                (downloadPhotosInBatches (thumbnail env) batch)
                (emit (ev_downloadPhotosInBatches batch) r)) as (evsB & HtrB & HfreeB).
    change (process_photos env job (i / bs + 1) tb
              (downloadPhotosInBatches (thumbnail env) batch)
              (emit (ev_downloadPhotosInBatches batch) r))
      with (processBatch env job (i / bs + 1) tb batch r) in HtrB.
    exists (ev_downloadPhotosInBatches batch :: evsB ++ evs).
    assert (Hb : batches_of (ev_downloadPhotosInBatches batch :: evsB ++ evs)
                 = batch :: batches_of evs).
    { change (ev_downloadPhotosInBatches batch :: evsB ++ evs)
        with ([ev_downloadPhotosInBatches batch] ++ evsB ++ evs).
      rewrite !batches_of_app, (batch_free_quiet evsB HfreeB). done. }
    rewrite Hb. split_and!.
    + rewrite Htr, HtrB. cbn [emit r_trace]. by rewrite <- !app_assoc.
    + cbn [concat]. rewrite Hconcat. by apply slice_drop.
    + cbn [length]. rewrite Hlen. symmetry.
      replace (Z.to_nat (i + bs)) with (Z.to_nat i + Z.to_nat bs) by lia.
      apply ceil_div_step; lia.
    + constructor; [|done]. unfold batch, slice, slice_index.
      rewrite length_take, length_drop.
      rewrite (proj2 (Z.ltb_ge i 0)), (proj2 (Z.ltb_ge (i + bs) 0)) by lia. lia.
  - apply Z.ltb_ge in E. cbn [snd]. by apply Hend.
Qed.

Lemma upload_each_batch_free (tb : Z) (photos : list PhotoToUpload) :
  ∀ total completed r, ∃ evs,
    r_trace (upload_each (uploadPhoto env) photos total completed
               (onUploadProgress job tb) r).2 = r_trace r ++ evs ∧
    Forall batch_free evs.
Proof.
  induction photos as [|photo rest IH]; intros total completed r.
  - exists []. by rewrite app_nil_r.
  - cbn [upload_each].
    destruct (uploadPhotoWithRetry (uploadPhoto env photo) default_maxRetries) as [res evs0].
    assert (Hfree0 : Forall batch_free (map (ev_upload photo) evs0))
      by (apply Forall_forall; intros e [x [-> _]]%list_elem_of_fmap; done).
    destruct res as [blob|e].
    + specialize (IH total (S completed)
                    (onUploadProgress job tb (S completed) total
                       (emit_all (map (ev_upload photo) evs0) r))).
      destruct (upload_each _ rest total (S completed) _ _) as [results r3].
      destruct IH as (evs & Htr & Hfree). cbn [snd] in *.
      eexists. split.
      { rewrite Htr. cbn [onUploadProgress emit set_uploadedPhotos emit_all r_trace].
        rewrite <- !app_assoc. reflexivity. }
      apply Forall_app. split; [done|]. apply Forall_app. split; [by repeat constructor|done].
    + specialize (IH total completed (emit_all (map (ev_upload photo) evs0) r)).
      destruct (upload_each _ rest total completed _ _) as [results r3].
      destruct IH as (evs & Htr & Hfree). cbn [snd] in *.
      eexists. split.
      { rewrite Htr. cbn [emit_all r_trace]. rewrite <- !app_assoc. reflexivity. }
      apply Forall_app. by split.
Qed.

Lemma uploadStage_batch_free (w : World) (allPhotos : list Photo) (tb : Z) (r : Run) :
  ∃ evs,
    r_trace (uploadStage env job w allPhotos tb r).2 = r_trace r ++ evs ∧
    Forall batch_free evs.
Proof.
  unfold uploadStage. destruct (0 <? length (r_matchedPhotosData r))%nat.
  2: { exists []. by rewrite app_nil_r. }
  unfold uploadPhotosInBatch.
  match goal with
  | |- context [upload_each _ ?photos ?total 0 _ ?r2] =>
      destruct (upload_each_batch_free tb photos total 0 r2) as (evs & Htr & Hfree);
      destruct (upload_each (uploadPhoto env) photos total 0 (onUploadProgress job tb) r2)
        as [uploadResults r3]
  end.
  cbn [snd] in Htr. cbn [emit r_trace] in Htr.
  destruct (map_exc _ _) as [photoRecords|e]; cbn [snd].
  - destruct (0 <? length photoRecords)%nat; cbn [snd set_uploadedPhotos emit r_trace].
    + destruct (createMatchedPhotos photoRecords _).1; cbn [snd set_uploadedPhotos emit r_trace].
      * eexists. split; [rewrite Htr, <- !app_assoc; reflexivity|].
        repeat (apply Forall_app; split); try done; by repeat constructor.
      * eexists. split; [rewrite Htr, <- !app_assoc; reflexivity|].
        repeat (apply Forall_app; split); try done; by repeat constructor.
    + eexists. split; [rewrite Htr, <- !app_assoc; reflexivity|].
      repeat (apply Forall_app; split); try done; by repeat constructor.
  - eexists. split; [rewrite Htr, <- !app_assoc; reflexivity|].
    repeat (apply Forall_app; split); try done; by repeat constructor.
Qed.
End BatchFacts.

(** X20: in a run with a positive batch size, the photos that the
    enumeration returned are handed to the thumbnail download exactly once
    each, in the order of the enumeration, in batches that are not empty
    and hold at most the configured batch size; the number of batches is
    the [totalBatches] that the updates carry. *)
Theorem batches_partition_library (env : Env) (job : Job) (st : MatcherState) (w : World)
    (allPhotos : list Photo) :
  (0 < worker_batchSize (BATCH_SIZE env))%Z →
  enumerated env job st = Ok allPhotos →
  let batches := batches_of (r_trace (processScan env job st w).2) in
  let batchSize := worker_batchSize (BATCH_SIZE env) in
  concat batches = allPhotos ∧
  Z.of_nat (length batches) = ceil_quot (length allPhotos) batchSize ∧
  Forall (λ batch, 0 < length batch ∧ (Z.of_nat (length batch) ≤ batchSize)%Z) batches.
Proof.
  intros Hpos. unfold enumerated, credential, processScan. fold (started env job st).
  set (r1 := started env job st).
  destruct (resolveAccessToken_spec env job r1) as (_ & evsT & Htr2 & HearlyT & _).
  destruct (resolveAccessToken env job r1) as [[accessToken|e] r2]; cbn [fst snd] in *;
    [|done].
  pose proof (fetchAllPhotos_enumerate job (library env accessToken) [] 0 r2) as Hfst.
  destruct (fetchAllPhotos_early job (library env accessToken) [] 0 r2)
    as (_ & evsF & Htr3 & HearlyF).
  destruct (fetchAllPhotos (library env accessToken) [] 0 (onPageFetched job) r2)
    as [fres r3]; cbn [fst snd] in *.
  rewrite <- Hfst. intros ->. cbv zeta.
  apply early_events_batch_free, batch_free_quiet in HearlyT, HearlyF.
  assert (H3 : batches_of (r_trace r3) = []).
  { rewrite Htr3, Htr2, !batches_of_app, HearlyT, HearlyF. done. }
  destruct (length allPhotos =? 0)%nat eqn:Hzero; cbn [fst snd].
  { apply Nat.eqb_eq in Hzero. apply nil_length_inv in Hzero as ->.
    cbn [emit r_trace]. rewrite batches_of_app, H3. cbn [app batches_of omap list_omap].
    split_and!; [done| |done]. cbn [length]. rewrite (ceil_quot_ceil_div 0 _ Hpos).
    unfold ceil_div. rewrite Nat.div_small; [done|lia]. }
  set (batchSize := worker_batchSize (BATCH_SIZE env)) in *.
  set (r4 := set_totalPhotos (length allPhotos) r3).
  set (tb := ceil_quot (r_totalPhotos r4) batchSize).
  set (r5 := emit (ev_updateProgress (scanId job) (progress_of r4 0 tb)) r4).
  destruct (batchLoop_batches env job allPhotos batchSize tb Hpos (length allPhotos) 0 r5)
    as (evsB & Htr6 & Hconcat & Hlen & Hall); [done|lia|].
  pose proof (batchLoop_ends env job allPhotos batchSize tb Hpos (length allPhotos) 0 r5)
    as Hended.
  destruct (batchLoop env job (length allPhotos) allPhotos batchSize tb 0 r5)
    as [ended r6]. cbn [fst snd] in *. rewrite Hended by lia.
  destruct (uploadStage_batch_free env job w allPhotos tb r6) as (evsU & Htr7 & HfreeU).
  apply batch_free_quiet in HfreeU.
  assert (H7 : batches_of (r_trace (uploadStage env job w allPhotos tb r6).2)
               = batches_of evsB).
  { rewrite Htr7, Htr6. cbn [r5 r4 emit set_totalPhotos r_trace].
    rewrite !batches_of_app, H3, HfreeU. cbn. by rewrite app_nil_r. }
  change (Z.to_nat 0) with 0 in *. rewrite Nat.sub_0_r in Hlen. cbn [drop] in Hconcat.
  destruct (uploadStage env job w allPhotos tb r6) as [[[]|e] r7]; cbn [fst snd] in *.
  - cbn [emit r_trace]. rewrite !batches_of_app, H7. cbn. rewrite !app_nil_r.
    split_and!; [done| |done].
    by rewrite (ceil_quot_ceil_div (length allPhotos) _ Hpos), Hlen.
  - unfold fail_scan. cbn [snd emit r_trace]. rewrite !batches_of_app, H7. cbn.
    rewrite !app_nil_r. split_and!; [done| |done].
    by rewrite (ceil_quot_ceil_div (length allPhotos) _ Hpos), Hlen.
Qed.

Lemma batches_partition_library_witness :
  let batches :=
    batches_of (r_trace (processScan sample_env sample_job fresh_matcher
                           (sample_world pending)).2) in
  let batchSize := worker_batchSize (BATCH_SIZE sample_env) in
  concat batches = sample_photos ∧
  Z.of_nat (length batches) = ceil_quot (length sample_photos) batchSize ∧
  Forall (λ batch, 0 < length batch ∧ (Z.of_nat (length batch) ≤ batchSize)%Z) batches.
Proof.
  apply (batches_partition_library sample_env sample_job fresh_matcher
           (sample_world pending) sample_photos).
  - vm_compute; reflexivity.
  - vm_compute; reflexivity.
Defined.

(** With a negative batch size the batches are no partition of the
    library: [slice] counts a negative end from the end of the array, and
    the loop goes on asking for batches before the first photo. *)
Lemma negative_batch_size_batches :
  map (map p_id)
    (batches_of (r_trace (processScan backwards_env sample_job fresh_matcher
                            (sample_world pending)).2))
    = [["a"]; []; []] ∧
  ceil_quot (length sample_photos) (worker_batchSize (BATCH_SIZE backwards_env)) = (-1)%Z.
Proof. split; vm_compute; reflexivity. Qed.

(** ** The session router *)

(** X21: no request reaches the handler of [GET /by-email]: the route
    [GET /:sessionId], registered before it, takes every request for a
    path of one segment.  A request for [/by-email] is answered by that
    route, with "400 Validation Error" since the word is not a UUID, and
    nothing is read or written. *)
Theorem by_email_route_shadowed (isUUID : string → bool) (now : N)
    (sessions : gmap string Session) :
  isUUID "by-email" = false →
  (∀ method path, dispatch session_routes method path ≠ Some handle_by_email) ∧
  dispatch session_routes GET ["by-email"] = Some handle_get_session ∧
  getSessionRoute isUUID "by-email" now sessions = (session_400_validation_error, sessions).
Proof.
  intros Hword. split_and!.
  - intros method path. unfold dispatch, session_routes. cbn [List.find fst snd].
    destruct method;
      repeat match goal with
             | |- context [bool_decide (?a = ?b)] =>
                 let v := eval vm_compute in (bool_decide (a = b)) in
                 change (bool_decide (a = b)) with v
             end; cbn [andb].
    + destruct path as [|segment [|segment' path]]; cbn [matches andb]; [done|done|].
      rewrite andb_false_r. by destruct (String.eqb "stats" segment'), path.
    + by destruct (matches [literal "create"] path).
    + by destruct (matches [parameter "sessionId"] path).
  - reflexivity.
  - unfold getSessionRoute, validateSessionId.
    change (trim "by-email") with "by-email". rewrite Hword. by rewrite andb_false_r.
Qed.

Lemma by_email_route_shadowed_witness :
  (∀ method path, dispatch session_routes method path ≠ Some handle_by_email) ∧
  dispatch session_routes GET ["by-email"] = Some handle_get_session ∧
  getSessionRoute uuid_format "by-email" 2000 sample_sessions
    = (session_400_validation_error, sample_sessions).
Proof.
  apply (by_email_route_shadowed uuid_format 2000 sample_sessions).
  vm_compute; reflexivity.
Defined.









(** A request with two files of which none is an image: the answer is 500
    with the message of the extraction, both files are unlinked by the
    handler, and the second call of the clean-up finds nothing. *)
Lemma create_route_no_face_example :
  let files := [mkUploadedFile "a.txt" "uploads/1" [];
                mkUploadedFile "b.txt" "uploads/2" []] in
  let d := mkDisk {["uploads/1"; "uploads/2"; "uploads/3"]} [] in
  let res := createRoute (λ _, Throw "unsupported file type") (λ _, 0%Q)
               (λ _ _, Failed (plain_error "unreachable")) files "Ada" "ada@example.org"
               session_1 1000 d fresh_matcher ∅ in
  cr_answer res
    = create_error 500 (plain_error "No valid faces found in reference photos") ∧
  unlinked (cr_disk res) = [["uploads/1"; "uploads/2"]; []] ∧
  on_disk (cr_disk res) = {["uploads/3"]} ∧
  cr_sessions res = ∅.
Proof. cbv zeta. split_and!; by vm_compute. Qed.
